(** * All-pairs shortest paths by repeated min-plus squaring (path-mpi.c)

    A shallow embedding of [src/path-mpi.c] and the properties of its
    kernel [square], of the conventions [infinitize]/[deinfinitize], of the
    driver [shortest_paths], of the domain decomposition done in [main] and
    of the generator [gen_graph].

    Conventions of the embedding.
    - A C [int] is a [Z]; the arithmetic of the program is the 32-bit
      two's-complement arithmetic of the target ([CInt.add], [CInt.mul],
      ...), with the wrap-around written out.  Signed overflow is undefined
      in C; the model takes the value the machine computes.
    - An [int*] buffer is a [list Z], read with [aget] and written with
      [aset].  An access outside the buffer is undefined in C; the model
      reads 0 there and ignores the write.  Every theorem is stated for
      buffers of [n*n] cells and indices inside them, and for dimensions
      with [n*n <= INT_MAX]: the buffers are allocated with
      [calloc(n*n, sizeof(int))] and indexed with ints.
    - A [for] loop with unit stride is [for_range]; the body is a state
      transformer over the variables the loop assigns.  The loops that may
      run on ([for_step], the loop of [shortest_paths]) take fuel and
      return [None] when it is used up. *)

From Stdlib Require Import ZArith Lia Bool Ascii.
From stdpp Require Import base tactics option list strings pretty.

Local Open Scope Z_scope.

(** ** C [int] arithmetic *)

Module CInt.

Definition int_min : Z := -2147483648.
Definition int_max : Z := 2147483647.

Definition wrap (z : Z) : Z := (z + 2147483648) mod 4294967296 - 2147483648.

Definition add (a b : Z) : Z := wrap (a + b).
Definition sub (a b : Z) : Z := wrap (a - b).
Definition mul (a b : Z) : Z := wrap (a * b).
(* C division truncates towards zero. *)
Definition quot (a b : Z) : Z := wrap (Z.quot a b).
Definition rem (a b : Z) : Z := wrap (Z.rem a b).

Definition in_range (z : Z) : Prop := int_min <= z <= int_max.

End CInt.

Infix "+i" := CInt.add (at level 50, left associativity).
Infix "-i" := CInt.sub (at level 50, left associativity).
Infix "*i" := CInt.mul (at level 40, left associativity).

(** ** Buffers *)

Definition aget (l : list Z) (i : Z) : Z :=
  if i <? 0 then 0 else default 0 (l !! Z.to_nat i).

Definition aset (l : list Z) (i : Z) (v : Z) : list Z :=
  if i <? 0 then l else <[Z.to_nat i := v]> l.

Definition len (l : list Z) : Z := Z.of_nat (length l).

(** ** Loops *)

Fixpoint for_count {St : Type} (c : nat) (i : Z) (body : Z -> St -> St)
    (s : St) : St :=
  match c with
  | O => s
  | S c' => for_count c' (i + 1) body (body i s)
  end.

(* for (int i = lo; i < hi; ++i) body.  The counter stays below [hi], so
   [++i] never wraps. *)
Definition for_range {St : Type} (lo hi : Z) (body : Z -> St -> St)
    (s : St) : St :=
  for_count (Z.to_nat (hi - lo)) lo body s.

(** ** The kernel [square] (path-mpi.c, lines 44-66) *)

(* One iteration of the k loop, on the pair (lij, done). *)
Definition square_k (n : Z) (l : list Z) (jn i k : Z) (st : Z * Z) : Z * Z :=
  let '(lij, done) := st in
  let lkj := aget l (jn +i k) in
  let lik := aget l (k *i n +i i) in
  if lik +i lkj <? lij then (lik +i lkj, 0) else (lij, done).

(* One iteration of the i loop, on the pair (done, lnew). *)
Definition square_i (n : Z) (l : list Z) (j jn i : Z) (st : Z * list Z)
  : Z * list Z :=
  let '(done, lnew) := st in
  let lij := aget lnew (jn +i i) in
  let '(lij, done) := for_range 0 n (square_k n l jn i) (lij, done) in
  (done, aset lnew (j *i n +i i) lij).

(* One iteration of the j loop. *)
Definition square_j (imin_ imax_ n : Z) (l : list Z) (j : Z) (st : Z * list Z)
  : Z * list Z :=
  let jn := j *i n in
  for_range imin_ imax_ (square_i n l j jn) st.

(* Returns (done, lnew); [l] is only read. *)
Definition square (irank imin_ jmin_ imax_ jmax_ n : Z) (l lnew : list Z)
  : Z * list Z :=
  for_range jmin_ jmax_ (square_j imin_ imax_ n l) (1, lnew).

(** ** [infinitize], [deinfinitize] (lines 82-94) *)

(* The tile arguments are accepted and ignored, as in the source. *)
Definition infinitize (imin_ jmin_ imax_ jmax_ n : Z) (l : list Z) : list Z :=
  for_range 0 (n *i n)
    (fun i l => if aget l i =? 0 then aset l i (n +i 1) else l) l.

Definition deinfinitize (imin_ jmin_ imax_ jmax_ n : Z) (l : list Z) : list Z :=
  for_range 0 (n *i n)
    (fun i l => if aget l i =? n +i 1 then aset l i 0 else l) l.

(** ** [shortest_paths] (lines 110-127) *)

(* for (int i = lo; i < hi; i += step) body.  The loop is run for at most
   [fuel] iterations; [None] when it has not left by then. *)
Fixpoint for_step {St : Type} (fuel : nat) (i hi step : Z)
    (body : Z -> St -> St) (s : St) : option St :=
  match fuel with
  | O => None
  | S fuel' =>
      if i <? hi then for_step fuel' (i +i step) hi step body (body i s)
      else Some s
  end.

(* for (int i = 0; i < n*n; i += n+1) l[i] = 0;
   with a positive stride the loop leaves within n*n iterations. *)
Definition reset_diag (n : Z) (l : list Z) : option (list Z) :=
  for_step (S (Z.to_nat (n *i n))) 0 (n *i n) (n +i 1)
    (fun i l => aset l i 0) l.

(* Lines 113-115: the distance matrix l^0 of the adjacency matrix. *)
Definition init_dist (imin_ jmin_ imax_ jmax_ n : Z) (l : list Z)
  : option (list Z) :=
  reset_diag n (infinitize imin_ jmin_ imax_ jmax_ n l).

(* MPI_Allreduce on buffers: every process receives the element-wise
   reduction of the send buffers of all processes. *)
Definition allreduce (op : Z -> Z -> Z) (bufs : list (list Z)) : list Z :=
  match bufs with
  | [] => []
  | b :: bs => foldl (zip_with op) b bs
  end.

(* MPI_Allreduce on one int per process. *)
Definition allreduce_int (op : Z -> Z -> Z) (vals : list Z) : Z :=
  match vals with
  | [] => 0
  | v :: vs => foldl op v vs
  end.

(** *** One process

    The communicator has one process: each MPI_Allreduce hands the send
    buffer back.  The loop [for (int done = 0; !done; )] runs its body at
    most [fuel] times; the second component counts the executed rounds (a
    ghost value, the program does not compute it). *)

Fixpoint sp_loop (fuel : nat) (irank imin_ jmin_ imax_ jmax_ n : Z)
    (l lnew : list Z) : option (list Z * nat) :=
  match fuel with
  | O => None
  | S fuel' =>
      let '(mydone, lnew) := square irank imin_ jmin_ imax_ jmax_ n l lnew in
      let done := mydone in
      let l := lnew in
      if done =? 0 then
        '(l, rounds) ← sp_loop fuel' irank imin_ jmin_ imax_ jmax_ n l lnew;
        Some (l, S rounds)
      else Some (l, 1%nat)
  end.

Definition shortest_paths_rounds (fuel : nat)
    (irank imin_ imax_ jmin_ jmax_ n : Z) (l : list Z)
  : option (list Z * nat) :=
  l ← init_dist imin_ jmin_ imax_ jmax_ n l;
  let lnew := l in
  '(l, rounds) ← sp_loop fuel irank imin_ jmin_ imax_ jmax_ n l lnew;
  Some (deinfinitize imin_ imax_ jmin_ jmax_ n l, rounds).

Definition shortest_paths (fuel : nat)
    (irank imin_ imax_ jmin_ jmax_ n : Z) (l : list Z) : option (list Z) :=
  fst <$> shortest_paths_rounds fuel irank imin_ imax_ jmin_ jmax_ n l.

(** *** Several processes

    Every process holds its own [l] and [lnew] and its tile.  A round runs
    [square] on every process, reduces the flags with MIN, and reduces the
    [lnew] buffers with MIN into the [l] of every process. *)

Record tile : Type :=
  Tile { t_imin : Z; t_imax : Z; t_jmin : Z; t_jmax : Z }.

Record proc : Type := Proc { p_rank : Z; p_tile : tile }.

Definition proc_square (n : Z) (p : proc) (st : list Z * list Z)
  : Z * list Z :=
  let t := p_tile p in
  square (p_rank p) (t_imin t) (t_jmin t) (t_imax t) (t_jmax t) n st.1 st.2.

Fixpoint mpi_loop (fuel : nat) (n : Z) (procs : list proc)
    (st : list (list Z * list Z)) : option (list (list Z) * nat) :=
  match fuel with
  | O => None
  | S fuel' =>
      let outs := zip_with (proc_square n) procs st in
      let done := allreduce_int Z.min (outs.*1) in
      let l := allreduce Z.min (outs.*2) in
      let st := (fun o : Z * list Z => (l, o.2)) <$> outs in
      if done =? 0 then
        '(ls, rounds) ← mpi_loop fuel' n procs st;
        Some (ls, S rounds)
      else Some (st.*1, 1%nat)
  end.

Definition proc_init (n : Z) (p : proc) (l : list Z) : option (list Z) :=
  let t := p_tile p in
  init_dist (t_imin t) (t_jmin t) (t_imax t) (t_jmax t) n l.

Definition proc_deinfinitize (n : Z) (p : proc) (l : list Z) : list Z :=
  let t := p_tile p in
  deinfinitize (t_imin t) (t_imax t) (t_jmin t) (t_jmax t) n l.

(* [ls] holds the matrix [l] of each process on entry; the result holds the
   matrix [l] of each process on return. *)
Definition shortest_paths_mpi (fuel : nat) (n : Z) (procs : list proc)
    (ls : list (list Z)) : option (list (list Z)) :=
  ls ← mapM id (zip_with (proc_init n) procs ls);
  let lnew := allreduce Z.max ls in
  '(ls, _) ← mpi_loop fuel n procs ((fun l => (l, lnew)) <$> ls);
  Some (zip_with (proc_deinfinitize n) procs ls).

(** ** [gen_graph] (lines 140-151)

    The Mersenne twister of mt19937p.c is not part of the sources at hand;
    the generator and the comparison of doubles are parameters. *)

Section GenGraph.

Variable double : Type.
Variable dlt : double -> double -> bool.          (* a < b on doubles *)
Variable mt19937p : Type.                         (* struct mt19937p *)
Variable sgenrand : Z -> mt19937p.                (* sgenrand(seed, &state) *)
Variable genrand : mt19937p -> double * mt19937p. (* genrand(&state) *)

Definition gen_graph_i (n : Z) (p : double) (j i : Z)
    (st : mt19937p * list Z) : mt19937p * list Z :=
  let '(state, l) := st in
  let '(x, state) := genrand state in
  (state, aset l (j *i n +i i) (if dlt x p then 1 else 0)).

Definition gen_graph_j (n : Z) (p : double) (j : Z)
    (st : mt19937p * list Z) : mt19937p * list Z :=
  let '(state, l) := for_range 0 n (gen_graph_i n p j) st in
  (state, aset l (j *i n +i j) 0).

Definition gen_graph (n : Z) (p : double) : list Z :=
  let l := replicate (Z.to_nat (n *i n)) 0 in
  let state := sgenrand 10302011 in
  (for_range 0 n (gen_graph_j n p) (state, l)).2.

End GenGraph.

Arguments gen_graph_i {double} dlt {mt19937p} genrand n p j i st.
Arguments gen_graph_j {double} dlt {mt19937p} genrand n p j st.
Arguments gen_graph {double} dlt {mt19937p} sgenrand genrand n p.

(** ** [fletcher16] (lines 170-179) *)

Definition fletcher16_step (data : list Z) (index : Z) (st : Z * Z) : Z * Z :=
  let '(sum1, sum2) := st in
  let sum1 := CInt.rem (sum1 +i aget data index) 255 in
  let sum2 := CInt.rem (sum2 +i sum1) 255 in
  (sum1, sum2).

Definition fletcher16 (data : list Z) (count : Z) : Z :=
  let '(sum1, sum2) := for_range 0 count (fletcher16_step data) (0, 0) in
  Z.lor (CInt.wrap (Z.shiftl sum2 8)) sum1.

(** ** [main] (lines 210-350): domain decomposition *)

Definition iroot : Z := 0.

(* Lines 275-329.  [coord0], [coord1] are the coordinates MPI_Cart_coords
   returns for the process.  [floor(nx/npx)] is the integer quotient: the
   division is done on ints, and [floor] of the converted value gives the
   same integer back. *)
Definition main_tile (n npx npy coord0 coord1 : Z) : tile :=
  let iproc := coord0 in
  let jproc := coord1 in
  let iproc := iproc +i 1 in
  let jproc := jproc +i 1 in
  let nx := n in
  let ny := n in
  let imin := 0 in
  let jmin := 0 in
  (* Organize x *)
  let q := CInt.quot nx npx in
  let r := CInt.rem nx npx in
  let '(nx_, imin_) :=
    if iproc <=? r then (q +i 1, imin +i (iproc -i 1) *i (q +i 1))
    else (q, imin +i r *i (q +i 1) +i (iproc -i r -i 1) *i q) in
  let imax_ := imin_ +i nx_ in
  (* Organize y *)
  let q := CInt.quot ny npy in
  let r := CInt.rem ny npy in
  let '(ny_, jmin_) :=
    if jproc <=? r then (q +i 1, jmin +i (jproc -i 1) *i (q +i 1))
    else (q, jmin +i r *i (q +i 1) +i (jproc -i r -i 1) *i q) in
  let jmax_ := jmin_ +i ny_ in
  Tile imin_ imax_ jmin_ jmax_.

(* MPI_Cart_coords on a [npx] x [npy] grid: ranks are laid out row by row. *)
Definition cart_coords (npy rank : Z) : Z * Z := (rank / npy, rank mod npy).

(* The processes of a run on a [npx] x [npy] grid, each with the rank and
   the tile [main] passes to [shortest_paths]. *)
Definition grid_procs (n npx npy : Z) : list proc :=
  (fun rank : nat =>
     let '(coord0, coord1) := cart_coords npy (Z.of_nat rank) in
     Proc (Z.of_nat rank +i 1) (main_tile n npx npy coord0 coord1))
  <$> seq 0 (Z.to_nat (npx * npy)).

(** ** [write_matrix] (lines 181-194)

    [fopen_ok] tells whether [fopen] succeeds.  The file is opened with
    "w+", so its content after [fclose] is what the calls of [fprintf]
    wrote; [%d] prints an int in decimal, which is [pretty] on [Z]. *)

Definition nl : string := String "010"%char "".

Inductive wm_result : Type :=
  (* message on stderr, then exit(status) *)
  | WmExit (err : string) (status : Z)
  (* the content of the file *)
  | WmWritten (content : string).

Definition write_matrix_j (n : Z) (a : list Z) (i j : Z) (out : string)
  : string :=
  out +:+ pretty (aget a (j *i n +i i)) +:+ " ".

Definition write_matrix_i (n : Z) (a : list Z) (i : Z) (out : string)
  : string :=
  for_range 0 n (write_matrix_j n a i) out +:+ nl.

Definition write_matrix (fopen_ok : bool) (fname : string) (n : Z)
    (a : list Z) : wm_result :=
  if fopen_ok then WmWritten (for_range 0 n (write_matrix_i n a) "")
  else WmExit ("Could not open output file: " +:+ fname +:+ nl) (-1).

(** ** [main] from the graph to the call of [shortest_paths] (lines 238-332)

    What one process does between [gen_graph] and its call of
    [shortest_paths], as the sequence of its steps.  The inputs are what
    the environment gives the process: [l] is the matrix [gen_graph]
    returned, [ifname] the file name of [-i] if any, [fopen_ok] whether
    [fopen] succeeds, [npx] and [npy] the values of [-x] and [-y] (without
    them [main] reads variables it never set, which is outside this
    model), [world_size] and [irank] the results of MPI_Comm_size and
    MPI_Comm_rank, and [cart] the coordinates MPI_Cart_coords returns, or
    [None] when the collective MPI_Cart_create does not return to the
    process.  [omp_get_wtime] (line 243) only reads the clock and is left
    out.  The sequence stops at the call of [shortest_paths]: what follows
    depends on the other processes. *)

Inductive event : Type :=
  | EvGenGraph (n : Z)
  (* write_matrix wrote [content] to the file [fname] *)
  | EvWriteFile (fname content : string)
  (* a message on stderr *)
  | EvStderr (msg : string)
  | EvMpiInit
  (* printf("ERROR:  %d procs requested while only %d procs available \n") *)
  | EvPrintError (requested available : Z)
  | EvExit (status : Z)
  | EvCartCreate (npx npy : Z)
  | EvPartition (t : tile)
  | EvShortestPaths (irank : Z) (t : tile) (n : Z).

(* Lines 252-332: from MPI_Init on. *)
Definition main_mpi (n npx npy world_size irank : Z) (cart : option (Z * Z))
  : list event :=
  EvMpiInit ::
  if negb (npx *i npy =? world_size) && (irank =? iroot) then
    [EvPrintError (npx *i npy) world_size; EvExit (-1)]
  else
    EvCartCreate npx npy ::
    match cart with
    | None => []
    | Some (coord0, coord1) =>
        let t := main_tile n npx npy coord0 coord1 in
        let irank := irank +i 1 in
        [EvPartition t; EvShortestPaths irank t n]
    end.

(* Lines 239-241 and then [main_mpi]. *)
Definition main_trace (n : Z) (l : list Z) (ifname : option string)
    (fopen_ok : bool) (npx npy world_size irank : Z) (cart : option (Z * Z))
  : list event :=
  EvGenGraph n ::
  match ifname with
  | None => main_mpi n npx npy world_size irank cart
  | Some fname =>
      match write_matrix fopen_ok fname n l with
      | WmExit err status => [EvStderr err; EvExit status]
      | WmWritten content =>
          EvWriteFile fname content ::
          main_mpi n npx npy world_size irank cart
      end
  end.

(** ** Option processing of [main] (lines 212-236)

    [opts] is the sequence of the results of [getopt]: the option
    character and [optarg].  [atoi] and [atof] are those of the C library;
    [npx] and [npy] have no initial value, which is [None]. *)

Section Options.

Variable double : Type.
Variable atoi : string -> Z.
Variable atof : string -> double.
Variable p_default : double.            (* 0.05 *)

Record config : Type := Config {
  c_n : Z;
  c_p : double;
  c_ifname : option string;
  c_ofname : option string;
  c_npx : option Z;
  c_npy : option Z
}.

Inductive opts_result : Type :=
  (* the usage text on stderr, then return status *)
  | OptUsage (status : Z)
  | OptConfig (cfg : config).

Fixpoint process_options (opts : list (ascii * string)) (cfg : config)
  : opts_result :=
  match opts with
  | [] => OptConfig cfg
  | (c, optarg) :: opts =>
      if decide (c = "h"%char) then OptUsage (-1)
      else if decide (c = "n"%char) then
        process_options opts
          (Config (atoi optarg) (c_p cfg) (c_ifname cfg) (c_ofname cfg)
                  (c_npx cfg) (c_npy cfg))
      else if decide (c = "p"%char) then
        process_options opts
          (Config (c_n cfg) (atof optarg) (c_ifname cfg) (c_ofname cfg)
                  (c_npx cfg) (c_npy cfg))
      else if decide (c = "o"%char) then
        process_options opts
          (Config (c_n cfg) (c_p cfg) (c_ifname cfg) (Some optarg)
                  (c_npx cfg) (c_npy cfg))
      else if decide (c = "i"%char) then
        process_options opts
          (Config (c_n cfg) (c_p cfg) (Some optarg) (c_ofname cfg)
                  (c_npx cfg) (c_npy cfg))
      else if decide (c = "x"%char) then
        process_options opts
          (Config (c_n cfg) (c_p cfg) (c_ifname cfg) (c_ofname cfg)
                  (Some (atoi optarg)) (c_npy cfg))
      else if decide (c = "y"%char) then
        process_options opts
          (Config (c_n cfg) (c_p cfg) (c_ifname cfg) (c_ofname cfg)
                  (c_npx cfg) (Some (atoi optarg)))
      else process_options opts cfg
  end.

Definition main_options (opts : list (ascii * string)) : opts_result :=
  process_options opts (Config 200 p_default None None None None).

End Options.

Arguments Config {double} c_n c_p c_ifname c_ofname c_npx c_npy.
Arguments c_n {double} c.
Arguments c_p {double} c.
Arguments c_ifname {double} c.
Arguments c_ofname {double} c.
Arguments c_npx {double} c.
Arguments c_npy {double} c.
Arguments OptUsage {double} status.
Arguments OptConfig {double} cfg.
Arguments process_options {double} atoi atof opts cfg.
Arguments main_options {double} atoi atof p_default opts.

(** * Vocabulary of the specification *)

(** ** Matrices

    Entry (i,j) of an n-by-n matrix is stored at [l[j*n+i]]. *)

Definition entry (n : Z) (l : list Z) (i j : Z) : Z := aget l (j * n + i).

Definition valid_tile (n imin_ imax_ jmin_ jmax_ : Z) : Prop :=
  (0 <= imin_ /\ imin_ <= imax_ /\ imax_ <= n) /\
  (0 <= jmin_ /\ jmin_ <= jmax_ /\ jmax_ <= n).

Definition in_tile (imin_ imax_ jmin_ jmax_ i j : Z) : Prop :=
  imin_ <= i < imax_ /\ jmin_ <= j < jmax_.

Definition valid_tile_of (n : Z) (t : tile) : Prop :=
  valid_tile n (t_imin t) (t_imax t) (t_jmin t) (t_jmax t).

Definition in_tile_of (t : tile) (i j : Z) : Prop :=
  in_tile (t_imin t) (t_imax t) (t_jmin t) (t_jmax t) i j.

(** ** The min-plus step *)

(* The candidate through k: l[k*n+i] + l[j*n+k], an int sum. *)
Definition cand (n : Z) (l : list Z) (i j k : Z) : Z :=
  entry n l i k +i entry n l k j.

Definition zmin_list (xs : list Z) : Z :=
  match xs with
  | [] => 0
  | x :: xs => foldl Z.min x xs
  end.

(* min over k in [0,n) of cand k *)
Definition minplus (n : Z) (l : list Z) (i j : Z) : Z :=
  zmin_list (cand n l i j <$> seqZ 0 n).

Definition newval (n : Z) (l lnew : list Z) (i j : Z) : Z :=
  Z.min (entry n lnew i j) (minplus n l i j).

Definition improved (n : Z) (l lnew : list Z) (i j : Z) : bool :=
  minplus n l i j <? entry n lnew i j.

(** The effect of [square] on a set of cells: the cells of the set hold
    the new value, the others are untouched, and the flag is cleared iff a
    cell of the set improved. *)
Definition sq_post (n : Z) (l lnew0 : list Z) (A : Z -> Z -> Prop) (done0 : Z)
    (res : Z * list Z) : Prop :=
  len res.2 = len lnew0 /\
  (forall i j, 0 <= i < n -> 0 <= j < n -> A i j ->
     entry n res.2 i j = newval n l lnew0 i j) /\
  (forall i j, 0 <= i < n -> 0 <= j < n -> ~ A i j ->
     entry n res.2 i j = entry n lnew0 i j) /\
  ((res.1 = done0 /\
    forall i j, 0 <= i < n -> 0 <= j < n -> A i j ->
      improved n l lnew0 i j = false) \/
   (res.1 = 0 /\
    exists i j, (0 <= i < n /\ 0 <= j < n) /\ A i j /\
      improved n l lnew0 i j = true)).

(** ** Domain decomposition *)

(* The number of indices the first [ip] processes of an axis own together:
   q each, and one more for each of the first r. *)
Definition axis_upto (n g ip : Z) : Z := ip * (n / g) + Z.min ip (n mod g).

(** ** Start-up check *)


Definition is_diagnostic (requested available : Z) (e : event) : bool :=
  match e with
  | EvPrintError r a => (r =? requested) && (a =? available)
  | _ => false
  end.

Definition is_failure_exit (e : event) : bool :=
  match e with
  | EvExit status => negb (status =? 0)
  | _ => false
  end.


(** ** Graph generation *)

(* The k-th number the generator yields after [sgenrand seed]. *)
Definition mt_draw {double mt19937p : Type} (sgenrand : Z -> mt19937p)
    (genrand : mt19937p -> double * mt19937p) (seed : Z) (k : nat) : double :=
  (genrand (Nat.iter k (fun s => (genrand s).2) (sgenrand seed))).1.

(** ** Graphs and distances

    The input of [shortest_paths] is the adjacency matrix of a directed
    graph on the nodes 0..n-1: entry (i,j) is 1 when there is an edge from i
    to j and 0 when there is none, and the diagonal is 0. *)

Definition adjacency (n : Z) (a : list Z) : bool :=
  (len a =? n * n) &&
  forallb (fun j =>
    forallb (fun i =>
      let v := entry n a i j in
      if i =? j then v =? 0 else (v =? 0) || (v =? 1))
      (seqZ 0 n))
    (seqZ 0 n).

Definition edge (n : Z) (a : list Z) (i j : Z) : Prop :=
  0 <= i < n /\ 0 <= j < n /\ entry n a i j = 1.

(* [walk n a i j len]: there is a directed path of [len] edges from i to j
   (it may visit a node more than once; a shortest one does not). *)
Inductive walk (n : Z) (a : list Z) : Z -> Z -> nat -> Prop :=
  | walk_nil i : 0 <= i < n -> walk n a i i 0
  | walk_cons i k j len :
      edge n a i k -> walk n a k j len -> walk n a i j (S len).

Definition reachable (n : Z) (a : list Z) (i j : Z) : Prop :=
  exists len, walk n a i j len.

(* [d] is the minimum number of edges on a directed path from i to j. *)
Definition distance (n : Z) (a : list Z) (i j : Z) (d : Z) : Prop :=
  exists len, d = Z.of_nat len /\ walk n a i j len /\
    forall len', walk n a i j len' -> (len <= len')%nat.

(** A walk as the list of the nodes it reaches. *)
Inductive vwalk (n : Z) (a : list Z) : Z -> list Z -> Z -> Prop :=
  | vwalk_nil i : 0 <= i < n -> vwalk n a i [] i
  | vwalk_cons i k vs j :
      edge n a i k -> vwalk n a k vs j -> vwalk n a i (k :: vs) j.

(** What the matrix holds after s rounds: every entry is a bound within
    [0, n+1]; an entry other than n+1 is the length of a path; and every
    path of at most 2^s edges is accounted for. *)
Definition dist_inv (n : Z) (a : list Z) (s : nat) (l : list Z) : Prop :=
  len l = n * n /\
  (forall i j, 0 <= i < n -> 0 <= j < n -> 0 <= entry n l i j <= n + 1) /\
  (forall i j, 0 <= i < n -> 0 <= j < n -> entry n l i j <> n + 1 ->
     walk n a i j (Z.to_nat (entry n l i j))) /\
  (forall i j len, walk n a i j len -> (len <= 2 ^ s)%nat ->
     entry n l i j <= Z.of_nat len).

(** The matrix the loop ends with. *)
Definition exact_dist (n : Z) (a l : list Z) : Prop :=
  len l = n * n /\
  forall i j, 0 <= i < n -> 0 <= j < n ->
    (reachable n a i j -> distance n a i j (entry n l i j) /\
                          entry n l i j <= n - 1) /\
    (~ reachable n a i j -> entry n l i j = n + 1).

(* The chain 0 -> 1 -> 2 -> 3 on four nodes. *)
Definition chain4 : list Z :=
  [0; 0; 0; 0;  1; 0; 0; 0;  0; 1; 0; 0;  0; 0; 1; 0].

(** ** Relating the processes of a run to the one-process run *)

(** The buffers of process [p], when [l] is the matrix of the one-process
    run at the same round: its [l] is that matrix, and its [lnew] agrees
    with it on the tile of [p] and still holds l0 elsewhere. *)
Definition proc_rel (n : Z) (l0 l : list Z) (p : proc)
    (s : list Z * list Z) : Prop :=
  valid_tile_of n (p_tile p) /\
  s.1 = l /\ len s.2 = n * n /\
  forall i j, 0 <= i < n -> 0 <= j < n ->
    (in_tile_of (p_tile p) i j -> entry n s.2 i j = entry n l i j) /\
    (~ in_tile_of (p_tile p) i j -> entry n s.2 i j = entry n l0 i j).

Definition below (n : Z) (l0 l : list Z) : Prop :=
  len l = n * n /\
  forall i j, 0 <= i < n -> 0 <= j < n -> entry n l i j <= entry n l0 i j.

(* What process [p] has after its call of [square], [l'] being the matrix
   the one-process round produces from [l]. *)
Definition out_ok (n : Z) (l0 l l' : list Z) (p : proc)
    (o : Z * list Z) : Prop :=
  valid_tile_of n (p_tile p) /\
  len o.2 = n * n /\
  (forall i j, 0 <= i < n -> 0 <= j < n ->
     (in_tile_of (p_tile p) i j -> entry n o.2 i j = entry n l' i j) /\
     (~ in_tile_of (p_tile p) i j -> entry n o.2 i j = entry n l0 i j)) /\
  ((o.1 = 1 /\
    forall i j, 0 <= i < n -> 0 <= j < n -> in_tile_of (p_tile p) i j ->
      entry n l i j <= minplus n l i j) \/
   (o.1 = 0 /\
    exists i j, (0 <= i < n /\ 0 <= j < n) /\ in_tile_of (p_tile p) i j /\
      minplus n l i j < entry n l i j)).

(** ** Rounds of the loop *)

(* The matrix after [s] rounds of [square] on the whole matrix, [lnew]
   being a copy of [l] at the start of each round. *)
Definition after_rounds (irank n : Z) (s : nat) (l : list Z) : list Z :=
  Nat.iter s (fun l => (square irank 0 0 n n n l l).2) l.

(** ** Checksums *)

(* data[0] + ... + data[k-1] *)
Fixpoint prefix_sum (data : list Z) (k : nat) : Z :=
  match k with
  | O => 0
  | S k' => prefix_sum data k' + aget data (Z.of_nat k')
  end.

(* The sum of the first k prefix sums:
   k * data[0] + (k-1) * data[1] + ... + 1 * data[k-1]. *)
Fixpoint prefix_sum2 (data : list Z) (k : nat) : Z :=
  match k with
  | O => 0
  | S k' => prefix_sum2 data k' + prefix_sum data (S k')
  end.

(** ** The text of a matrix *)

(* Entries (i,j), (i,j+1), ... of row i, [c] of them, each followed by a
   blank. *)
Fixpoint row_text (n : Z) (a : list Z) (i : Z) (c : nat) (j : Z) : string :=
  match c with
  | O => ""
  | S c' => pretty (entry n a i j) +:+ " " +:+ row_text n a i c' (j + 1)
  end.

(* Rows i, i+1, ..., [c] of them, each followed by a newline. *)
Fixpoint rows_text (n : Z) (a : list Z) (c : nat) (i : Z) : string :=
  match c with
  | O => ""
  | S c' => row_text n a i (Z.to_nat n) 0 +:+ nl +:+ rows_text n a c' (i + 1)
  end.

Fixpoint no_space (s : string) : bool :=
  match s with
  | EmptyString => true
  | String c s' => negb (Ascii.is_space c) && no_space s'
  end.

(** ** Options *)

(* The argument of the last occurrence of option [c]. *)
Fixpoint last_arg (c : ascii) (opts : list (ascii * string)) : option string :=
  match opts with
  | [] => None
  | (c', arg) :: opts =>
      match last_arg c opts with
      | Some arg' => Some arg'
      | None => if decide (c' = c) then Some arg else None
      end
  end.

Definition known_option (c : ascii) : Prop :=
  c = "h"%char \/ c = "n"%char \/ c = "p"%char \/ c = "o"%char \/
  c = "i"%char \/ c = "x"%char \/ c = "y"%char.

(** * Properties *)

(** ** Arithmetic without overflow *)

Section CIntFacts.
Import CInt.

Lemma wrap_small z : in_range z -> wrap z = z.
Proof.
  unfold in_range, int_min, int_max, wrap. intros H.
  rewrite Z.mod_small; lia.
Qed.

Lemma wrap_range z : in_range (wrap z).
Proof.
  unfold in_range, int_min, int_max, wrap.
  pose proof (Z.mod_pos_bound (z + 2147483648) 4294967296). lia.
Qed.

Lemma add_small a b : in_range (a + b) -> a +i b = a + b.
Proof. apply wrap_small. Qed.

Lemma sub_small a b : in_range (a - b) -> a -i b = a - b.
Proof. apply wrap_small. Qed.

Lemma mul_small a b : in_range (a * b) -> a *i b = a * b.
Proof. apply wrap_small. Qed.

Lemma quot_nonneg a b : 0 <= a <= int_max -> 0 < b -> quot a b = a / b.
Proof.
  intros Ha Hb. unfold quot. rewrite Z.quot_div_nonneg by lia.
  apply wrap_small. unfold in_range, int_min, int_max in *.
  pose proof (Z.div_pos a b ltac:(lia) Hb).
  pose proof (Z.div_le_upper_bound a b a Hb ltac:(nia)). lia.
Qed.

Lemma rem_nonneg a b : 0 <= a <= int_max -> 0 < b -> rem a b = a mod b.
Proof.
  intros Ha Hb. unfold rem. rewrite Z.rem_mod_nonneg by lia.
  apply wrap_small. unfold in_range, int_min, int_max in *.
  pose proof (Z.mod_pos_bound a b Hb). pose proof (Z.mod_le a b). lia.
Qed.

(* The index of cell (i,j) of an n-by-n matrix that an int can address. *)
Lemma cell_index n i j :
  n * n <= int_max -> 0 <= i < n -> 0 <= j < n ->
  j *i n +i i = j * n + i /\ 0 <= j * n + i < n * n.
Proof.
  intros Hn Hi Hj. unfold int_max in Hn.
  assert (0 <= j * n <= (n - 1) * n) by nia.
  rewrite mul_small by (unfold in_range, int_min, int_max; nia).
  rewrite add_small by (unfold in_range, int_min, int_max; nia).
  nia.
Qed.

Lemma dim_bound n : 1 <= n -> n * n <= int_max -> n <= 46340.
Proof. unfold int_max. nia. Qed.

End CIntFacts.

(* Side conditions "this value fits an int". *)
Ltac int_range :=
  unfold CInt.in_range, CInt.int_min, CInt.int_max in *; first [lia | nia].

(** ** Buffers *)

Lemma len_nonneg l : 0 <= len l.
Proof. unfold len. lia. Qed.

Lemma len_aset l i v : len (aset l i v) = len l.
Proof.
  unfold aset, len. destruct (i <? 0); [done|]. by rewrite length_insert.
Qed.

Create Rewrite HintDb buf.
#[global] Hint Rewrite len_aset : buf.

Lemma aget_aset_eq l i v : 0 <= i < len l -> aget (aset l i v) i = v.
Proof.
  unfold aget, aset, len. intros H.
  destruct (Z.ltb_spec i 0); [lia|].
  rewrite list_lookup_insert_eq by lia. done.
Qed.

Lemma aget_aset_ne l i j v : i <> j -> aget (aset l i v) j = aget l j.
Proof.
  unfold aget, aset. intros H.
  destruct (Z.ltb_spec j 0); [done|].
  destruct (Z.ltb_spec i 0); [done|].
  rewrite list_lookup_insert_ne by lia. done.
Qed.

Lemma aget_ext l1 l2 :
  len l1 = len l2 ->
  (forall i, 0 <= i < len l1 -> aget l1 i = aget l2 i) ->
  l1 = l2.
Proof.
  unfold len. intros Hlen H. apply list_eq_same_length with (length l1); [lia|lia|].
  intros i x y Hi Hx Hy.
  specialize (H (Z.of_nat i) ltac:(lia)). unfold aget in H.
  destruct (Z.ltb_spec (Z.of_nat i) 0); [lia|].
  rewrite Nat2Z.id, Hx, Hy in H. done.
Qed.

(** ** Loops *)

Lemma for_count_inv {St} (P : Z -> St -> Prop) body c : forall lo s,
  P lo s ->
  (forall i s, lo <= i < lo + Z.of_nat c -> P i s -> P (i + 1) (body i s)) ->
  P (lo + Z.of_nat c) (for_count c lo body s).
Proof.
  induction c as [|c IH]; intros lo s H0 Hstep; simpl.
  - by rewrite Z.add_0_r.
  - replace (lo + Z.of_nat (S c)) with ((lo + 1) + Z.of_nat c) by lia.
    apply IH.
    + apply Hstep; [lia|done].
    + intros i s' Hi. apply Hstep. lia.
Qed.

Lemma for_range_inv {St} (P : Z -> St -> Prop) lo hi body (s : St) :
  lo <= hi ->
  P lo s ->
  (forall i s, lo <= i < hi -> P i s -> P (i + 1) (body i s)) ->
  P hi (for_range lo hi body s).
Proof.
  intros Hle H0 Hstep. unfold for_range.
  replace hi with (lo + Z.of_nat (Z.to_nat (hi - lo))) at 1 by lia.
  apply for_count_inv; [done|].
  intros i s' Hi. apply Hstep. lia.
Qed.

Lemma for_range_empty {St} lo hi body (s : St) :
  hi <= lo -> for_range lo hi body s = s.
Proof.
  intros H. unfold for_range. replace (Z.to_nat (hi - lo)) with O by lia. done.
Qed.

Lemma for_count_ext {St} (f g : Z -> St -> St) c : forall lo s,
  (forall i s, lo <= i < lo + Z.of_nat c -> f i s = g i s) ->
  for_count c lo f s = for_count c lo g s.
Proof.
  induction c as [|c IH]; intros lo s H; simpl; [done|].
  rewrite H by lia. apply IH. intros i s' Hi. apply H. lia.
Qed.

Lemma for_range_ext {St} (f g : Z -> St -> St) lo hi (s : St) :
  (forall i s, lo <= i < hi -> f i s = g i s) ->
  for_range lo hi f s = for_range lo hi g s.
Proof.
  intros H. unfold for_range. apply for_count_ext.
  intros i s' Hi. apply H. lia.
Qed.

(** ** The kernel *)

Section Square.
Import CInt.

Lemma foldl_min_le xs : forall a,
  foldl Z.min a xs <= a /\ forall x, x ∈ xs -> foldl Z.min a xs <= x.
Proof.
  induction xs as [|y xs IH]; intros a; simpl.
  - split; [lia|]. intros x Hx. by apply elem_of_nil in Hx.
  - destruct (IH (Z.min a y)) as [H1 H2]. split; [lia|].
    intros x Hx. apply elem_of_cons in Hx as [->|Hx]; [lia|by apply H2].
Qed.

Lemma foldl_min_in xs : forall a,
  foldl Z.min a xs = a \/ foldl Z.min a xs ∈ xs.
Proof.
  induction xs as [|y xs IH]; intros a; simpl; [by left|].
  destruct (IH (Z.min a y)) as [H|H].
  - rewrite H. destruct (Z.min_spec a y) as [[_ ->]|[_ ->]]; [by left|].
    right. apply elem_of_cons. by left.
  - right. apply elem_of_cons. by right.
Qed.

Lemma zmin_list_le xs x : x ∈ xs -> zmin_list xs <= x.
Proof.
  destruct xs as [|y xs]; simpl; intros Hx; [by apply elem_of_nil in Hx|].
  destruct (foldl_min_le xs y) as [H1 H2].
  apply elem_of_cons in Hx as [->|Hx]; [done|by apply H2].
Qed.

Lemma zmin_list_in xs : xs <> [] -> zmin_list xs ∈ xs.
Proof.
  destruct xs as [|y xs]; [done|]. intros _. simpl.
  destruct (foldl_min_in xs y) as [->|H]; apply elem_of_cons; auto.
Qed.

Lemma minplus_le n l i j k :
  0 <= k < n -> minplus n l i j <= cand n l i j k.
Proof.
  intros Hk. apply zmin_list_le. apply list_elem_of_fmap.
  exists k. split; [done|]. apply elem_of_seqZ. lia.
Qed.

Lemma minplus_attained n l i j :
  1 <= n -> exists k, 0 <= k < n /\ minplus n l i j = cand n l i j k.
Proof.
  intros Hn. unfold minplus.
  assert (Hne : cand n l i j <$> seqZ 0 n <> []).
  { intros H. apply (f_equal length) in H.
    rewrite length_fmap, length_seqZ in H. simpl in H. lia. }
  apply zmin_list_in in Hne. apply list_elem_of_fmap in Hne as (k & Hk & Hin).
  apply elem_of_seqZ in Hin. exists k. split; [lia|done].
Qed.

Variable n : Z.
Hypothesis Hn : 1 <= n.
Hypothesis Hnn : n * n <= int_max.

Lemma cell_inj i j i' j' :
  0 <= i < n -> 0 <= i' < n -> j * n + i = j' * n + i' -> i = i' /\ j = j'.
Proof.
  intros Hi Hi' H.
  assert (j = j') as -> by (destruct (Z.lt_trichotomy j j') as [?|[?|?]]; [|done|]; nia).
  split; [lia|done].
Qed.

(* The k loop computes the minimum of lij and of all candidates. *)
Lemma square_k_loop l i j lij done :
  0 <= i < n -> 0 <= j < n ->
  for_range 0 n (square_k n l (j *i n) i) (lij, done) =
  (Z.min lij (minplus n l i j),
   if minplus n l i j <? lij then 0 else done).
Proof.
  intros Hi Hj.
  pose (P := fun (k : Z) (st : Z * Z) =>
    st.1 <= lij /\
    (forall k', 0 <= k' < k -> st.1 <= cand n l i j k') /\
    (st.1 = lij \/ exists k', 0 <= k' < k /\ st.1 = cand n l i j k') /\
    st.2 = if st.1 <? lij then 0 else done).
  assert (HP : P n (for_range 0 n (square_k n l (j *i n) i) (lij, done))).
  { apply for_range_inv; [lia| |].
    - unfold P; simpl. rewrite Z.ltb_irrefl. repeat split; auto; [lia|].
      intros; lia.
    - intros k [v d] Hk (H1 & H2 & H3 & H4); simpl in *.
      unfold square_k.
      destruct (cell_index n k j Hnn ltac:(lia) Hj) as [-> _].
      destruct (cell_index n i k Hnn Hi ltac:(lia)) as [-> _].
      change (aget l (k * n + i) +i aget l (j * n + k)) with (cand n l i j k).
      destruct (Z.ltb_spec (cand n l i j k) v) as [Hlt|Hge]; unfold P; simpl.
      + repeat split.
        * lia.
        * intros k' Hk'. destruct (decide (k' = k)) as [->|]; [lia|].
          specialize (H2 k' ltac:(lia)). lia.
        * right. exists k. split; [lia|done].
        * destruct (Z.ltb_spec (cand n l i j k) lij); [done|lia].
      + repeat split; auto.
        * intros k' Hk'. destruct (decide (k' = k)) as [->|]; [lia|].
          apply H2. lia.
        * destruct H3 as [H3|(k' & Hk' & H3)]; [by left|].
          right. exists k'. split; [lia|done]. }
  destruct (for_range 0 n _ _) as [v d]. destruct HP as (H1 & H2 & H3 & H4).
  simpl in *.
  destruct (minplus_attained n l i j Hn) as (k0 & Hk0 & Hmin).
  assert (Hv : v = Z.min lij (minplus n l i j)).
  { pose proof (H2 k0 Hk0).
    destruct H3 as [->|(k' & Hk' & ->)].
    - lia.
    - pose proof (minplus_le n l i j k' Hk'). lia. }
  f_equal; [done|]. rewrite H4, Hv.
  destruct (Z.ltb_spec (minplus n l i j) lij);
    destruct (Z.ltb_spec (Z.min lij (minplus n l i j)) lij); lia || done.
Qed.

(* One cell: what the body of the i loop does to (done, lnew). *)
Lemma square_i_spec l lnew i j done :
  0 <= i < n -> 0 <= j < n -> len lnew = n * n ->
  square_i n l j (j *i n) i (done, lnew) =
  (if improved n l lnew i j then 0 else done,
   aset lnew (j * n + i) (newval n l lnew i j)).
Proof.
  intros Hi Hj Hlen. unfold square_i.
  destruct (cell_index n i j Hnn Hi Hj) as [Hidx _].
  rewrite square_k_loop by done. rewrite Hidx. done.
Qed.

Lemma sq_post_ext l lnew0 (A B : Z -> Z -> Prop) done0 res :
  (forall i j, A i j <-> B i j) ->
  sq_post n l lnew0 A done0 res -> sq_post n l lnew0 B done0 res.
Proof.
  intros HAB (H1 & H2 & H3 & H4). split; [done|]. split; [|split].
  - intros i j Hi Hj HB. apply H2; [done..|by apply HAB].
  - intros i j Hi Hj HB. apply H3; [done..|]. by rewrite HAB.
  - destruct H4 as [[Hd H4]|[Hd (i & j & Hij & HA & Himp)]].
    + left. split; [done|]. intros i j Hi Hj HB. apply H4; [done..|by apply HAB].
    + right. split; [done|]. exists i, j. split; [done|]. split; [by apply HAB|done].
Qed.

Lemma sq_post_step l lnew0 (A : Z -> Z -> Prop) done0 res i j :
  len lnew0 = n * n ->
  0 <= i < n -> 0 <= j < n -> ~ A i j ->
  sq_post n l lnew0 A done0 res ->
  sq_post n l lnew0 (fun i' j' => A i' j' \/ (i' = i /\ j' = j)) done0
    (square_i n l j (j *i n) i res).
Proof.
  intros Hlen Hi Hj HnA (H1 & H2 & H3 & H4). destruct res as [d lw].
  simpl in H1, H2, H3, H4.
  rewrite square_i_spec by (done || congruence).
  assert (He : entry n lw i j = entry n lnew0 i j) by (by apply H3).
  assert (Hnv : newval n l lw i j = newval n l lnew0 i j).
  { unfold newval. by rewrite He. }
  assert (Him : improved n l lw i j = improved n l lnew0 i j).
  { unfold improved. by rewrite He. }
  rewrite Hnv, Him.
  destruct (cell_index n i j Hnn Hi Hj) as [_ Hidx].
  split; [|split; [|split]]; simpl.
  - by autorewrite with buf.
  - intros i' j' Hi' Hj' [HA|[-> ->]].
    + unfold entry at 1. rewrite aget_aset_ne; [by apply H2|].
      intros Heq. apply cell_inj in Heq as [-> ->]; done.
    + unfold entry at 1. rewrite aget_aset_eq; [done|]. rewrite H1, Hlen. done.
  - intros i' j' Hi' Hj' HnB.
    unfold entry at 1. rewrite aget_aset_ne; [apply H3; tauto|].
    intros Heq. apply cell_inj in Heq as [-> ->]; [|done..]. tauto.
  - destruct H4 as [[-> H4]|[-> (i0 & j0 & Hij & HA & Himp)]].
    + destruct (improved n l lnew0 i j) eqn:Himp.
      * right. split; [done|]. exists i, j. tauto.
      * left. split; [done|]. intros i' j' Hi' Hj' [HA|[-> ->]]; auto.
    + right. split; [by destruct (improved n l lnew0 i j)|].
      exists i0, j0. tauto.
Qed.

Lemma sq_post_init l lnew0 done0 :
  sq_post n l lnew0 (fun _ _ => False) done0 (done0, lnew0).
Proof.
  split; [done|]. split; [tauto|]. split; [done|]. left. split; [done|tauto].
Qed.

(* One row of a tile. *)
Lemma square_j_post l lnew0 (A : Z -> Z -> Prop) done0 res imin_ imax_ j :
  len lnew0 = n * n ->
  0 <= imin_ -> imin_ <= imax_ -> imax_ <= n -> 0 <= j < n ->
  (forall i, ~ A i j) ->
  sq_post n l lnew0 A done0 res ->
  sq_post n l lnew0 (fun i' j' => A i' j' \/ (imin_ <= i' < imax_ /\ j' = j))
    done0 (square_j imin_ imax_ n l j res).
Proof.
  intros Hlen H0 H1 H2 Hj HA Hres. unfold square_j.
  apply (for_range_inv (fun i res =>
    sq_post n l lnew0 (fun i' j' => A i' j' \/ (imin_ <= i' < i /\ j' = j))
      done0 res)); [done| |].
  - eapply sq_post_ext; [|exact Hres]. intros i' j'. split; [tauto|].
    intros [?|[? _]]; [done|lia].
  - intros i res' Hi Hinv.
    eapply sq_post_ext; [|apply sq_post_step; [done| | | |exact Hinv]];
      [|lia|done|].
    + intros i' j'. simpl. split.
      * intros [[?|[? ->]]|[-> ->]]; [by left|right; split; [lia|done]..].
      * intros [?|[? ->]]; [by left; left|].
        destruct (decide (i' = i)) as [->|]; [by right|].
        left; right. split; [lia|done].
    + intros [HAi|[? _]]; [by apply (HA i)|lia].
Qed.

(** The effect of [square] on its tile. *)
Lemma square_post irank imin_ jmin_ imax_ jmax_ l lnew :
  len lnew = n * n ->
  valid_tile n imin_ imax_ jmin_ jmax_ ->
  sq_post n l lnew (in_tile imin_ imax_ jmin_ jmax_) 1
    (square irank imin_ jmin_ imax_ jmax_ n l lnew).
Proof.
  intros Hlen [(Hi0 & Hi1 & Hi2) (Hj0 & Hj1 & Hj2)]. unfold square.
  eapply sq_post_ext; [|apply (for_range_inv (fun j res =>
    sq_post n l lnew (fun i' j' => imin_ <= i' < imax_ /\ jmin_ <= j' < j)
      1 res)); [done| |]].
  - intros i j. unfold in_tile. reflexivity.
  - eapply sq_post_ext; [|apply sq_post_init]. intros i j. simpl. lia.
  - intros j res Hj Hinv.
    eapply sq_post_ext; [|apply square_j_post; [done|exact Hi0|exact Hi1|exact Hi2| | |exact Hinv]];
      [|lia|].
    + intros i' j'. simpl. lia.
    + intros i. simpl. lia.
Qed.

End Square.

(** ** Contract, frame and data dependence of [square] *)

(** C4 (contract of [square]).  For an n-by-n problem whose cells an int
    can index, valid tile bounds and matrices [l], [lnew]: after [square],
    every cell (i,j) of the tile holds
    min(lnew_before[j*n+i], min over k in [0,n) of (l[k*n+i] + l[j*n+k])),
    the sum being the int sum of the program (the plain sum whenever that
    fits an int); and the returned flag is 1 iff for every cell of the tile
    that minimum candidate is >= the value [lnew] had there (it is 0
    otherwise).  [minplus] is the least candidate and is one of them. *)
Theorem square_contract irank imin_ jmin_ imax_ jmax_ n l lnew :
  1 <= n -> n * n <= CInt.int_max ->
  len l = n * n -> len lnew = n * n ->
  valid_tile n imin_ imax_ jmin_ jmax_ ->
  (forall i j, in_tile imin_ imax_ jmin_ jmax_ i j ->
     entry n (square irank imin_ jmin_ imax_ jmax_ n l lnew).2 i j =
     Z.min (entry n lnew i j) (minplus n l i j)) /\
  ((square irank imin_ jmin_ imax_ jmax_ n l lnew).1 = 1 <->
   forall i j, in_tile imin_ imax_ jmin_ jmax_ i j ->
     entry n lnew i j <= minplus n l i j) /\
  ((square irank imin_ jmin_ imax_ jmax_ n l lnew).1 = 1 \/
   (square irank imin_ jmin_ imax_ jmax_ n l lnew).1 = 0) /\
  (forall i j,
     (forall k, 0 <= k < n -> minplus n l i j <= cand n l i j k) /\
     (exists k, 0 <= k < n /\ minplus n l i j = cand n l i j k)) /\
  (forall i j k, CInt.in_range (entry n l i k + entry n l k j) ->
     cand n l i j k = entry n l i k + entry n l k j).
Proof.
  intros Hn Hnn _ Hlen Hv.
  assert (Hmin : forall i j,
    (forall k, 0 <= k < n -> minplus n l i j <= cand n l i j k) /\
    (exists k, 0 <= k < n /\ minplus n l i j = cand n l i j k)).
  { intros i j. split; [apply minplus_le|by apply minplus_attained]. }
  assert (Hsum : forall i j k,
    CInt.in_range (entry n l i k + entry n l k j) ->
    cand n l i j k = entry n l i k + entry n l k j).
  { intros i j k. apply add_small. }
  cut ((forall i j, in_tile imin_ imax_ jmin_ jmax_ i j ->
          entry n (square irank imin_ jmin_ imax_ jmax_ n l lnew).2 i j =
          Z.min (entry n lnew i j) (minplus n l i j)) /\
       ((square irank imin_ jmin_ imax_ jmax_ n l lnew).1 = 1 <->
        forall i j, in_tile imin_ imax_ jmin_ jmax_ i j ->
          entry n lnew i j <= minplus n l i j) /\
       ((square irank imin_ jmin_ imax_ jmax_ n l lnew).1 = 1 \/
        (square irank imin_ jmin_ imax_ jmax_ n l lnew).1 = 0)).
  { tauto. }
  clear Hmin Hsum.
  destruct (square_post n Hn Hnn irank imin_ jmin_ imax_ jmax_ l lnew Hlen Hv)
    as (_ & Hin & _ & Hflag).
  assert (Hrange : forall i j, in_tile imin_ imax_ jmin_ jmax_ i j ->
            0 <= i < n /\ 0 <= j < n).
  { intros i j [? ?]. destruct Hv as [(? & ? & ?) (? & ? & ?)]. lia. }
  split; [|split].
  - intros i j Hij. destruct (Hrange i j Hij). by apply Hin.
  - destruct Hflag as [[Hd Hno]|[Hd (i & j & Hij & HA & Himp)]].
    + split; [|done]. intros _ i j Hij. destruct (Hrange i j Hij).
      specialize (Hno i j ltac:(done) ltac:(done) Hij).
      unfold improved in Hno. apply Z.ltb_ge in Hno. done.
    + split; [rewrite Hd; done|]. intros Hall. specialize (Hall i j HA).
      unfold improved in Himp. apply Z.ltb_lt in Himp. lia.
  - destruct Hflag as [[-> _]|[-> _]]; auto.
Qed.

Lemma square_contract_witness :
  1 <= 2 /\ 2 * 2 <= CInt.int_max /\
  len [0; 1; 3; 0] = 2 * 2 /\ len [0; 1; 3; 0] = 2 * 2 /\
  valid_tile 2 0 2 0 1 /\
  (forall i j, in_tile 0 2 0 1 i j ->
     entry 2 (square 1 0 0 2 1 2 [0; 1; 3; 0] [0; 1; 3; 0]).2 i j =
     Z.min (entry 2 [0; 1; 3; 0] i j) (minplus 2 [0; 1; 3; 0] i j)).
Proof.
  assert (H1 : 1 <= 2) by lia.
  assert (H2 : 2 * 2 <= CInt.int_max) by (vm_compute; discriminate).
  assert (H3 : len [0; 1; 3; 0] = 2 * 2) by reflexivity.
  assert (H4 : valid_tile 2 0 2 0 1) by (unfold valid_tile; lia).
  exact (conj H1 (conj H2 (conj H3 (conj H3 (conj H4
    (proj1 (square_contract 1 0 0 2 1 2 [0; 1; 3; 0] [0; 1; 3; 0]
              H1 H2 H3 H3 H4))))))).
Defined.

(** C7 (frame of [square]).  A call leaves every entry of [lnew] at an
    index (i,j) outside the tile unchanged, and the length of [lnew] too.
    [l] is an input of the embedding and not a result: [square] has no
    write to it (the one store of the source is [lnew[j*n+i] = lij]). *)
Theorem square_frame irank imin_ jmin_ imax_ jmax_ n l lnew :
  1 <= n -> n * n <= CInt.int_max ->
  len lnew = n * n ->
  valid_tile n imin_ imax_ jmin_ jmax_ ->
  len (square irank imin_ jmin_ imax_ jmax_ n l lnew).2 = len lnew /\
  forall i j, 0 <= i < n -> 0 <= j < n ->
    (i < imin_ \/ imax_ <= i \/ j < jmin_ \/ jmax_ <= j) ->
    entry n (square irank imin_ jmin_ imax_ jmax_ n l lnew).2 i j =
    entry n lnew i j.
Proof.
  intros Hn Hnn Hlen Hv.
  destruct (square_post n Hn Hnn irank imin_ jmin_ imax_ jmax_ l lnew Hlen Hv)
    as (Hl & _ & Hout & _).
  split; [done|]. intros i j Hi Hj Hnot. apply Hout; [done..|].
  unfold in_tile. lia.
Qed.

Lemma square_frame_witness :
  1 <= 2 /\ 2 * 2 <= CInt.int_max /\ len [7; 7; 7; 7] = 2 * 2 /\
  valid_tile 2 0 1 0 2 /\
  entry 2 (square 1 0 0 1 2 2 [0; 1; 1; 0] [7; 7; 7; 7]).2 1 0 =
  entry 2 [7; 7; 7; 7] 1 0.
Proof.
  assert (H1 : 1 <= 2) by lia.
  assert (H2 : 2 * 2 <= CInt.int_max) by (vm_compute; discriminate).
  assert (H3 : len [7; 7; 7; 7] = 2 * 2) by reflexivity.
  assert (H4 : valid_tile 2 0 1 0 2) by (unfold valid_tile; lia).
  refine (conj H1 (conj H2 (conj H3 (conj H4 _)))).
  apply (square_frame 1 0 0 1 2 2 [0; 1; 1; 0] [7; 7; 7; 7] H1 H2 H3 H4); lia.
Defined.

(** C8 as stated fails: the kernel starts each cell from the value [lnew]
    holds there (line 53), so two next-buffers give different values and
    different flags. *)
Lemma square_ignores_next_counterexample :
  ~ (forall irank imin_ jmin_ imax_ jmax_ n l lnew1 lnew2,
       1 <= n -> n * n <= CInt.int_max ->
       len l = n * n -> len lnew1 = n * n -> len lnew2 = n * n ->
       valid_tile n imin_ imax_ jmin_ jmax_ ->
       (forall i j, in_tile imin_ imax_ jmin_ jmax_ i j ->
          entry n (square irank imin_ jmin_ imax_ jmax_ n l lnew1).2 i j =
          entry n (square irank imin_ jmin_ imax_ jmax_ n l lnew2).2 i j) /\
       (square irank imin_ jmin_ imax_ jmax_ n l lnew1).1 =
       (square irank imin_ jmin_ imax_ jmax_ n l lnew2).1).
Proof.
  intros H.
  destruct (H 1 0 0 2 2 2 [0; 1; 1; 0] [0; 1; 1; 0] [7; 0; 7; 7])
    as [Hval Hflag]; try reflexivity; try lia.
  - vm_compute; discriminate.
  - unfold valid_tile; lia.
  - vm_compute in Hflag. discriminate.
Qed.

(** C8, amended.  The kernel reads from [lnew] only the cell it is about to
    write: a tile cell on which two next-buffers agree receives the same
    value from both calls, and when the buffers agree on every tile cell
    the two calls return the same flag. *)
Theorem square_next_dependence irank imin_ jmin_ imax_ jmax_ n l lnew1 lnew2 :
  1 <= n -> n * n <= CInt.int_max ->
  len l = n * n -> len lnew1 = n * n -> len lnew2 = n * n ->
  valid_tile n imin_ imax_ jmin_ jmax_ ->
  (forall i j, in_tile imin_ imax_ jmin_ jmax_ i j ->
     entry n lnew1 i j = entry n lnew2 i j ->
     entry n (square irank imin_ jmin_ imax_ jmax_ n l lnew1).2 i j =
     entry n (square irank imin_ jmin_ imax_ jmax_ n l lnew2).2 i j) /\
  ((forall i j, in_tile imin_ imax_ jmin_ jmax_ i j ->
      entry n lnew1 i j = entry n lnew2 i j) ->
   (square irank imin_ jmin_ imax_ jmax_ n l lnew1).1 =
   (square irank imin_ jmin_ imax_ jmax_ n l lnew2).1).
Proof.
  intros Hn Hnn _ Hl1 Hl2 Hv.
  destruct (square_post n Hn Hnn irank imin_ jmin_ imax_ jmax_ l lnew1 Hl1 Hv)
    as (_ & Hin1 & _ & Hf1).
  destruct (square_post n Hn Hnn irank imin_ jmin_ imax_ jmax_ l lnew2 Hl2 Hv)
    as (_ & Hin2 & _ & Hf2).
  assert (Hrange : forall i j, in_tile imin_ imax_ jmin_ jmax_ i j ->
            0 <= i < n /\ 0 <= j < n).
  { intros i j [? ?]. destruct Hv as [(? & ? & ?) (? & ? & ?)]. lia. }
  split.
  - intros i j Hij He. destruct (Hrange i j Hij).
    rewrite Hin1, Hin2 by done. unfold newval. by rewrite He.
  - intros Hagree.
    assert (Himp : forall i j, in_tile imin_ imax_ jmin_ jmax_ i j ->
              improved n l lnew1 i j = improved n l lnew2 i j).
    { intros i j Hij. unfold improved. by rewrite Hagree. }
    destruct Hf1 as [[-> Hno1]|[-> (i & j & [Hi Hj] & HA & Hi1)]];
      destruct Hf2 as [[-> Hno2]|[-> (i' & j' & [Hi' Hj'] & HA' & Hi2)]];
      try done.
    + rewrite <- Himp in Hi2 by done. rewrite Hno1 in Hi2; done.
    + rewrite Himp in Hi1 by done. rewrite Hno2 in Hi1; done.
Qed.

Lemma square_next_dependence_witness :
  1 <= 2 /\ 2 * 2 <= CInt.int_max /\
  len [0; 1; 1; 0] = 2 * 2 /\ len [0; 1; 9; 9] = 2 * 2 /\
  valid_tile 2 0 2 0 1 /\
  ((forall i j, in_tile 0 2 0 1 i j ->
      entry 2 [0; 1; 1; 0] i j = entry 2 [0; 1; 9; 9] i j) ->
   (square 1 0 0 2 1 2 [0; 1; 1; 0] [0; 1; 1; 0]).1 =
   (square 1 0 0 2 1 2 [0; 1; 1; 0] [0; 1; 9; 9]).1).
Proof.
  assert (H1 : 1 <= 2) by lia.
  assert (H2 : 2 * 2 <= CInt.int_max) by (vm_compute; discriminate).
  assert (H3 : len [0; 1; 1; 0] = 2 * 2) by reflexivity.
  assert (H3' : len [0; 1; 9; 9] = 2 * 2) by reflexivity.
  assert (H4 : valid_tile 2 0 2 0 1) by (unfold valid_tile; lia).
  exact (conj H1 (conj H2 (conj H3 (conj H3' (conj H4
    (proj2 (square_next_dependence 1 0 0 2 1 2 [0; 1; 1; 0] [0; 1; 1; 0]
              [0; 1; 9; 9] H1 H2 H3 H3 H3' H4))))))).
Defined.

(** ** The infinity convention *)

Section Infinity.
Import CInt.

Variable n : Z.
Hypothesis Hn : 1 <= n.
Hypothesis Hnn : n * n <= int_max.

Lemma mul_nn : n *i n = n * n.
Proof. apply mul_small. int_range. Qed.

Lemma add_n1 : n +i 1 = n + 1.
Proof.
  pose proof (dim_bound n Hn Hnn).
  apply add_small. int_range.
Qed.

(* A loop that rewrites every cell according to its own value. *)
Lemma map_loop_spec (f : Z -> Z) (l : list Z) :
  len l = n * n ->
  let r := for_range 0 (n * n)
             (fun i l => if decide (f (aget l i) = aget l i) then l
                         else aset l i (f (aget l i))) l in
  len r = n * n /\ forall idx, 0 <= idx < n * n -> aget r idx = f (aget l idx).
Proof.
  intros Hlen r.
  assert (H : len r = n * n /\
              forall idx, 0 <= idx < n * n ->
                aget r idx = if idx <? n * n then f (aget l idx) else aget l idx).
  { apply (for_range_inv (fun i cur =>
      len cur = n * n /\
      forall idx, 0 <= idx < n * n ->
        aget cur idx = if idx <? i then f (aget l idx) else aget l idx));
      [nia| |].
    - split; [done|]. intros idx Hidx. destruct (Z.ltb_spec idx 0); [lia|done].
    - intros i cur Hi [Hl Hc].
      assert (Hcur : aget cur i = aget l i).
      { rewrite Hc by lia. destruct (Z.ltb_spec i i); [lia|done]. }
      rewrite Hcur. case_decide as Hf.
      + split; [done|]. intros idx Hidx. rewrite Hc by done.
        destruct (Z.ltb_spec idx i), (Z.ltb_spec idx (i + 1)); try lia; try done.
        assert (idx = i) as -> by lia. done.
      + split; [by autorewrite with buf|]. intros idx Hidx.
        destruct (decide (idx = i)) as [->|Hne].
        * rewrite aget_aset_eq by lia.
          destruct (Z.ltb_spec i (i + 1)); [done|lia].
        * rewrite aget_aset_ne by done. rewrite Hc by done.
          destruct (Z.ltb_spec idx i), (Z.ltb_spec idx (i + 1)); try lia; done. }
  destruct H as [H1 H2]. split; [done|]. intros idx Hidx.
  rewrite H2 by done. destruct (Z.ltb_spec idx (n * n)); [done|lia].
Qed.

Lemma infinitize_spec imin_ jmin_ imax_ jmax_ l :
  len l = n * n ->
  len (infinitize imin_ jmin_ imax_ jmax_ n l) = n * n /\
  forall idx, 0 <= idx < n * n ->
    aget (infinitize imin_ jmin_ imax_ jmax_ n l) idx =
    if aget l idx =? 0 then n + 1 else aget l idx.
Proof.
  intros Hlen. unfold infinitize. rewrite mul_nn, add_n1.
  pose proof (map_loop_spec (fun v => if v =? 0 then n + 1 else v) l Hlen) as H.
  simpl in H.
  erewrite for_range_ext; [exact H|].
  intros i s _. simpl. destruct (Z.eqb_spec (aget s i) 0) as [He|He].
  - rewrite decide_False by lia. done.
  - rewrite decide_True by done. done.
Qed.

Lemma deinfinitize_spec imin_ jmin_ imax_ jmax_ l :
  len l = n * n ->
  len (deinfinitize imin_ jmin_ imax_ jmax_ n l) = n * n /\
  forall idx, 0 <= idx < n * n ->
    aget (deinfinitize imin_ jmin_ imax_ jmax_ n l) idx =
    if aget l idx =? n + 1 then 0 else aget l idx.
Proof.
  intros Hlen. unfold deinfinitize. rewrite mul_nn, add_n1.
  pose proof (map_loop_spec (fun v => if v =? n + 1 then 0 else v) l Hlen) as H.
  simpl in H.
  erewrite for_range_ext; [exact H|].
  intros i s _. simpl. destruct (Z.eqb_spec (aget s i) (n + 1)) as [He|He].
  - rewrite decide_False by lia. done.
  - rewrite decide_True by done. done.
Qed.

(* The strided loop over the diagonal leaves by its test after n passes. *)
Lemma for_step_diag {St} (body : Z -> St -> St) (k : nat) : forall m s fuel,
  0 <= m -> m + Z.of_nat k = n -> (k < fuel)%nat ->
  for_step fuel (m * (n + 1)) (n * n) (n + 1) body s =
  Some (for_count k m (fun m s => body (m * (n + 1)) s) s).
Proof.
  pose proof (dim_bound n Hn Hnn) as Hb.
  induction k as [|k IH]; intros m s fuel Hm Hk Hfuel;
    (destruct fuel as [|fuel]; [lia|]); simpl.
  - destruct (Z.ltb_spec (m * (n + 1)) (n * n)); [nia|done].
  - destruct (Z.ltb_spec (m * (n + 1)) (n * n)); [|nia].
    rewrite add_small by int_range.
    replace (m * (n + 1) + (n + 1)) with ((m + 1) * (n + 1)) by ring.
    apply IH; lia.
Qed.

Lemma reset_diag_spec l :
  len l = n * n ->
  exists l', reset_diag n l = Some l' /\ len l' = n * n /\
    (forall m, 0 <= m < n -> aget l' (m * (n + 1)) = 0) /\
    (forall idx, (forall m, 0 <= m < n -> idx <> m * (n + 1)) ->
       aget l' idx = aget l idx).
Proof.
  intros Hlen. unfold reset_diag. rewrite mul_nn, add_n1.
  pose proof (for_step_diag (fun i l => aset l i 0) (Z.to_nat n) 0 l
                (S (Z.to_nat (n * n)))) as Hstep.
  rewrite Z.mul_0_l in Hstep. rewrite Hstep by (try lia; nia). clear Hstep.
  eexists. split; [reflexivity|].
  replace (Z.to_nat n) with (Z.to_nat (n - 0)) by lia.
  change (for_count (Z.to_nat (n - 0)) 0 ?f l) with (for_range 0 n f l).
  apply (for_range_inv (fun m cur =>
    len cur = n * n /\
    (forall m', 0 <= m' < m -> aget cur (m' * (n + 1)) = 0) /\
    (forall idx, (forall m', 0 <= m' < m -> idx <> m' * (n + 1)) ->
       aget cur idx = aget l idx))); [lia| |].
  - split; [done|]. split; [intros; lia|done].
  - intros m cur Hm (Hl & Hd & Ho). split; [by autorewrite with buf|]. split.
    + intros m' Hm'. destruct (decide (m' = m)) as [->|Hne].
      * apply aget_aset_eq. nia.
      * rewrite aget_aset_ne by nia. apply Hd. lia.
    + intros idx Hidx. rewrite aget_aset_ne.
      * apply Ho. intros m' Hm'. apply Hidx. lia.
      * intros Heq. apply (Hidx m); [lia|done].
Qed.

(** The matrix l^0 that [shortest_paths] starts from. *)
Lemma init_dist_spec imin_ jmin_ imax_ jmax_ l :
  len l = n * n ->
  exists l0, init_dist imin_ jmin_ imax_ jmax_ n l = Some l0 /\
    len l0 = n * n /\
    forall i j, 0 <= i < n -> 0 <= j < n ->
      entry n l0 i j =
      if i =? j then 0
      else if entry n l i j =? 0 then n + 1 else entry n l i j.
Proof.
  intros Hlen. unfold init_dist.
  destruct (infinitize_spec imin_ jmin_ imax_ jmax_ l Hlen) as [Hl1 H1].
  destruct (reset_diag_spec _ Hl1) as (l0 & Hr & Hl0 & Hd & Ho).
  exists l0. split; [done|]. split; [done|].
  intros i j Hi Hj. unfold entry.
  destruct (Z.eqb_spec i j) as [->|Hne].
  - replace (j * n + j) with (j * (n + 1)) by ring. by apply Hd.
  - rewrite Ho.
    + apply H1. nia.
    + intros m Hm Heq. replace (m * (n + 1)) with (m * n + m) in Heq by ring.
      apply (cell_inj n) in Heq; lia.
Qed.

End Infinity.

(** C9 (infinity convention).  Whatever tile bounds it is given,
    [infinitize] replaces every entry equal to 0 of the whole matrix with
    n+1 and leaves every other entry as it is; the loop that follows in
    [shortest_paths] leaves by its test, sets exactly the n entries
    l[i*(n+1)], i in [0,n), to 0 and changes no other entry; so that
    afterwards every diagonal entry is 0 and every off-diagonal entry that
    was 0 is n+1. *)
Theorem infinity_convention imin_ jmin_ imax_ jmax_ n l :
  1 <= n -> n * n <= CInt.int_max -> len l = n * n ->
  let l1 := infinitize imin_ jmin_ imax_ jmax_ n l in
  (len l1 = n * n /\
   forall idx, 0 <= idx < n * n ->
     aget l1 idx = if aget l idx =? 0 then n + 1 else aget l idx) /\
  exists l2,
    reset_diag n l1 = Some l2 /\
    init_dist imin_ jmin_ imax_ jmax_ n l = Some l2 /\
    len l2 = n * n /\
    (forall i, 0 <= i < n -> aget l2 (i * (n + 1)) = 0) /\
    (forall idx, (forall i, 0 <= i < n -> idx <> i * (n + 1)) ->
       aget l2 idx = aget l1 idx) /\
    (forall i, 0 <= i < n -> entry n l2 i i = 0) /\
    (forall i j, 0 <= i < n -> 0 <= j < n -> i <> j ->
       entry n l i j = 0 -> entry n l2 i j = n + 1).
Proof.
  intros Hn Hnn Hlen l1.
  destruct (infinitize_spec n Hn Hnn imin_ jmin_ imax_ jmax_ l Hlen) as [Hl1 H1].
  split; [done|].
  destruct (reset_diag_spec n Hn Hnn l1 Hl1) as (l2 & Hr & Hl2 & Hd & Ho).
  exists l2. repeat (split; [done|]).
  destruct (init_dist_spec n Hn Hnn imin_ jmin_ imax_ jmax_ l Hlen)
    as (l0 & Hi & _ & He).
  unfold init_dist in Hi. fold l1 in Hi. rewrite Hr in Hi.
  injection Hi as <-. split.
  - intros i Hi. rewrite He by done. by rewrite Z.eqb_refl.
  - intros i j Hi Hj Hne H0. rewrite He by done.
    destruct (Z.eqb_spec i j); [done|]. rewrite H0. done.
Qed.

Lemma infinity_convention_witness :
  1 <= 2 /\ 2 * 2 <= CInt.int_max /\ len [0; 1; 0; 0] = 2 * 2 /\
  exists l2,
    init_dist 0 0 1 1 2 [0; 1; 0; 0] = Some l2 /\
    entry 2 l2 0 1 = 2 + 1.
Proof.
  assert (H1 : 1 <= 2) by lia.
  assert (H2 : 2 * 2 <= CInt.int_max) by (vm_compute; discriminate).
  assert (H3 : len [0; 1; 0; 0] = 2 * 2) by reflexivity.
  refine (conj H1 (conj H2 (conj H3 _))).
  destruct (infinity_convention 0 0 1 1 2 [0; 1; 0; 0] H1 H2 H3)
    as (_ & l2 & _ & Hinit & _ & _ & _ & _ & Hoff).
  exists l2. split; [exact Hinit|].
  apply Hoff; [lia | lia | lia | reflexivity].
Defined.

(** ** Domain decomposition *)

Section Axis.
Import CInt.

Variables n g : Z.
Hypothesis Hn : 0 <= n <= int_max.
Hypothesis Hg : 1 <= g <= int_max.

Let q := n / g.
Let r := n mod g.

Lemma axis_qr : n = g * q + r /\ 0 <= r < g /\ 0 <= q /\ q <= n /\ r <= n.
Proof.
  subst q r. pose proof (Z.div_mod n g ltac:(lia)).
  pose proof (Z.mod_pos_bound n g ltac:(lia)).
  pose proof (Z.div_pos n g ltac:(lia) ltac:(lia)).
  assert (n / g <= n) by (apply Z.div_le_upper_bound; nia).
  pose proof (Z.mod_le n g ltac:(lia) ltac:(lia)). lia.
Qed.

Lemma axis_upto_0 : axis_upto n g 0 = 0.
Proof. unfold axis_upto. pose proof axis_qr. fold r. lia. Qed.

Lemma axis_upto_g : axis_upto n g g = n.
Proof. unfold axis_upto. pose proof axis_qr. fold q r. lia. Qed.

Lemma axis_upto_mono a b : 0 <= a <= b -> axis_upto n g a <= axis_upto n g b.
Proof. unfold axis_upto. pose proof axis_qr. fold q r. intros H'. nia. Qed.

Lemma axis_upto_step ip :
  1 <= ip ->
  axis_upto n g ip - axis_upto n g (ip - 1) = if ip <=? r then q + 1 else q.
Proof.
  unfold axis_upto. pose proof axis_qr. fold q r. intros Hip.
  destruct (Z.leb_spec ip r); nia.
Qed.

(* The range computed by [main] along one axis, for the 1-based [ip]. *)
Lemma axis_code ip :
  1 <= ip <= g ->
  let q' := quot n g in
  let r' := rem n g in
  (if ip <=? r' then (q' +i 1, 0 +i (ip -i 1) *i (q' +i 1))
   else (q', 0 +i r' *i (q' +i 1) +i (ip -i r' -i 1) *i q')) =
  (axis_upto n g ip - axis_upto n g (ip - 1), axis_upto n g (ip - 1)).
Proof.
  intros Hip q' r'. subst q' r'.
  rewrite quot_nonneg, rem_nonneg by lia. fold q r.
  rewrite axis_upto_step by lia.
  pose proof axis_qr as (Hqr & Hr & Hq & Hqn & Hrn).
  unfold axis_upto. fold q r. unfold int_max in *.
  assert (Hin : forall z, 0 <= z <= n -> in_range z).
  { intros z Hz. int_range. }
  destruct (Z.leb_spec ip r) as [Hle|Hgt].
  - rewrite (add_small q 1) by (apply Hin; nia).
    rewrite (sub_small ip 1) by (apply Hin; nia).
    rewrite mul_small by (apply Hin; nia).
    rewrite add_small by (apply Hin; nia).
    f_equal. nia.
  - assert (Hmul : r *i (q +i 1) = r * (q + 1)).
    { destruct (decide (r = 0)) as [->|Hr0]; [done|].
      rewrite (add_small q 1) by (apply Hin; nia).
      apply mul_small, Hin. nia. }
    rewrite Hmul.
    rewrite (sub_small ip r) by int_range.
    rewrite (sub_small (ip - r) 1) by int_range.
    rewrite (mul_small (ip - r - 1)) by (apply Hin; nia).
    rewrite (add_small 0) by (apply Hin; nia).
    rewrite add_small by (apply Hin; nia).
    f_equal. nia.
Qed.

(* Every index of the axis has an owner, and only one. *)
Lemma axis_owner x :
  0 <= x < n ->
  exists ip, 1 <= ip <= g /\
    axis_upto n g (ip - 1) <= x < axis_upto n g ip.
Proof.
  intros Hx.
  assert (H : forall k : nat, Z.of_nat k <= g -> x < axis_upto n g (Z.of_nat k) ->
            exists ip, 1 <= ip <= Z.of_nat k /\
              axis_upto n g (ip - 1) <= x < axis_upto n g ip).
  { induction k as [|k IH]; intros Hk Hlt.
    - change (Z.of_nat 0) with 0 in Hlt. rewrite axis_upto_0 in Hlt. lia.
    - destruct (Z_lt_le_dec x (axis_upto n g (Z.of_nat k))) as [Hlt'|Hge].
      + destruct (IH ltac:(lia) Hlt') as (ip & Hip & Hr). exists ip. split; [lia|done].
      + exists (Z.of_nat (S k)). split; [lia|].
        replace (Z.of_nat (S k) - 1) with (Z.of_nat k) by lia. lia. }
  destruct (H (Z.to_nat g)) as (ip & Hip & Hr).
  - lia.
  - rewrite Z2Nat.id by lia. rewrite axis_upto_g. lia.
  - exists ip. split; [lia|done].
Qed.

Lemma axis_owner_unique x ip ip' :
  1 <= ip -> 1 <= ip' ->
  axis_upto n g (ip - 1) <= x < axis_upto n g ip ->
  axis_upto n g (ip' - 1) <= x < axis_upto n g ip' ->
  ip = ip'.
Proof.
  intros H1 H1' H H'.
  destruct (Z.lt_trichotomy ip ip') as [Hlt|[Heq|Hlt]]; [|done|].
  - pose proof (axis_upto_mono ip (ip' - 1) ltac:(lia)). lia.
  - pose proof (axis_upto_mono ip' (ip - 1) ltac:(lia)). lia.
Qed.

End Axis.

(* The tile [main] computes for the process at 1-based (iproc, jproc). *)
Lemma main_tile_eq n npx npy iproc jproc :
  0 <= n <= CInt.int_max ->
  1 <= iproc <= npx -> npx <= CInt.int_max ->
  1 <= jproc <= npy -> npy <= CInt.int_max ->
  main_tile n npx npy (iproc - 1) (jproc - 1) =
  Tile (axis_upto n npx (iproc - 1)) (axis_upto n npx iproc)
       (axis_upto n npy (jproc - 1)) (axis_upto n npy jproc).
Proof.
  intros Hn Hi Hx Hj Hy. unfold main_tile. cbv zeta.
  rewrite (add_small (iproc - 1) 1), (add_small (jproc - 1) 1)
    by int_range.
  replace (iproc - 1 + 1) with iproc by lia.
  replace (jproc - 1 + 1) with jproc by lia.
  rewrite (axis_code n npx Hn ltac:(lia) iproc Hi).
  rewrite (axis_code n npy Hn ltac:(lia) jproc Hj).
  assert (Hin : forall g ip, 1 <= g <= CInt.int_max -> 0 <= ip <= g ->
            0 <= axis_upto n g ip <= n).
  { intros g ip Hg Hip.
    pose proof (axis_upto_mono n g Hn Hg 0 ip ltac:(lia)).
    pose proof (axis_upto_mono n g Hn Hg ip g ltac:(lia)).
    rewrite axis_upto_0 in * by done. rewrite axis_upto_g in * by done. lia. }
  pose proof (Hin npx iproc ltac:(lia) ltac:(lia)).
  pose proof (Hin npy jproc ltac:(lia) ltac:(lia)).
  rewrite (add_small (axis_upto n npx (iproc - 1))),
    (add_small (axis_upto n npy (jproc - 1)))
    by int_range.
  f_equal; lia.
Qed.

(** C3 (partition completeness and remainder policy).  For an int n >= 1
    and axis sizes 1 <= gx, gy <= n, with q = n / g and r = n % g: the
    ranges [imin_, imax_) and [jmin_, jmax_) that [main] computes for the
    1-based coordinates (iproc, jproc) have q+1 indices for the first r
    coordinates and q for the others, at least one index each, and lie in
    [0,n]; along each axis every index of [0,n) is in the range of exactly
    one coordinate; and every cell of [0,n) x [0,n) is in the tile of
    exactly one process. *)
Theorem partition_complete n gx gy :
  1 <= n <= CInt.int_max -> 1 <= gx <= n -> 1 <= gy <= n ->
  (forall iproc jproc, 1 <= iproc <= gx -> 1 <= jproc <= gy ->
     let t := main_tile n gx gy (iproc - 1) (jproc - 1) in
     t_imax t - t_imin t = (if iproc <=? n mod gx then n / gx + 1 else n / gx) /\
     t_jmax t - t_jmin t = (if jproc <=? n mod gy then n / gy + 1 else n / gy) /\
     1 <= t_imax t - t_imin t /\ 1 <= t_jmax t - t_jmin t /\
     0 <= t_imin t /\ t_imax t <= n /\ 0 <= t_jmin t /\ t_jmax t <= n) /\
  (forall x, 0 <= x < n ->
     exists iproc, 1 <= iproc <= gx /\
       forall iproc' jproc, 1 <= iproc' <= gx -> 1 <= jproc <= gy ->
         let t := main_tile n gx gy (iproc' - 1) (jproc - 1) in
         t_imin t <= x < t_imax t <-> iproc' = iproc) /\
  (forall y, 0 <= y < n ->
     exists jproc, 1 <= jproc <= gy /\
       forall iproc jproc', 1 <= iproc <= gx -> 1 <= jproc' <= gy ->
         let t := main_tile n gx gy (iproc - 1) (jproc' - 1) in
         t_jmin t <= y < t_jmax t <-> jproc' = jproc) /\
  (forall x y, 0 <= x < n -> 0 <= y < n ->
     exists iproc jproc, (1 <= iproc <= gx /\ 1 <= jproc <= gy) /\
       forall iproc' jproc', 1 <= iproc' <= gx -> 1 <= jproc' <= gy ->
         in_tile_of (main_tile n gx gy (iproc' - 1) (jproc' - 1)) x y <->
         iproc' = iproc /\ jproc' = jproc).
Proof.
  intros Hn Hgx Hgy.
  assert (Hn' : 0 <= n <= CInt.int_max) by lia.
  assert (Hgx' : 1 <= gx <= CInt.int_max) by lia.
  assert (Hgy' : 1 <= gy <= CInt.int_max) by lia.
  assert (Htile : forall iproc jproc, 1 <= iproc <= gx -> 1 <= jproc <= gy ->
            main_tile n gx gy (iproc - 1) (jproc - 1) =
            Tile (axis_upto n gx (iproc - 1)) (axis_upto n gx iproc)
                 (axis_upto n gy (jproc - 1)) (axis_upto n gy jproc)).
  { intros. apply main_tile_eq; lia. }
  split; [|split; [|split]].
  - intros iproc jproc Hi Hj t. subst t. rewrite Htile by done. simpl.
    rewrite !axis_upto_step by lia.
    pose proof (axis_qr n gx Hn' Hgx') as (? & ? & ? & ? & ?).
    pose proof (axis_qr n gy Hn' Hgy') as (? & ? & ? & ? & ?).
    pose proof (axis_upto_mono n gx Hn' Hgx' 0 (iproc - 1) ltac:(lia)).
    pose proof (axis_upto_mono n gx Hn' Hgx' iproc gx ltac:(lia)).
    pose proof (axis_upto_mono n gy Hn' Hgy' 0 (jproc - 1) ltac:(lia)).
    pose proof (axis_upto_mono n gy Hn' Hgy' jproc gy ltac:(lia)).
    rewrite axis_upto_0, axis_upto_g in * by done.
    assert (1 <= n / gx) by nia. assert (1 <= n / gy) by nia.
    repeat split; try done; try lia;
      destruct (iproc <=? n mod gx), (jproc <=? n mod gy); lia.
  - intros x Hx.
    destruct (axis_owner n gx Hn' Hgx' x Hx) as (ip & Hip & Hr).
    exists ip. split; [done|]. intros ip' jp Hip' Hjp t. subst t.
    rewrite Htile by done. simpl. split.
    + intros Hr'. apply (axis_owner_unique n gx Hn' Hgx' x); (lia || done).
    + by intros ->.
  - intros y Hy.
    destruct (axis_owner n gy Hn' Hgy' y Hy) as (jp & Hjp & Hr).
    exists jp. split; [done|]. intros ip jp' Hip Hjp' t. subst t.
    rewrite Htile by done. simpl. split.
    + intros Hr'. apply (axis_owner_unique n gy Hn' Hgy' y); (lia || done).
    + by intros ->.
  - intros x y Hx Hy.
    destruct (axis_owner n gx Hn' Hgx' x Hx) as (ip & Hip & Hrx).
    destruct (axis_owner n gy Hn' Hgy' y Hy) as (jp & Hjp & Hry).
    exists ip, jp. split; [done|]. intros ip' jp' Hip' Hjp'.
    rewrite Htile by done. unfold in_tile_of, in_tile. simpl. split.
    + intros [Hx' Hy']. split.
      * apply (axis_owner_unique n gx Hn' Hgx' x); (lia || done).
      * apply (axis_owner_unique n gy Hn' Hgy' y); (lia || done).
    + by intros [-> ->].
Qed.

Lemma partition_complete_witness :
  1 <= 5 <= CInt.int_max /\ 1 <= 2 <= 5 /\ 1 <= 2 <= 5 /\
  (forall x y, 0 <= x < 5 -> 0 <= y < 5 ->
     exists iproc jproc, (1 <= iproc <= 2 /\ 1 <= jproc <= 2) /\
       forall iproc' jproc', 1 <= iproc' <= 2 -> 1 <= jproc' <= 2 ->
         in_tile_of (main_tile 5 2 2 (iproc' - 1) (jproc' - 1)) x y <->
         iproc' = iproc /\ jproc' = jproc).
Proof.
  assert (H1 : 1 <= 5 <= CInt.int_max) by (unfold CInt.int_max; lia).
  assert (H2 : 1 <= 2 <= 5) by lia.
  exact (conj H1 (conj H2 (conj H2
    (proj2 (proj2 (proj2 (partition_complete 5 2 2 H1 H2 H2))))))).
Defined.

(** ** Start-up check of [main] *)


(* The process of rank 1 of three, on a 2 x 1 grid, without [-i]:
   whether or not MPI_Cart_create returns to it. *)
Example config_abort_rank1_trace :
  main_trace 4 chain4 None true 2 1 3 1 None =
    [EvGenGraph 4; EvMpiInit; EvCartCreate 2 1] /\
  main_trace 4 chain4 None true 2 1 3 1 (Some (1, 0)) =
    [EvGenGraph 4; EvMpiInit; EvCartCreate 2 1; EvPartition (Tile 2 4 0 4);
     EvShortestPaths 2 (Tile 2 4 0 4) 4].
Proof. split; reflexivity. Qed.

(* A process of another rank prints no diagnostic; it leaves with [exit]
   only inside [write_matrix], when the file of [-i] does not open. *)
Lemma main_nonroot_passes_check n l ifname fopen_ok npx npy world_size irank
    cart requested available :
  irank <> iroot ->
  let tr := main_trace n l ifname fopen_ok npx npy world_size irank cart in
  existsb (is_diagnostic requested available) tr = false /\
  ((ifname = None \/ fopen_ok = true) ->
   existsb is_failure_exit tr = false /\ In (EvCartCreate npx npy) tr).
Proof.
  intros Hr tr. subst tr. unfold main_trace, main_mpi, write_matrix.
  destruct (Z.eqb_spec irank iroot) as [|_]; [done|].
  rewrite andb_false_r.
  destruct ifname as [fname|]; [destruct fopen_ok|];
    destruct cart as [[c0 c1]|]; simpl;
    (split; [done|]); intros Hf; try (by destruct Hf); split; auto.
Qed.




Example config_abort_root_with_file :
  main_trace 2 [0; 1; 0; 0] (Some "adj.txt") true 2 2 3 iroot None =
  [EvGenGraph 2; EvWriteFile "adj.txt" ("0 0 " +:+ nl +:+ "1 0 " +:+ nl);
   EvMpiInit; EvPrintError 4 3; EvExit (-1)].
Proof. vm_compute. reflexivity. Qed.

(** ** [gen_graph] *)

Section GenGraphFacts.
Import CInt.

Variable double : Type.
Variable dlt : double -> double -> bool.
Variable mt19937p : Type.
Variable sgenrand : Z -> mt19937p.
Variable genrand : mt19937p -> double * mt19937p.

Variable n : Z.
Variable p : double.
Hypothesis Hn : 0 <= n.
Hypothesis Hnn : n * n <= int_max.

Let s0 := sgenrand 10302011.
Let adv := fun s : mt19937p => (genrand s).2.
Let coin (k : Z) : Z :=
  if dlt (mt_draw sgenrand genrand 10302011 (Z.to_nat k)) p then 1 else 0.

Lemma coin_01 k : coin k = 0 \/ coin k = 1.
Proof. unfold coin. destruct (dlt _ _); auto. Qed.

(* State of the generation after the rows below [j]. *)
Let rows_done (j : Z) (st : mt19937p * list Z) : Prop :=
  st.1 = Nat.iter (Z.to_nat (j * n)) adv s0 /\
  len st.2 = n * n /\
  (forall idx, 0 <= idx < n * n -> aget st.2 idx = 0 \/ aget st.2 idx = 1) /\
  (forall i j', 0 <= i < n -> 0 <= j' < j ->
     entry n st.2 i j' = if i =? j' then 0 else coin (j' * n + i)).

Lemma gen_graph_row j st :
  0 <= j < n -> rows_done j st -> rows_done (j + 1) (gen_graph_j dlt genrand n p j st).
Proof.
  intros Hj (Hs & Hl & H01 & Hrows). unfold gen_graph_j.
  assert (Hinner :
    let st' := for_range 0 n (gen_graph_i dlt genrand n p j) st in
    st'.1 = Nat.iter (Z.to_nat (j * n + n)) adv s0 /\
    len st'.2 = n * n /\
    (forall idx, 0 <= idx < n * n -> aget st'.2 idx = 0 \/ aget st'.2 idx = 1) /\
    (forall i j', 0 <= i < n -> 0 <= j' < j ->
       entry n st'.2 i j' = if i =? j' then 0 else coin (j' * n + i)) /\
    (forall i, 0 <= i < n -> entry n st'.2 i j = coin (j * n + i))).
  { apply (for_range_inv (fun i (st' : mt19937p * list Z) =>
      st'.1 = Nat.iter (Z.to_nat (j * n + i)) adv s0 /\
      len st'.2 = n * n /\
      (forall idx, 0 <= idx < n * n -> aget st'.2 idx = 0 \/ aget st'.2 idx = 1) /\
      (forall i' j', 0 <= i' < n -> 0 <= j' < j ->
         entry n st'.2 i' j' = if i' =? j' then 0 else coin (j' * n + i')) /\
      (forall i', 0 <= i' < i -> entry n st'.2 i' j = coin (j * n + i'))));
      [lia| |].
    - rewrite Z.add_0_r. repeat split; try done. intros; lia.
    - intros i [s l] Hi (Hs' & Hl' & H01' & Hrows' & Hrow). simpl in *.
      unfold gen_graph_i.
      destruct (cell_index n i j Hnn Hi Hj) as [-> Hidx].
      destruct (genrand s) as [x s'] eqn:Hg. simpl.
      assert (Hx : (if dlt x p then 1 else 0) = coin (j * n + i)).
      { unfold coin, mt_draw. fold s0 adv. rewrite <- Hs', Hg. done. }
      rewrite Hx. split; [|split; [|split; [|split]]].
      + replace (Z.to_nat (j * n + (i + 1)))
          with (S (Z.to_nat (j * n + i))) by nia.
        simpl. rewrite <- Hs'. unfold adv. by rewrite Hg.
      + by autorewrite with buf.
      + intros idx Hidx'. destruct (decide (idx = j * n + i)) as [->|Hne].
        * rewrite aget_aset_eq by lia. apply coin_01.
        * rewrite aget_aset_ne by done. by apply H01'.
      + intros i' j' Hi' Hj'. unfold entry. rewrite aget_aset_ne.
        * by apply Hrows'.
        * intros Heq. apply (cell_inj n) in Heq; lia.
      + intros i' Hi'. unfold entry. destruct (decide (i' = i)) as [->|Hne].
        * rewrite aget_aset_eq by lia. done.
        * rewrite aget_aset_ne by lia. apply Hrow. lia. }
  destruct (for_range 0 n _ st) as [s l]. simpl in Hinner.
  destruct Hinner as (Hs' & Hl' & H01' & Hrows' & Hrow).
  destruct (cell_index n j j Hnn Hj Hj) as [-> Hidx].
  split; [|split; [|split]]; simpl.
  - rewrite Hs'. f_equal. nia.
  - by autorewrite with buf.
  - intros idx Hidx'. destruct (decide (idx = j * n + j)) as [->|Hne].
    + rewrite aget_aset_eq by lia. by left.
    + rewrite aget_aset_ne by done. by apply H01'.
  - intros i j' Hi Hj'. unfold entry.
    destruct (decide (j' = j)) as [->|Hnej].
    + destruct (Z.eqb_spec i j) as [->|Hnei].
      * rewrite aget_aset_eq by lia. done.
      * rewrite aget_aset_ne by lia. by apply Hrow.
    + rewrite aget_aset_ne.
      * apply Hrows'; lia.
      * intros Heq. apply (cell_inj n) in Heq; lia.
Qed.

Lemma gen_graph_spec :
  let l := gen_graph dlt sgenrand genrand n p in
  len l = n * n /\
  (forall idx, 0 <= idx < n * n -> aget l idx = 0 \/ aget l idx = 1) /\
  (forall i j, 0 <= i < n -> 0 <= j < n ->
     entry n l i j = if i =? j then 0 else coin (j * n + i)).
Proof.
  unfold gen_graph.
  assert (H : rows_done n (for_range 0 n (gen_graph_j dlt genrand n p)
                (sgenrand 10302011, replicate (Z.to_nat (n *i n)) 0))).
  { apply (for_range_inv rows_done); [done| |].
    - assert (Hmul : n *i n = n * n).
      { apply mul_small. int_range. }
      rewrite Hmul. split; [done|]. simpl. split; [|split].
      + unfold len. rewrite length_replicate. nia.
      + intros idx Hidx. left. unfold aget.
        destruct (Z.ltb_spec idx 0); [done|].
        rewrite lookup_replicate_2 by nia. done.
      + intros; lia.
    - intros j st Hj. by apply gen_graph_row. }
  destruct H as (_ & Hl & H01 & Hrows). simpl. split; [done|]. split; [done|].
  intros i j Hi Hj. by apply Hrows.
Qed.

End GenGraphFacts.

(** C10 (postcondition of [gen_graph]).  For every n >= 0 whose square an
    int holds and every p, [gen_graph n p] is a matrix of n*n cells, each 0
    or 1, with zero diagonal; and it is determined by (n, p): the entry
    (i,j) off the diagonal is 1 iff the draw number j*n+i of the generator
    seeded with 10302011 is below p. *)
Theorem gen_graph_post (double mt19937p : Type) (dlt : double -> double -> bool)
    (sgenrand : Z -> mt19937p) (genrand : mt19937p -> double * mt19937p)
    (n : Z) (p : double) :
  0 <= n -> n * n <= CInt.int_max ->
  let l := gen_graph dlt sgenrand genrand n p in
  len l = n * n /\
  (forall i j, 0 <= i < n -> 0 <= j < n ->
     entry n l i j = 0 \/ entry n l i j = 1) /\
  (forall j, 0 <= j < n -> entry n l j j = 0) /\
  (forall i j, 0 <= i < n -> 0 <= j < n -> i <> j ->
     entry n l i j =
     if dlt (mt_draw sgenrand genrand 10302011 (Z.to_nat (j * n + i))) p
     then 1 else 0).
Proof.
  intros Hn Hnn l.
  destruct (gen_graph_spec double dlt mt19937p sgenrand genrand n p Hn Hnn)
    as (Hl & H01 & He).
  fold l in Hl, H01, He. split; [done|]. split; [|split].
  - intros i j Hi Hj. apply H01. unfold CInt.int_max in *. nia.
  - intros j Hj. rewrite He by done. by rewrite Z.eqb_refl.
  - intros i j Hi Hj Hne. rewrite He by done.
    destruct (Z.eqb_spec i j); [done|]. done.
Qed.

(* A toy generator, to run [gen_graph]: the state is a counter and the
   draws are 0, 1, 2, ... *)
Lemma gen_graph_post_witness :
  0 <= 2 /\ 2 * 2 <= CInt.int_max /\
  len (gen_graph Z.ltb (fun _ => 0) (fun s => (s, s + 1)) 2 2) = 2 * 2.
Proof.
  assert (H1 : 0 <= 2) by lia.
  assert (H2 : 2 * 2 <= CInt.int_max) by (vm_compute; discriminate).
  exact (conj H1 (conj H2
    (proj1 (gen_graph_post Z Z Z.ltb (fun _ => 0) (fun s => (s, s + 1)) 2 2
              H1 H2)))).
Defined.

(** ** Paths in the graph *)

Lemma adjacency_spec n a :
  adjacency n a = true <->
  len a = n * n /\
  (forall i j, 0 <= i < n -> 0 <= j < n ->
     entry n a i j = 0 \/ entry n a i j = 1) /\
  (forall i, 0 <= i < n -> entry n a i i = 0).
Proof.
  unfold adjacency. rewrite andb_true_iff, Z.eqb_eq, forallb_forall.
  assert (Hin : forall x, In x (seqZ 0 n) <-> 0 <= x < n).
  { intros x. rewrite <- list_elem_of_In, elem_of_seqZ. lia. }
  split.
  - intros [Hlen H]. split; [done|]. split.
    + intros i j Hi Hj. apply Hin in Hj. specialize (H j Hj).
      rewrite forallb_forall in H. apply Hin in Hi. specialize (H i Hi).
      simpl in H. destruct (i =? j); [left; lia|].
      apply orb_true_iff in H. lia.
    + intros i Hi. apply Hin in Hi. specialize (H i Hi).
      rewrite forallb_forall in H. specialize (H i Hi). simpl in H.
      rewrite Z.eqb_refl in H. lia.
  - intros (Hlen & H01 & Hd). split; [done|]. intros j Hj. apply Hin in Hj.
    rewrite forallb_forall. intros i Hi. apply Hin in Hi. simpl.
    destruct (Z.eqb_spec i j) as [->|Hne].
    + apply Z.eqb_eq. by apply Hd.
    + apply orb_true_iff. destruct (H01 i j Hi Hj) as [->| ->]; auto.
Qed.

Section Walks.

Variable n : Z.
Variable a : list Z.

Lemma walk_range i j len : walk n a i j len -> 0 <= i < n /\ 0 <= j < n.
Proof.
  induction 1 as [i Hi|i k j len (Hi & _ & _) _ [_ IH]]; auto.
Qed.

Lemma walk_app i k j l1 l2 :
  walk n a i k l1 -> walk n a k j l2 -> walk n a i j (l1 + l2).
Proof.
  induction 1 as [i Hi|i k' k len He _ IH]; intros H2; simpl; [done|].
  eapply walk_cons; [done|]. by apply IH.
Qed.

Lemma walk_split l1 : forall i j l2,
  walk n a i j (l1 + l2) -> exists k, walk n a i k l1 /\ walk n a k j l2.
Proof.
  induction l1 as [|l1 IH]; intros i j l2 H; simpl in H.
  - exists i. split; [|done]. apply walk_nil.
    by destruct (walk_range _ _ _ H).
  - inversion H as [|i' k j' len He Hw]; subst.
    destruct (IH _ _ _ Hw) as (k' & H1 & H2).
    exists k'. split; [|done]. by eapply walk_cons.
Qed.

Lemma walk_vwalk i j len :
  walk n a i j len -> exists vs, length vs = len /\ vwalk n a i vs j.
Proof.
  induction 1 as [i Hi|i k j len He _ (vs & Hl & Hv)].
  - exists []. split; [done|by constructor].
  - exists (k :: vs). split; [simpl; by rewrite Hl|by constructor].
Qed.

Lemma vwalk_walk i vs j : vwalk n a i vs j -> walk n a i j (length vs).
Proof.
  induction 1 as [i Hi|i k vs j He _ IH]; simpl; [by constructor|].
  by eapply walk_cons.
Qed.

Lemma vwalk_nodes i vs j :
  vwalk n a i vs j -> 0 <= i < n /\ forall v, v ∈ vs -> 0 <= v < n.
Proof.
  induction 1 as [i Hi|i k vs j (Hi & Hk & _) _ [_ IH]].
  - split; [done|]. intros v Hv. by apply elem_of_nil in Hv.
  - split; [done|]. intros v Hv. apply elem_of_cons in Hv as [->|Hv]; auto.
Qed.

(* From a node of a simple walk onwards. *)
Lemma vwalk_from k vs j i :
  vwalk n a k vs j -> NoDup (k :: vs) -> i ∈ k :: vs ->
  exists vs', vwalk n a i vs' j /\ NoDup (i :: vs') /\
    (length vs' <= length vs)%nat.
Proof.
  induction 1 as [k Hk|k k2 vs j He Hw IH]; intros Hnd Hin.
  - apply list_elem_of_singleton in Hin as ->.
    exists []. split; [by constructor|]. split; [done|lia].
  - destruct (decide (i = k)) as [->|Hne].
    + exists (k2 :: vs). split; [by constructor|]. split; [done|lia].
    + apply elem_of_cons in Hin as [?|Hin]; [done|].
      apply NoDup_cons in Hnd as [_ Hnd].
      destruct (IH Hnd Hin) as (vs' & Hv & Hnd' & Hl).
      exists vs'. split; [done|]. split; [done|]. simpl. lia.
Qed.

Lemma vwalk_simple i vs j :
  vwalk n a i vs j ->
  exists vs', vwalk n a i vs' j /\ NoDup (i :: vs') /\
    (length vs' <= length vs)%nat.
Proof.
  induction 1 as [i Hi|i k vs j He Hw (vs' & Hv & Hnd & Hl)].
  - exists []. split; [by constructor|]. split; [|done].
    apply NoDup_singleton.
  - destruct (decide (i ∈ k :: vs')) as [Hin|Hnin].
    + destruct (vwalk_from _ _ _ i Hv Hnd Hin) as (vs'' & Hv' & Hnd' & Hl').
      exists vs''. split; [done|]. split; [done|]. simpl. lia.
    + exists (k :: vs'). split; [by constructor|]. split.
      * by apply NoDup_cons.
      * simpl. lia.
Qed.

(** A path between two nodes can be taken with at most n-1 edges. *)
Lemma walk_short i j len :
  walk n a i j len ->
  exists len', (len' <= len)%nat /\ Z.of_nat len' <= n - 1 /\
    walk n a i j len'.
Proof.
  intros Hw. destruct (walk_vwalk _ _ _ Hw) as (vs & <- & Hv).
  destruct (vwalk_simple _ _ _ Hv) as (vs' & Hv' & Hnd & Hl).
  exists (length vs'). split; [done|]. split; [|by apply vwalk_walk].
  assert (Hsub : (i :: vs') ⊆+ seqZ 0 n).
  { apply NoDup_submseteq; [done|]. intros v Hin. apply elem_of_seqZ.
    destruct (vwalk_nodes _ _ _ Hv') as [Hi Hvs].
    apply elem_of_cons in Hin as [->|Hin]; [lia|].
    specialize (Hvs v Hin). lia. }
  apply submseteq_length in Hsub. rewrite length_seqZ in Hsub.
  simpl in Hsub. lia.
Qed.

End Walks.

(** ** Repeated squaring on one process *)

Section FullMatrix.
Import CInt.

Variable n : Z.
Hypothesis Hn : 1 <= n.
Hypothesis Hnn : n * n <= int_max.

Lemma index_cell idx :
  0 <= idx < n * n ->
  idx = (idx / n) * n + idx mod n /\ 0 <= idx mod n < n /\ 0 <= idx / n < n.
Proof.
  intros Hidx. pose proof (Z.div_mod idx n ltac:(lia)).
  pose proof (Z.mod_pos_bound idx n ltac:(lia)).
  assert (0 <= idx / n) by (apply Z.div_pos; lia).
  assert (idx / n < n) by (apply Z.div_lt_upper_bound; nia).
  lia.
Qed.

Lemma matrix_ext l1 l2 :
  len l1 = n * n -> len l2 = n * n ->
  (forall i j, 0 <= i < n -> 0 <= j < n -> entry n l1 i j = entry n l2 i j) ->
  l1 = l2.
Proof.
  intros H1 H2 He. apply aget_ext; [congruence|].
  intros idx Hidx. rewrite H1 in Hidx.
  destruct (index_cell idx Hidx) as (Heq & Hi & Hj).
  rewrite Heq. by apply He.
Qed.

(* One round on the whole matrix, [lnew] being a copy of [l]. *)
Lemma round_spec irank l :
  len l = n * n ->
  let r := square irank 0 0 n n n l l in
  len r.2 = n * n /\
  (forall i j, 0 <= i < n -> 0 <= j < n ->
     entry n r.2 i j = Z.min (entry n l i j) (minplus n l i j)) /\
  ((r.1 = 1 /\
    forall i j, 0 <= i < n -> 0 <= j < n -> entry n l i j <= minplus n l i j) \/
   (r.1 = 0 /\
    exists i j, (0 <= i < n /\ 0 <= j < n) /\ minplus n l i j < entry n l i j)).
Proof.
  intros Hlen r.
  assert (Hv : valid_tile n 0 n 0 n) by (unfold valid_tile; lia).
  destruct (square_post n Hn Hnn irank 0 0 n n l l Hlen Hv)
    as (Hl & Hin & _ & Hflag).
  fold r in Hl, Hin, Hflag. split; [congruence|]. split.
  - intros i j Hi Hj. apply Hin; [done..|]. unfold in_tile. lia.
  - destruct Hflag as [[Hd Hno]|[Hd (i & j & Hij & _ & Himp)]].
    + left. split; [done|]. intros i j Hi Hj.
      specialize (Hno i j Hi Hj ltac:(unfold in_tile; lia)).
      unfold improved in Hno. by apply Z.ltb_ge in Hno.
    + right. split; [done|]. exists i, j. split; [done|].
      unfold improved in Himp. by apply Z.ltb_lt in Himp.
Qed.

End FullMatrix.

(* The ghost counter is the number of times the body runs: less fuel than
   that does not reach the end of the loop, and more changes nothing. *)
Lemma sp_loop_rounds irank imin_ jmin_ imax_ jmax_ n : forall fuel l lnew l' rounds,
  sp_loop fuel irank imin_ jmin_ imax_ jmax_ n l lnew = Some (l', rounds) ->
  forall fuel',
    ((fuel' < rounds)%nat ->
     sp_loop fuel' irank imin_ jmin_ imax_ jmax_ n l lnew = None) /\
    ((rounds <= fuel')%nat ->
     sp_loop fuel' irank imin_ jmin_ imax_ jmax_ n l lnew = Some (l', rounds)).
Proof.
  induction fuel as [|fuel IH]; intros l lnew l' rounds H fuel'; [done|].
  simpl in H.
  destruct fuel' as [|fuel']; simpl.
  - split; [done|]. intros Hr.
    destruct (square irank imin_ jmin_ imax_ jmax_ n l lnew) as [mydone lnew1].
    destruct (mydone =? 0).
    + destruct (sp_loop fuel _ _ _ _ _ _ lnew1 lnew1) as [[l2 r2]|];
        simpl in H; [|done].
      injection H as <- <-. lia.
    + injection H as <- <-. lia.
  - destruct (square irank imin_ jmin_ imax_ jmax_ n l lnew) as [mydone lnew1].
    destruct (mydone =? 0).
    + destruct (sp_loop fuel _ _ _ _ _ _ lnew1 lnew1) as [[l2 r2]|] eqn:Hrec;
        simpl in H; [|done].
      injection H as <- <-.
      destruct (IH _ _ _ _ Hrec fuel') as [Hlt Hge]. split; intros Hr.
      * rewrite Hlt by lia. done.
      * rewrite Hge by lia. done.
    + injection H as <- <-. split; [lia|done].
Qed.

Section Apsp.
Import CInt.

Variable n : Z.
Variable a : list Z.
Hypothesis Hn : 1 <= n.
Hypothesis Hnn : n * n <= int_max.
Hypothesis Hadj : adjacency n a = true.

Lemma cand_exact l i j k :
  (forall i j, 0 <= i < n -> 0 <= j < n -> 0 <= entry n l i j <= n + 1) ->
  0 <= i < n -> 0 <= j < n -> 0 <= k < n ->
  cand n l i j k = entry n l i k + entry n l k j.
Proof.
  intros Hb Hi Hj Hk. unfold cand. apply add_small.
  pose proof (dim_bound n Hn Hnn). pose proof (Hb i k Hi Hk).
  pose proof (Hb k j Hk Hj). int_range.
Qed.

Lemma init_inv imin_ jmin_ imax_ jmax_ :
  exists l0, init_dist imin_ jmin_ imax_ jmax_ n a = Some l0 /\ dist_inv n a 0 l0.
Proof.
  apply adjacency_spec in Hadj as (Hlen & H01 & Hd).
  destruct (init_dist_spec n Hn Hnn imin_ jmin_ imax_ jmax_ a Hlen)
    as (l0 & Hinit & Hl0 & He).
  exists l0. split; [done|]. split; [done|]. split; [|split].
  - intros i j Hi Hj. rewrite He by done.
    destruct (i =? j); [lia|]. destruct (H01 i j Hi Hj) as [-> | ->]; simpl; lia.
  - intros i j Hi Hj. rewrite He by done.
    destruct (Z.eqb_spec i j) as [->|Hne].
    + intros _. by apply walk_nil.
    + destruct (H01 i j Hi Hj) as [H0|H1]; rewrite ?H0, ?H1; simpl; [done|].
      intros _. change (Z.to_nat 1) with 1%nat.
      eapply walk_cons; [by split|by apply walk_nil].
  - intros i j len Hw Hlen2. simpl in Hlen2.
    destruct (walk_range _ _ _ _ _ Hw) as [Hi Hj]. rewrite He by done.
    inversion Hw as [|i' k j' len' (_ & _ & Hik) Hw']; subst.
    + rewrite Z.eqb_refl. lia.
    + assert (len' = 0%nat) as -> by lia.
      inversion Hw'; subst.
      destruct (Z.eqb_spec i j) as [->|Hne]; [lia|]. rewrite Hik. simpl. lia.
Qed.

Lemma round_inv irank s l :
  dist_inv n a s l -> dist_inv n a (S s) (square irank 0 0 n n n l l).2.
Proof.
  intros (Hlen & Hb & Hsound & Hcompl).
  destruct (round_spec n Hn Hnn irank l Hlen) as (Hl' & He & _).
  split; [done|]. split; [|split].
  - intros i j Hi Hj. rewrite He by done.
    destruct (minplus_attained n l i j Hn) as (k & Hk & ->).
    rewrite cand_exact by done.
    pose proof (Hb i j Hi Hj). pose proof (Hb i k Hi Hk).
    pose proof (Hb k j Hk Hj). lia.
  - intros i j Hi Hj. rewrite He by done.
    destruct (minplus_attained n l i j Hn) as (k & Hk & ->).
    rewrite cand_exact by done.
    pose proof (Hb i j Hi Hj). pose proof (Hb i k Hi Hk).
    pose proof (Hb k j Hk Hj).
    destruct (Z.min_spec (entry n l i j) (entry n l i k + entry n l k j))
      as [[Hlt ->]|[Hge ->]]; [by apply Hsound|].
    intros Hne.
    replace (Z.to_nat (entry n l i k + entry n l k j))
      with (Z.to_nat (entry n l i k) + Z.to_nat (entry n l k j))%nat by lia.
    apply walk_app with k; apply Hsound; (done || lia).
  - intros i j len Hw Hlen2.
    destruct (walk_range _ _ _ _ _ Hw) as [Hi Hj]. rewrite He by done.
    pose (l1 := Nat.min len (2 ^ s)).
    assert (Hsplit : len = (l1 + (len - l1))%nat) by lia.
    rewrite Hsplit in Hw. apply walk_split in Hw as (k & Hw1 & Hw2).
    destruct (walk_range _ _ _ _ _ Hw1) as [_ Hk].
    pose proof (minplus_le n l i j k Hk) as Hle.
    rewrite cand_exact in Hle by done.
    pose proof (Hcompl _ _ _ Hw1 ltac:(lia)).
    assert ((len - l1 <= 2 ^ s)%nat).
    { simpl in Hlen2. lia. }
    pose proof (Hcompl _ _ _ Hw2 ltac:(done)). lia.
Qed.

(* A round that improves nothing leaves the matrix as it is. *)
Lemma round_fixed irank l :
  len l = n * n ->
  (square irank 0 0 n n n l l).1 <> 0 ->
  (square irank 0 0 n n n l l).2 = l.
Proof.
  intros Hlen Hflag.
  destruct (round_spec n Hn Hnn irank l Hlen) as (Hl' & He & Hf).
  destruct Hf as [[_ Hno]|[Hd _]]; [|done].
  apply (matrix_ext n Hn); [done..|].
  intros i j Hi Hj. rewrite He by done. specialize (Hno i j Hi Hj). lia.
Qed.

Lemma fixed_inv irank s l :
  dist_inv n a s l -> (square irank 0 0 n n n l l).1 <> 0 ->
  forall t, dist_inv n a (s + t) l.
Proof.
  intros Hinv Hflag t. induction t as [|t IH].
  - by rewrite Nat.add_0_r.
  - replace (s + S t)%nat with (S (s + t)) by lia.
    rewrite <- (round_fixed irank l) by (done || apply Hinv).
    by apply round_inv.
Qed.

(* Once every path of at most n-1 edges is accounted for, nothing improves. *)
Lemma round_late irank s l :
  dist_inv n a s l -> n - 1 <= Z.of_nat (2 ^ s) ->
  (square irank 0 0 n n n l l).1 = 1.
Proof.
  intros (Hlen & Hb & Hsound & Hcompl) Hs.
  destruct (round_spec n Hn Hnn irank l Hlen) as (_ & _ & Hf).
  destruct Hf as [[Hd _]|[_ (i & j & [Hi Hj] & Himp)]]; [done|].
  exfalso.
  destruct (minplus_attained n l i j Hn) as (k & Hk & Hmin).
  rewrite Hmin, cand_exact in Himp by done.
  pose proof (Hb i j Hi Hj). pose proof (Hb i k Hi Hk).
  pose proof (Hb k j Hk Hj).
  assert (Hw : walk n a i j (Z.to_nat (entry n l i k) + Z.to_nat (entry n l k j))).
  { apply walk_app with k; apply Hsound; (done || lia). }
  apply walk_short in Hw as (len' & Hle & Hshort & Hw).
  pose proof (Hcompl _ _ _ Hw ltac:(lia)). lia.
Qed.

Lemma fixed_exact irank s l :
  dist_inv n a s l -> (square irank 0 0 n n n l l).1 <> 0 -> exact_dist n a l.
Proof.
  intros Hinv Hflag. pose proof (fixed_inv irank s l Hinv Hflag) as Hall.
  destruct Hinv as (Hlen & Hb & Hsound & _).
  assert (Hle : forall i j len, walk n a i j len -> entry n l i j <= Z.of_nat len).
  { intros i j len Hw. destruct (Hall len) as (_ & _ & _ & Hc).
    apply Hc; [done|].
    assert (len < 2 ^ len)%nat by (apply Nat.pow_gt_lin_r; lia).
    assert (2 ^ len <= 2 ^ (s + len))%nat by (apply Nat.pow_le_mono_r; lia).
    lia. }
  split; [done|]. intros i j Hi Hj. split.
  - intros [len Hw]. apply walk_short in Hw as (len' & _ & Hshort & Hw).
    pose proof (Hle _ _ _ Hw). pose proof (Hb i j Hi Hj).
    split; [|lia].
    exists (Z.to_nat (entry n l i j)). split; [lia|]. split.
    + apply Hsound; (done || lia).
    + intros len2 Hw2. pose proof (Hle _ _ _ Hw2). lia.
  - intros Hnr. destruct (decide (entry n l i j = n + 1)) as [|Hne]; [done|].
    exfalso. apply Hnr. eexists. by apply Hsound.
Qed.

Lemma pow2_log2_up : n - 1 <= Z.of_nat (2 ^ Z.to_nat (Z.log2_up n)).
Proof.
  rewrite Nat2Z.inj_pow. rewrite Z2Nat.id by apply Z.log2_up_nonneg.
  destruct (decide (n = 1)) as [->|Hne]; [simpl; lia|].
  pose proof (Z.log2_up_spec n ltac:(lia)). simpl. lia.
Qed.

(** The loop leaves within log2_up n + 1 rounds, with the exact matrix. *)
Lemma sp_loop_run irank : forall fuel s l,
  dist_inv n a s l ->
  (s <= Z.to_nat (Z.log2_up n))%nat ->
  (Z.to_nat (Z.log2_up n) + 1 - s <= fuel)%nat ->
  exists l' rounds,
    sp_loop fuel irank 0 0 n n n l l = Some (l', rounds) /\
    (1 <= rounds)%nat /\ (rounds + s <= Z.to_nat (Z.log2_up n) + 1)%nat /\
    exact_dist n a l'.
Proof.
  induction fuel as [|fuel IH]; intros s l Hinv Hs Hfuel; [lia|].
  simpl.
  pose proof (round_inv irank s l Hinv) as Hinv'.
  pose proof (fixed_exact irank s l Hinv) as Hex.
  pose proof (round_fixed irank l (proj1 Hinv)) as Hfix.
  pose proof (round_late irank s l Hinv) as Hlate.
  destruct (square irank 0 0 n n n l l) as [mydone lnew]. simpl in *.
  destruct (Z.eqb_spec mydone 0) as [H0|H0].
  - assert (Hlt : (s < Z.to_nat (Z.log2_up n))%nat).
    { destruct (decide (s = Z.to_nat (Z.log2_up n))) as [->|]; [|lia].
      specialize (Hlate pow2_log2_up). lia. }
    destruct (IH (S s) lnew Hinv' ltac:(lia) ltac:(lia))
      as (l' & rounds & -> & H1 & H2 & H3).
    exists l', (S rounds). simpl. split; [done|].
    split; [lia|]. split; [lia|done].
  - exists lnew, 1%nat. split; [done|]. split; [lia|]. split; [lia|].
    rewrite Hfix by done. by apply Hex.
Qed.

Lemma shortest_paths_run irank fuel :
  (Z.to_nat (Z.log2_up n) + 1 <= fuel)%nat ->
  exists d rounds,
    shortest_paths_rounds fuel irank 0 n 0 n n a = Some (d, rounds) /\
    (1 <= rounds)%nat /\ Z.of_nat rounds <= Z.log2_up n + 1 /\
    len d = n * n /\
    (forall i j, 0 <= i < n -> 0 <= j < n ->
      (i = j -> entry n d i j = 0) /\
      (reachable n a i j -> distance n a i j (entry n d i j)) /\
      (~ reachable n a i j -> entry n d i j = 0)) /\
    (forall fuel', (fuel' < rounds)%nat ->
       shortest_paths_rounds fuel' irank 0 n 0 n n a = None) /\
    (forall fuel', (rounds <= fuel')%nat ->
       shortest_paths_rounds fuel' irank 0 n 0 n n a = Some (d, rounds)).
Proof.
  intros Hfuel. unfold shortest_paths_rounds.
  destruct (init_inv 0 0 n n) as (l0 & -> & Hinv). simpl.
  destruct (sp_loop_run irank fuel 0 l0 Hinv ltac:(lia) ltac:(lia))
    as (l' & rounds & Hloop & H1 & H2 & Hlen & Hex).
  rewrite Hloop.
  simpl. exists (deinfinitize 0 n 0 n n l'), rounds. split; [done|].
  split; [done|]. split.
  { pose proof (Z.log2_up_nonneg n). lia. }
  cut (len (deinfinitize 0 n 0 n n l') = n * n /\
       forall i j, 0 <= i < n -> 0 <= j < n ->
         (i = j -> entry n (deinfinitize 0 n 0 n n l') i j = 0) /\
         (reachable n a i j ->
          distance n a i j (entry n (deinfinitize 0 n 0 n n l') i j)) /\
         (~ reachable n a i j -> entry n (deinfinitize 0 n 0 n n l') i j = 0)).
  { intros [Hl Hd]. split; [done|]. split; [done|].
    split; intros fuel' Hf;
      destruct (sp_loop_rounds _ _ _ _ _ _ _ _ _ _ _ Hloop fuel') as [Hlt Hge].
    - by rewrite Hlt.
    - by rewrite Hge. }
  destruct (deinfinitize_spec n Hn Hnn 0 n 0 n l' Hlen) as [Hld Hd].
  split; [done|]. intros i j Hi Hj.
  assert (He : entry n (deinfinitize 0 n 0 n n l') i j =
               if entry n l' i j =? n + 1 then 0 else entry n l' i j).
  { unfold entry. apply Hd. nia. }
  rewrite He. destruct (Hex i j Hi Hj) as [Hr Hnr].
  assert (Hreach : reachable n a i j ->
            distance n a i j (if entry n l' i j =? n + 1 then 0 else entry n l' i j)).
  { intros Hrj. destruct (Hr Hrj) as [Hdist Hle].
    destruct (Z.eqb_spec (entry n l' i j) (n + 1)); [lia|done]. }
  split; [|split].
  - intros ->. assert (Hjj : reachable n a j j) by (exists 0%nat; by apply walk_nil).
    destruct (Hreach Hjj) as (len & Hlen' & _ & Hmin).
    specialize (Hmin 0%nat (walk_nil n a j Hj)). lia.
  - done.
  - intros Hnr'. rewrite (Hnr Hnr'). by rewrite Z.eqb_refl.
Qed.

End Apsp.

(** ** Correctness and round bound of [shortest_paths] on one process *)

(** C1 (end-to-end correctness).  For n >= 1 with n*n an int and an
    adjacency matrix [a] (entries 0 or 1, zero diagonal, entry (i,j) at
    a[j*n+i]): [shortest_paths], run by one process on the whole matrix,
    returns; and in the matrix it leaves, the entry (i,j) is the minimum
    number of edges on a directed path from i to j when j is reachable
    from i, is 0 when i = j, and is 0 when j is not reachable from i.
    Whatever the fuel, a run that returns returns this matrix. *)
Theorem shortest_paths_correct n a irank fuel :
  1 <= n -> n * n <= CInt.int_max -> adjacency n a = true ->
  (Z.to_nat (Z.log2_up n) + 1 <= fuel)%nat ->
  exists d,
    shortest_paths fuel irank 0 n 0 n n a = Some d /\
    len d = n * n /\
    (forall i j, 0 <= i < n -> 0 <= j < n ->
      (i = j -> entry n d i j = 0) /\
      (reachable n a i j -> distance n a i j (entry n d i j)) /\
      (~ reachable n a i j -> entry n d i j = 0)) /\
    (forall fuel' d',
       shortest_paths fuel' irank 0 n 0 n n a = Some d' -> d' = d).
Proof.
  intros Hn Hnn Hadj Hfuel.
  destruct (shortest_paths_run n a Hn Hnn Hadj irank fuel Hfuel)
    as (d & rounds & Hrun & _ & _ & Hlen & Hd & Hlt & Hge).
  exists d. unfold shortest_paths. rewrite Hrun.
  split; [done|]. split; [done|]. split; [done|].
  intros fuel' d'. destruct (le_lt_dec rounds fuel') as [Hle|Hgt].
  - rewrite (Hge fuel' Hle). simpl. congruence.
  - rewrite (Hlt fuel' Hgt). done.
Qed.

Example chain4_distances :
  shortest_paths_rounds 3 1 0 4 0 4 4 chain4 =
  Some ([0; 0; 0; 0;  1; 0; 0; 0;  2; 1; 0; 0;  3; 2; 1; 0], 3%nat).
Proof. vm_compute. reflexivity. Qed.

Lemma shortest_paths_correct_witness :
  1 <= 4 /\ 4 * 4 <= CInt.int_max /\ adjacency 4 chain4 = true /\
  (Z.to_nat (Z.log2_up 4) + 1 <= 3)%nat /\
  exists d,
    shortest_paths 3 1 0 4 0 4 4 chain4 = Some d /\
    len d = 4 * 4 /\
    (forall i j, 0 <= i < 4 -> 0 <= j < 4 ->
      (i = j -> entry 4 d i j = 0) /\
      (reachable 4 chain4 i j -> distance 4 chain4 i j (entry 4 d i j)) /\
      (~ reachable 4 chain4 i j -> entry 4 d i j = 0)) /\
    (forall fuel' d',
       shortest_paths fuel' 1 0 4 0 4 4 chain4 = Some d' -> d' = d).
Proof.
  assert (H1 : 1 <= 4) by lia.
  assert (H2 : 4 * 4 <= CInt.int_max) by (vm_compute; discriminate).
  assert (H3 : adjacency 4 chain4 = true) by reflexivity.
  assert (H4 : (Z.to_nat (Z.log2_up 4) + 1 <= 3)%nat) by (vm_compute; lia).
  exact (conj H1 (conj H2 (conj H3 (conj H4
    (shortest_paths_correct 4 chain4 1 3%nat H1 H2 H3 H4))))).
Defined.

(** C5 (round bound).  Under the same conditions the loop of
    [shortest_paths] terminates, and the number of rounds it executes is
    at least 1 and at most ceil(log2 n) + 1: with that much fuel the run
    returns, and [rounds] is the number of passes it takes (less fuel
    than [rounds] does not reach the end). *)
Theorem round_bound n a irank fuel :
  1 <= n -> n * n <= CInt.int_max -> adjacency n a = true ->
  (Z.to_nat (Z.log2_up n) + 1 <= fuel)%nat ->
  exists d rounds,
    shortest_paths_rounds fuel irank 0 n 0 n n a = Some (d, rounds) /\
    (1 <= rounds)%nat /\
    Z.of_nat rounds <= Z.log2_up n + 1 /\
    (forall fuel', (fuel' < rounds)%nat ->
       shortest_paths_rounds fuel' irank 0 n 0 n n a = None) /\
    (forall fuel', (rounds <= fuel')%nat ->
       shortest_paths_rounds fuel' irank 0 n 0 n n a = Some (d, rounds)).
Proof.
  intros Hn Hnn Hadj Hfuel.
  destruct (shortest_paths_run n a Hn Hnn Hadj irank fuel Hfuel)
    as (d & rounds & Hrun & H1 & H2 & _ & _ & Hlt & Hge).
  exists d, rounds. done.
Qed.

Lemma round_bound_witness :
  1 <= 4 /\ 4 * 4 <= CInt.int_max /\ adjacency 4 chain4 = true /\
  (Z.to_nat (Z.log2_up 4) + 1 <= 3)%nat /\
  exists d rounds,
    shortest_paths_rounds 3 1 0 4 0 4 4 chain4 = Some (d, rounds) /\
    (1 <= rounds)%nat /\
    Z.of_nat rounds <= Z.log2_up 4 + 1 /\
    (forall fuel', (fuel' < rounds)%nat ->
       shortest_paths_rounds fuel' 1 0 4 0 4 4 chain4 = None) /\
    (forall fuel', (rounds <= fuel')%nat ->
       shortest_paths_rounds fuel' 1 0 4 0 4 4 chain4 = Some (d, rounds)).
Proof.
  assert (H1 : 1 <= 4) by lia.
  assert (H2 : 4 * 4 <= CInt.int_max) by (vm_compute; discriminate).
  assert (H3 : adjacency 4 chain4 = true) by reflexivity.
  assert (H4 : (Z.to_nat (Z.log2_up 4) + 1 <= 3)%nat) by (vm_compute; lia).
  exact (conj H1 (conj H2 (conj H3 (conj H4
    (round_bound 4 chain4 1 3%nat H1 H2 H3 H4))))).
Defined.

(** ** Several processes *)

Section Reductions.

Lemma aget_zip_with op b1 b2 idx :
  len b1 = len b2 -> 0 <= idx < len b1 ->
  aget (zip_with op b1 b2) idx = op (aget b1 idx) (aget b2 idx).
Proof.
  unfold aget, len. intros Hlen Hidx.
  destruct (Z.ltb_spec idx 0); [lia|].
  rewrite lookup_zip_with.
  destruct (lookup_lt_is_Some_2 b1 (Z.to_nat idx) ltac:(lia)) as [x ->].
  destruct (lookup_lt_is_Some_2 b2 (Z.to_nat idx) ltac:(lia)) as [y ->].
  done.
Qed.

Lemma len_zip_with op b1 b2 :
  len b1 = len b2 -> len (zip_with op b1 b2) = len b1.
Proof. unfold len. intros H. rewrite length_zip_with. lia. Qed.

Lemma foldl_zip_with op m bs : forall b,
  len b = m -> Forall (fun b' => len b' = m) bs ->
  len (foldl (zip_with op) b bs) = m /\
  forall idx, 0 <= idx < m ->
    aget (foldl (zip_with op) b bs) idx =
    foldl op (aget b idx) ((fun b' => aget b' idx) <$> bs).
Proof.
  induction bs as [|b' bs IH]; intros b Hb Hbs; simpl; [done|].
  apply Forall_cons in Hbs as [Hb' Hbs].
  destruct (IH (zip_with op b b')) as [Hl He].
  { rewrite len_zip_with; congruence. }
  { done. }
  split; [done|]. intros idx Hidx. rewrite He by done.
  rewrite aget_zip_with by (congruence || lia). done.
Qed.

(* The reduction with MIN holds, in each cell, the least of the values the
   processes sent. *)
Lemma allreduce_min_spec m bufs :
  bufs <> [] -> Forall (fun b => len b = m) bufs ->
  len (allreduce Z.min bufs) = m /\
  forall idx, 0 <= idx < m ->
    aget (allreduce Z.min bufs) idx = zmin_list ((fun b => aget b idx) <$> bufs).
Proof.
  destruct bufs as [|b bs]; [done|]. intros _ Hall.
  apply Forall_cons in Hall as [Hb Hbs]. simpl.
  by apply foldl_zip_with.
Qed.

Lemma zip_with_idem (op : Z -> Z -> Z) (b : list Z) :
  (forall x, op x x = x) -> zip_with op b b = b.
Proof. intros Hop. induction b as [|x b IH]; simpl; [done|]. by rewrite Hop, IH. Qed.

(* A reduction of identical buffers with MAX or MIN gives the buffer back. *)
Lemma allreduce_replicate (op : Z -> Z -> Z) (k : nat) (b : list Z) :
  (forall x, op x x = x) ->
  allreduce op (replicate (S k) b) = b.
Proof.
  intros Hop. simpl. induction k as [|k IH]; simpl; [done|].
  by rewrite zip_with_idem.
Qed.

Lemma fmap_const_replicate {A B} (c : B) (l : list A) :
  (fun _ => c) <$> l = replicate (length l) c.
Proof. induction l as [|x l IH]; simpl; [done|]. by rewrite <- IH. Qed.

Lemma Forall2_zip_with_l {A B C} (R : A -> B -> Prop) (Q : A -> C -> Prop)
    (f : A -> B -> C) (l : list A) (k : list B) :
  Forall2 R l k -> (forall x y, R x y -> Q x (f x y)) ->
  Forall2 Q l (zip_with f l k).
Proof.
  intros H HQ. induction H as [|x y l k HR _ IH]; simpl; constructor; auto.
Qed.

End Reductions.

Section Mpi.
Import CInt.

Variable n : Z.
Hypothesis Hn : 1 <= n.
Hypothesis Hnn : n * n <= int_max.

Variable procs : list proc.
Hypothesis Hvalid : Forall (fun p => valid_tile_of n (p_tile p)) procs.
Hypothesis Hcover : forall i j, 0 <= i < n -> 0 <= j < n ->
  exists p, p ∈ procs /\ in_tile_of (p_tile p) i j.

(* The matrix every process holds when the loop starts. *)
Variable l0 : list Z.

Lemma proc_square_ok irank l p s :
  len l = n * n -> proc_rel n l0 l p s ->
  out_ok n l0 l (square irank 0 0 n n n l l).2 p (proc_square n p s).
Proof.
  intros Hlen (Hv & Hl & Hlen2 & He). destruct s as [lq lnq]. simpl in *.
  subst lq. unfold proc_square. simpl.
  destruct (round_spec n Hn Hnn irank l Hlen) as (_ & Hround & _).
  destruct (square_post n Hn Hnn (p_rank p) _ _ _ _ l lnq Hlen2 Hv)
    as (Hl' & Hin & Hout & Hflag).
  split; [done|]. split; [congruence|]. split.
  - intros i j Hi Hj. split.
    + intros Ht. rewrite Hin by done. rewrite Hround by done.
      unfold newval. destruct (He i j Hi Hj) as [Hin' _]. by rewrite (Hin' Ht).
    + intros Ht. rewrite Hout by done. by apply He.
  - destruct Hflag as [[Hd Hno]|[Hd (i & j & [Hi Hj] & Ht & Himp)]].
    + left. split; [done|]. intros i j Hi Hj Ht.
      specialize (Hno i j Hi Hj Ht). unfold improved in Hno.
      apply Z.ltb_ge in Hno. destruct (He i j Hi Hj) as [Hin' _].
      by rewrite <- (Hin' Ht).
    + right. split; [done|]. exists i, j. split; [done|]. split; [done|].
      unfold improved in Himp. apply Z.ltb_lt in Himp.
      destruct (He i j Hi Hj) as [Hin' _]. by rewrite <- (Hin' Ht).
Qed.

(** One round: the reductions give every process the flag and the matrix
    of the one-process round. *)
Lemma mpi_round irank l st :
  below n l0 l -> Forall2 (proc_rel n l0 l) procs st ->
  let outs := zip_with (proc_square n) procs st in
  let r := square irank 0 0 n n n l l in
  allreduce_int Z.min (outs.*1) = r.1 /\
  allreduce Z.min (outs.*2) = r.2 /\
  Forall2 (proc_rel n l0 r.2) procs ((fun o : Z * list Z => (r.2, o.2)) <$> outs) /\
  below n l0 r.2.
Proof.
  intros [Hlen Hbelow] Hrel outs r.
  assert (Houts : Forall2 (out_ok n l0 l r.2) procs outs).
  { eapply Forall2_zip_with_l; [exact Hrel|]. intros p s. by apply proc_square_ok. }
  destruct (round_spec n Hn Hnn irank l Hlen) as (Hlr & Hround & Hflag).
  fold r in Hlr, Hround, Hflag.
  assert (Hle : forall i j, 0 <= i < n -> 0 <= j < n ->
            entry n r.2 i j <= entry n l i j).
  { intros i j Hi Hj. rewrite Hround by done. lia. }
  assert (Hne : outs <> []).
  { destruct (Hcover 0 0 ltac:(lia) ltac:(lia)) as (p & Hp & _).
    apply list_elem_of_lookup in Hp as [k Hk].
    destruct (Forall2_lookup_l _ _ _ _ _ Houts Hk) as (o & Ho & _).
    intros Hnil. rewrite Hnil in Ho. done. }
  split; [|split; [|split]].
  - (* the flag *)
    change (allreduce_int Z.min (outs.*1)) with (zmin_list (outs.*1)).
    assert (Hne1 : outs.*1 <> []).
    { intros H. apply fmap_nil_inv in H. done. }
    pose proof (zmin_list_in _ Hne1) as Hin.
    apply list_elem_of_fmap in Hin as (o & Ho & Hin).
    apply list_elem_of_lookup in Hin as [k Hk].
    destruct (Forall2_lookup_r _ _ _ _ _ Houts Hk) as (p & Hp & (_ & _ & _ & Hf)).
    destruct Hflag as [[-> Hno]|[-> (i & j & [Hi Hj] & Himp)]].
    + destruct Hf as [[H1 _]|[_ (i & j & [Hi Hj] & _ & Himp)]]; [congruence|].
      specialize (Hno i j Hi Hj). lia.
    + destruct (Hcover i j Hi Hj) as (p' & Hp' & Ht).
      apply list_elem_of_lookup in Hp' as [k' Hk'].
      destruct (Forall2_lookup_l _ _ _ _ _ Houts Hk')
        as (o' & Ho' & (_ & _ & _ & Hf')).
      assert (Ho'0 : o'.1 = 0).
      { destruct Hf' as [[_ Hno]|[H0 _]]; [|done].
        specialize (Hno i j Hi Hj Ht). lia. }
      assert (Hle0 : zmin_list (outs.*1) <= 0).
      { rewrite <- Ho'0. apply zmin_list_le. apply list_elem_of_fmap.
        exists o'. split; [done|]. apply list_elem_of_lookup. eauto. }
      destruct Hf as [[H1 _]|[H0 _]]; [|congruence].
      rewrite Ho, H1 in Hle0. lia.
  - (* the matrix *)
    destruct (allreduce_min_spec (n * n) (outs.*2)) as [Hlm Hm].
    { intros H. apply fmap_nil_inv in H. done. }
    { apply Forall_fmap. apply Forall_forall. intros o Ho.
      apply list_elem_of_lookup in Ho as [k Hk].
      destruct (Forall2_lookup_r _ _ _ _ _ Houts Hk) as (p & _ & (_ & Hl & _)).
      done. }
    apply (matrix_ext n Hn); [done..|]. intros i j Hi Hj.
    unfold entry at 1. rewrite Hm by nia.
    rewrite <- list_fmap_compose.
    change ((fun b => aget b (j * n + i)) ∘ snd)
      with (fun o : Z * list Z => entry n o.2 i j).
    assert (Hall : forall o, o ∈ outs -> entry n r.2 i j <= entry n o.2 i j).
    { intros o Ho. apply list_elem_of_lookup in Ho as [k Hk].
      destruct (Forall2_lookup_r _ _ _ _ _ Houts Hk) as (p & _ & (_ & _ & He & _)).
      destruct (He i j Hi Hj) as [Hin Hout].
      destruct (decide (in_tile_of (p_tile p) i j)) as [Ht|Ht].
      - rewrite Hin by done. lia.
      - rewrite Hout by done. specialize (Hle i j Hi Hj).
        specialize (Hbelow i j Hi Hj). lia. }
    apply Z.le_antisymm.
    + destruct (Hcover i j Hi Hj) as (p & Hp & Ht).
      apply list_elem_of_lookup in Hp as [k Hk].
      destruct (Forall2_lookup_l _ _ _ _ _ Houts Hk)
        as (o & Ho & (_ & _ & He & _)).
      destruct (He i j Hi Hj) as [Hin _]. rewrite <- (Hin Ht).
      apply zmin_list_le. apply list_elem_of_fmap. exists o. split; [done|].
      apply list_elem_of_lookup. eauto.
    + assert (Hne2 : (fun o : Z * list Z => entry n o.2 i j) <$> outs <> []).
      { intros H. apply fmap_nil_inv in H. done. }
      pose proof (zmin_list_in _ Hne2) as Hin.
      apply list_elem_of_fmap in Hin as (o & -> & Hin). by apply Hall.
  - (* the buffers of the next round *)
    apply Forall2_fmap_r. eapply Forall2_impl; [exact Houts|].
    intros p o (Hv & Hl & He & _). simpl. done.
  - split; [done|]. intros i j Hi Hj.
    specialize (Hle i j Hi Hj). specialize (Hbelow i j Hi Hj). lia.
Qed.

(** The loop of the several processes goes round by round with the loop
    of one process on the whole matrix. *)
Lemma mpi_loop_lockstep irank : forall fuel l st,
  below n l0 l -> Forall2 (proc_rel n l0 l) procs st ->
  mpi_loop fuel n procs st =
  (fun r : list Z * nat => (replicate (length procs) r.1, r.2))
    <$> sp_loop fuel irank 0 0 n n n l l.
Proof.
  induction fuel as [|fuel IH]; intros l st Hb Hrel; [done|].
  simpl.
  destruct (mpi_round irank l st Hb Hrel) as (Hflag & Hmat & Hrel' & Hb').
  rewrite Hflag, Hmat.
  assert (Hlen : length (zip_with (proc_square n) procs st) = length procs).
  { rewrite length_zip_with. apply Forall2_length in Hrel. lia. }
  destruct (square irank 0 0 n n n l l) as [mydone lnew]. simpl in *.
  destruct (mydone =? 0).
  - rewrite (IH lnew _ Hb' Hrel').
    destruct (sp_loop fuel irank 0 0 n n n lnew lnew) as [[l' r]|]; done.
  - simpl. rewrite <- list_fmap_compose.
    change (fst ∘ _) with (fun _ : Z * list Z => lnew).
    rewrite fmap_const_replicate, Hlen. done.
Qed.

End Mpi.

(** ** The process grid of [main] *)

Section Grid.
Import CInt.

Variables n gx gy : Z.
Hypothesis Hn : 1 <= n <= int_max.
Hypothesis Hgx : 1 <= gx.
Hypothesis Hgy : 1 <= gy.
Hypothesis Hcount : gx * gy <= int_max.

Lemma grid_procs_length : length (grid_procs n gx gy) = Z.to_nat (gx * gy).
Proof. unfold grid_procs. by rewrite length_fmap, length_seq. Qed.

Lemma grid_procs_elem p :
  p ∈ grid_procs n gx gy <->
  exists c0 c1, (0 <= c0 < gx /\ 0 <= c1 < gy) /\
    p = Proc ((c0 * gy + c1) +i 1) (main_tile n gx gy c0 c1).
Proof.
  unfold grid_procs. rewrite list_elem_of_fmap. split.
  - intros (rank & -> & Hin). apply elem_of_seq in Hin.
    exists (Z.of_nat rank / gy), (Z.of_nat rank mod gy).
    pose proof (Z.mod_pos_bound (Z.of_nat rank) gy ltac:(lia)).
    pose proof (Z.div_mod (Z.of_nat rank) gy ltac:(lia)).
    assert (0 <= Z.of_nat rank / gy) by (apply Z.div_pos; lia).
    assert (Z.of_nat rank / gy < gx) by (apply Z.div_lt_upper_bound; nia).
    split; [lia|]. unfold cart_coords. f_equal. f_equal. lia.
  - intros (c0 & c1 & [Hc0 Hc1] & ->).
    exists (Z.to_nat (c0 * gy + c1)). split.
    + unfold cart_coords. rewrite Z2Nat.id by nia.
      rewrite <- (Z.div_unique (c0 * gy + c1) gy c0 c1) by lia.
      rewrite <- (Z.mod_unique (c0 * gy + c1) gy c0 c1) by lia. done.
    + apply elem_of_seq. nia.
Qed.

Lemma main_tile_coords c0 c1 :
  0 <= c0 < gx -> 0 <= c1 < gy ->
  main_tile n gx gy c0 c1 =
  Tile (axis_upto n gx c0) (axis_upto n gx (c0 + 1))
       (axis_upto n gy c1) (axis_upto n gy (c1 + 1)).
Proof.
  intros Hc0 Hc1.
  pose proof (main_tile_eq n gx gy (c0 + 1) (c1 + 1)) as H.
  replace (c0 + 1 - 1) with c0 in H by lia.
  replace (c1 + 1 - 1) with c1 in H by lia.
  apply H; nia.
Qed.

Lemma grid_procs_valid :
  Forall (fun p => valid_tile_of n (p_tile p)) (grid_procs n gx gy).
Proof.
  apply Forall_forall. intros p Hp.
  apply grid_procs_elem in Hp as (c0 & c1 & [Hc0 Hc1] & ->). simpl.
  rewrite main_tile_coords by done. unfold valid_tile_of, valid_tile. simpl.
  assert (Hx : 1 <= gx <= int_max) by nia.
  assert (Hy : 1 <= gy <= int_max) by nia.
  assert (Hn0 : 0 <= n <= int_max) by lia.
  pose proof (axis_upto_mono n gx Hn0 Hx 0 c0 ltac:(lia)).
  pose proof (axis_upto_mono n gx Hn0 Hx c0 (c0 + 1) ltac:(lia)).
  pose proof (axis_upto_mono n gx Hn0 Hx (c0 + 1) gx ltac:(lia)).
  pose proof (axis_upto_mono n gy Hn0 Hy 0 c1 ltac:(lia)).
  pose proof (axis_upto_mono n gy Hn0 Hy c1 (c1 + 1) ltac:(lia)).
  pose proof (axis_upto_mono n gy Hn0 Hy (c1 + 1) gy ltac:(lia)).
  rewrite axis_upto_0, axis_upto_g in * by done. lia.
Qed.

Lemma grid_procs_cover i j :
  0 <= i < n -> 0 <= j < n ->
  exists p, p ∈ grid_procs n gx gy /\ in_tile_of (p_tile p) i j.
Proof.
  intros Hi Hj.
  assert (Hx : 1 <= gx <= int_max) by nia.
  assert (Hy : 1 <= gy <= int_max) by nia.
  assert (Hn0 : 0 <= n <= int_max) by lia.
  destruct (axis_owner n gx Hn0 Hx i Hi) as (ip & Hip & Hri).
  destruct (axis_owner n gy Hn0 Hy j Hj) as (jp & Hjp & Hrj).
  eexists. split.
  - apply grid_procs_elem. exists (ip - 1), (jp - 1). split; [lia|done].
  - simpl. rewrite main_tile_coords by lia.
    unfold in_tile_of, in_tile. simpl.
    replace (ip - 1 + 1) with ip by lia. replace (jp - 1 + 1) with jp by lia.
    done.
Qed.

End Grid.

(** ** Several processes against one *)

Section Refinement.
Import CInt.

Variable n : Z.
Hypothesis Hn : 1 <= n.
Hypothesis Hnn : n * n <= int_max.

Variable procs : list proc.
Hypothesis Hvalid : Forall (fun p => valid_tile_of n (p_tile p)) procs.
Hypothesis Hcover : forall i j, 0 <= i < n -> 0 <= j < n ->
  exists p, p ∈ procs /\ in_tile_of (p_tile p) i j.

Lemma procs_nonempty : exists k, length procs = S k.
Proof.
  destruct (Hcover 0 0 ltac:(lia) ltac:(lia)) as (p & Hp & _).
  destruct procs as [|p' ps]; [by apply elem_of_nil in Hp|].
  simpl. eauto.
Qed.

Lemma proc_init_all (ps : list proc) a l0 :
  init_dist 0 0 n n n a = Some l0 ->
  mapM id (zip_with (proc_init n) ps (replicate (length ps) a)) =
  Some (replicate (length ps) l0).
Proof.
  intros Hinit. induction ps as [|p ps IH]; simpl; [done|].
  assert (Hp : proc_init n p a = Some l0) by exact Hinit.
  rewrite Hp. simpl. rewrite IH. done.
Qed.

Lemma proc_deinfinitize_all (ps : list proc) l :
  zip_with (proc_deinfinitize n) ps (replicate (length ps) l) =
  replicate (length ps) (deinfinitize 0 n 0 n n l).
Proof.
  induction ps as [|p ps IH]; simpl; [done|]. by rewrite IH.
Qed.

Lemma proc_rel_start (ps : list proc) l0 :
  len l0 = n * n ->
  Forall (fun p => valid_tile_of n (p_tile p)) ps ->
  Forall2 (proc_rel n l0 l0) ps (replicate (length ps) (l0, l0)).
Proof.
  intros Hlen. induction 1 as [|p ps Hp _ IH]; simpl; constructor; [|done].
  split; [done|]. split; [done|]. split; [done|]. intros i j _ _. done.
Qed.

(** With any tiles that cover the matrix, every process ends with the
    matrix of the one-process run, whatever the fuel. *)
Lemma mpi_refines_single fuel a :
  len a = n * n ->
  shortest_paths_mpi fuel n procs (replicate (length procs) a) =
  replicate (length procs) <$> shortest_paths fuel 1 0 n 0 n n a.
Proof.
  intros Hlen. unfold shortest_paths_mpi, shortest_paths, shortest_paths_rounds.
  destruct (init_dist_spec n Hn Hnn 0 0 n n a Hlen) as (l0 & Hinit & Hl0 & _).
  rewrite (proc_init_all procs a l0 Hinit), Hinit. simpl.
  destruct procs_nonempty as [k Hk].
  assert (Hmax : allreduce Z.max (replicate (length procs) l0) = l0).
  { rewrite Hk. apply allreduce_replicate, Z.max_id. }
  rewrite Hmax.
  rewrite fmap_replicate.
  rewrite (mpi_loop_lockstep n Hn Hnn procs Hcover l0 1 fuel l0).
  - destruct (sp_loop fuel 1 0 0 n n n l0 l0) as [[l' r]|]; simpl; [|done].
    by rewrite proc_deinfinitize_all.
  - split; [done|]. intros; lia.
  - by apply proc_rel_start.
Qed.

End Refinement.

(** C2 (grid independence).  For n >= 1 with n*n an int, an adjacency
    matrix [a] that every process holds, and a gx-by-gy grid of processes
    (gx, gy >= 1, their product an int), each with the tile [main] computes
    for it: the round-based run of the gx*gy processes returns, every
    process ends with the very matrix the one-process run returns, and so
    with the same fletcher16 checksum. *)
Theorem grid_independence n a gx gy fuel :
  1 <= n -> n * n <= CInt.int_max -> adjacency n a = true ->
  1 <= gx -> 1 <= gy -> gx * gy <= CInt.int_max ->
  (Z.to_nat (Z.log2_up n) + 1 <= fuel)%nat ->
  exists d ds,
    shortest_paths fuel 1 0 n 0 n n a = Some d /\
    shortest_paths_mpi fuel n (grid_procs n gx gy)
      (replicate (length (grid_procs n gx gy)) a) = Some ds /\
    length ds = Z.to_nat (gx * gy) /\
    forall d', d' ∈ ds ->
      d' = d /\ fletcher16 d' (n *i n) = fletcher16 d (n *i n).
Proof.
  intros Hn Hnn Hadj Hgx Hgy Hcount Hfuel.
  destruct (shortest_paths_run n a Hn Hnn Hadj 1 fuel Hfuel)
    as (d & rounds & Hrun & _).
  assert (Hd : shortest_paths fuel 1 0 n 0 n n a = Some d).
  { unfold shortest_paths. by rewrite Hrun. }
  assert (Hn' : 1 <= n <= CInt.int_max).
  { pose proof (dim_bound n Hn Hnn). unfold CInt.int_max. lia. }
  pose proof (grid_procs_valid n gx gy Hn' Hgx Hgy Hcount) as Hvalid.
  pose proof (grid_procs_cover n gx gy Hn' Hgx Hgy Hcount) as Hcover.
  apply adjacency_spec in Hadj as (Hlen & _).
  pose proof (mpi_refines_single n Hn Hnn _ Hvalid Hcover fuel a Hlen) as Hmpi.
  rewrite Hd in Hmpi. simpl in Hmpi.
  exists d, (replicate (length (grid_procs n gx gy)) d).
  split; [done|]. split; [done|]. split.
  - by rewrite length_replicate, grid_procs_length.
  - intros d' Hin. apply elem_of_replicate in Hin as [-> _]. done.
Qed.

Example chain4_grid22 :
  shortest_paths_mpi 3 4 (grid_procs 4 2 2) (replicate 4 chain4) =
  Some (replicate 4 [0; 0; 0; 0;  1; 0; 0; 0;  2; 1; 0; 0;  3; 2; 1; 0]).
Proof. vm_compute. reflexivity. Qed.

Example chain4_grid31_tiles :
  p_tile <$> grid_procs 4 3 1 = [Tile 0 2 0 4; Tile 2 3 0 4; Tile 3 4 0 4].
Proof. vm_compute. reflexivity. Qed.

Example chain4_checksum :
  fletcher16 [0; 0; 0; 0;  1; 0; 0; 0;  2; 1; 0; 0;  3; 2; 1; 0] 16 = 14090.
Proof. vm_compute. reflexivity. Qed.

Lemma grid_independence_witness :
  1 <= 4 /\ 4 * 4 <= CInt.int_max /\ adjacency 4 chain4 = true /\
  1 <= 2 /\ 1 <= 2 /\ 2 * 2 <= CInt.int_max /\
  (Z.to_nat (Z.log2_up 4) + 1 <= 3)%nat /\
  exists d ds,
    shortest_paths 3 1 0 4 0 4 4 chain4 = Some d /\
    shortest_paths_mpi 3 4 (grid_procs 4 2 2)
      (replicate (length (grid_procs 4 2 2)) chain4) = Some ds /\
    length ds = Z.to_nat (2 * 2) /\
    forall d', d' ∈ ds ->
      d' = d /\ fletcher16 d' (4 *i 4) = fletcher16 d (4 *i 4).
Proof.
  assert (H1 : 1 <= 4) by lia.
  assert (H2 : 4 * 4 <= CInt.int_max) by (vm_compute; discriminate).
  assert (H3 : adjacency 4 chain4 = true) by reflexivity.
  assert (H4 : 1 <= 2) by lia.
  assert (H5 : 2 * 2 <= CInt.int_max) by (vm_compute; discriminate).
  assert (H6 : (Z.to_nat (Z.log2_up 4) + 1 <= 3)%nat) by (vm_compute; lia).
  exact (conj H1 (conj H2 (conj H3 (conj H4 (conj H4 (conj H5 (conj H6
    (grid_independence 4 chain4 2 2 3%nat H1 H2 H3 H4 H4 H5 H6)))))))).
Defined.

(* The one-process model is the run of a single process that owns the
   whole matrix. *)
Lemma mpi_one_process n a fuel :
  1 <= n -> n * n <= CInt.int_max -> len a = n * n ->
  shortest_paths_mpi fuel n [Proc 1 (Tile 0 n 0 n)] [a] =
  (fun d => [d]) <$> shortest_paths fuel 1 0 n 0 n n a.
Proof.
  intros Hn Hnn Hlen.
  apply (mpi_refines_single n Hn Hnn [Proc 1 (Tile 0 n 0 n)]); [| |done].
  - apply Forall_singleton. unfold valid_tile_of, valid_tile. simpl. lia.
  - intros i j Hi Hj. exists (Proc 1 (Tile 0 n 0 n)).
    split; [by apply list_elem_of_singleton|].
    unfold in_tile_of, in_tile. simpl. lia.
Qed.

(** * Further properties of the code *)

(** ** [square]: monotonicity and the meaning of the flag *)

(** X1.  [square] never increases an entry of [lnew]; its flag is 1
    exactly when it leaves [lnew] as it was; and when [lnew] agrees with
    [l] on the tile at entry, the flag is 1 exactly when the tile of the
    new [lnew] is identical to that of [l] (the comment of lines 40-41). *)
Theorem square_flag_unchanged irank imin_ jmin_ imax_ jmax_ n l lnew :
  1 <= n -> n * n <= CInt.int_max -> len lnew = n * n ->
  valid_tile n imin_ imax_ jmin_ jmax_ ->
  (forall i j, 0 <= i < n -> 0 <= j < n ->
     entry n (square irank imin_ jmin_ imax_ jmax_ n l lnew).2 i j <=
     entry n lnew i j) /\
  ((square irank imin_ jmin_ imax_ jmax_ n l lnew).1 = 1 <->
   (square irank imin_ jmin_ imax_ jmax_ n l lnew).2 = lnew) /\
  ((forall i j, in_tile imin_ imax_ jmin_ jmax_ i j ->
      entry n lnew i j = entry n l i j) ->
   ((square irank imin_ jmin_ imax_ jmax_ n l lnew).1 = 1 <->
    forall i j, in_tile imin_ imax_ jmin_ jmax_ i j ->
      entry n (square irank imin_ jmin_ imax_ jmax_ n l lnew).2 i j =
      entry n l i j)).
Proof.
  intros Hn Hnn Hlen Hv.
  destruct (square_post n Hn Hnn irank imin_ jmin_ imax_ jmax_ l lnew Hlen Hv)
    as (Hl & Hin & Hout & Hflag).
  assert (Hrange : forall i j, in_tile imin_ imax_ jmin_ jmax_ i j ->
            0 <= i < n /\ 0 <= j < n).
  { intros i j [? ?]. destruct Hv as [(? & ? & ?) (? & ? & ?)]. lia. }
  destruct (square irank imin_ jmin_ imax_ jmax_ n l lnew) as [d lnew'].
  simpl in *.
  assert (Hle : forall i j, 0 <= i < n -> 0 <= j < n ->
            entry n lnew' i j <= entry n lnew i j).
  { intros i j Hi Hj.
    destruct (decide (in_tile imin_ imax_ jmin_ jmax_ i j)) as [Ht|Ht].
    - rewrite Hin by done. unfold newval. lia.
    - rewrite Hout by done. lia. }
  assert (Hiff : d = 1 <->
            forall i j, in_tile imin_ imax_ jmin_ jmax_ i j ->
              entry n lnew' i j = entry n lnew i j).
  { destruct Hflag as [[-> Hno]|[-> (i & j & [Hi Hj] & Ht & Himp)]].
    - split; [|done]. intros _ i j Ht. destruct (Hrange i j Ht) as [Hi Hj].
      rewrite Hin by done. specialize (Hno i j Hi Hj Ht).
      unfold improved in Hno. apply Z.ltb_ge in Hno. unfold newval. lia.
    - split; [done|]. intros Hall. specialize (Hall i j Ht).
      rewrite Hin in Hall by done. unfold improved in Himp.
      apply Z.ltb_lt in Himp. unfold newval in Hall. lia. }
  split; [done|]. split.
  - rewrite Hiff. split.
    + intros Hall. apply (matrix_ext n Hn); [congruence|done|].
      intros i j Hi Hj.
      destruct (decide (in_tile imin_ imax_ jmin_ jmax_ i j)) as [Ht|Ht];
        [by apply Hall|by apply Hout].
    + by intros ->.
  - intros Hagree. rewrite Hiff. split; intros Hall i j Ht.
    + rewrite Hall by done. by apply Hagree.
    + rewrite Hall by done. symmetry. by apply Hagree.
Qed.

Lemma square_flag_unchanged_witness :
  1 <= 2 /\ 2 * 2 <= CInt.int_max /\ len [0; 1; 1; 0] = 2 * 2 /\
  valid_tile 2 0 2 0 2 /\
  ((square 1 0 0 2 2 2 [0; 1; 1; 0] [0; 1; 1; 0]).1 = 1 <->
   (square 1 0 0 2 2 2 [0; 1; 1; 0] [0; 1; 1; 0]).2 = [0; 1; 1; 0]).
Proof.
  assert (H1 : 1 <= 2) by lia.
  assert (H2 : 2 * 2 <= CInt.int_max) by (vm_compute; discriminate).
  assert (H3 : len [0; 1; 1; 0] = 2 * 2) by reflexivity.
  assert (H4 : valid_tile 2 0 2 0 2) by (unfold valid_tile; lia).
  exact (conj H1 (conj H2 (conj H3 (conj H4
    (proj1 (proj2 (square_flag_unchanged 1 0 0 2 2 2 [0; 1; 1; 0] [0; 1; 1; 0]
                     H1 H2 H3 H4))))))).
Defined.

(** ** The loop of [shortest_paths] on any matrix *)

Lemma sp_loop_after_rounds irank n : forall fuel l l' rounds,
  sp_loop fuel irank 0 0 n n n l l = Some (l', rounds) ->
  l' = after_rounds irank n rounds l.
Proof.
  induction fuel as [|fuel IH]; intros l l' rounds H; [done|].
  simpl in H. unfold after_rounds.
  destruct (square irank 0 0 n n n l l) as [mydone lnew] eqn:Hsq.
  destruct (mydone =? 0).
  - destruct (sp_loop fuel irank 0 0 n n n lnew lnew) as [[l2 r2]|] eqn:Hrec;
      simpl in H; [|done].
    injection H as <- <-. rewrite Nat.iter_succ_r, Hsq. simpl.
    by apply IH.
  - injection H as <- <-. simpl. by rewrite Hsq.
Qed.

(** X2.  Whatever the matrix of n*n ints the loop starts from (weights,
    not only 0/1 entries): when the loop leaves, its matrix is the one
    after [rounds] rounds of [square], no entry is above the entry it
    started with, every entry (i,j) is at most the int sum of the entries
    (i,k) and (k,j), and one more round reports 1 and changes nothing. *)
Theorem sp_loop_fixpoint irank n fuel l l' rounds :
  1 <= n -> n * n <= CInt.int_max -> len l = n * n ->
  sp_loop fuel irank 0 0 n n n l l = Some (l', rounds) ->
  l' = after_rounds irank n rounds l /\
  len l' = n * n /\
  (forall i j, 0 <= i < n -> 0 <= j < n -> entry n l' i j <= entry n l i j) /\
  (forall i j k, 0 <= i < n -> 0 <= j < n -> 0 <= k < n ->
     entry n l' i j <= cand n l' i j k) /\
  square irank 0 0 n n n l' l' = (1, l').
Proof.
  intros Hn Hnn Hlen Hrun. split; [by eapply sp_loop_after_rounds|].
  revert l l' rounds Hlen Hrun.
  induction fuel as [|fuel IH]; intros l l' rounds Hlen Hrun; [done|].
  simpl in Hrun.
  destruct (round_spec n Hn Hnn irank l Hlen) as (Hl1 & He & Hflag).
  pose proof (round_fixed n Hn Hnn irank l Hlen) as Hfix.
  destruct (square irank 0 0 n n n l l) as [mydone l1] eqn:Hsq. simpl in *.
  destruct (Z.eqb_spec mydone 0) as [H0|H0].
  - destruct (sp_loop fuel irank 0 0 n n n l1 l1) as [[l2 r2]|] eqn:Hrec;
      simpl in Hrun; [|done].
    injection Hrun as <- <-.
    destruct (IH l1 l2 r2 Hl1 Hrec) as (Hl2 & Hle & Hclosed & Hagain).
    split; [done|]. split; [|done].
    intros i j Hi Hj. specialize (Hle i j Hi Hj).
    rewrite He in Hle by done. lia.
  - injection Hrun as <- <-. specialize (Hfix H0). subst l1.
    destruct Hflag as [[-> Hno]|[-> _]]; [|done].
    split; [done|]. split; [intros; lia|]. split; [|done].
    intros i j k Hi Hj Hk. specialize (Hno i j Hi Hj).
    pose proof (minplus_le n l i j k Hk). lia.
Qed.

Lemma sp_loop_fixpoint_witness :
  1 <= 2 /\ 2 * 2 <= CInt.int_max /\ len [0; 5; 7; 0] = 2 * 2 /\
  sp_loop 2 1 0 0 2 2 2 [0; 5; 7; 0] [0; 5; 7; 0] = Some ([0; 5; 7; 0], 1%nat) /\
  square 1 0 0 2 2 2 [0; 5; 7; 0] [0; 5; 7; 0] = (1, [0; 5; 7; 0]).
Proof.
  assert (H1 : 1 <= 2) by lia.
  assert (H2 : 2 * 2 <= CInt.int_max) by (vm_compute; discriminate).
  assert (H3 : len [0; 5; 7; 0] = 2 * 2) by reflexivity.
  assert (H4 : sp_loop 2 1 0 0 2 2 2 [0; 5; 7; 0] [0; 5; 7; 0] =
               Some ([0; 5; 7; 0], 1%nat)) by reflexivity.
  exact (conj H1 (conj H2 (conj H3 (conj H4
    (proj2 (proj2 (proj2 (proj2
      (sp_loop_fixpoint 1 2 2 [0; 5; 7; 0] [0; 5; 7; 0] 1%nat
         H1 H2 H3 H4))))))))).
Defined.

(** ** The matrix after s rounds *)

Section RoundsExact.
Import CInt.

Variable n : Z.
Variable a : list Z.
Hypothesis Hn : 1 <= n.
Hypothesis Hnn : n * n <= int_max.
Hypothesis Hadj : adjacency n a = true.

(* A finite entry after s rounds is at most 2^s. *)
Let short (s : nat) (l : list Z) : Prop :=
  forall i j, 0 <= i < n -> 0 <= j < n ->
    entry n l i j <> n + 1 -> entry n l i j <= Z.of_nat (2 ^ s).

Lemma round_short irank s l :
  dist_inv n a s l -> short s l ->
  short (S s) (square irank 0 0 n n n l l).2.
Proof.
  intros (Hlen & Hb & _) Hshort i j Hi Hj.
  destruct (round_spec n Hn Hnn irank l Hlen) as (_ & He & _).
  rewrite He by done.
  destruct (minplus_attained n l i j Hn) as (k & Hk & ->).
  rewrite (cand_exact n Hn Hnn) by done.
  pose proof (Hb i j Hi Hj). pose proof (Hb i k Hi Hk).
  pose proof (Hb k j Hk Hj).
  assert (Hpow : Z.of_nat (2 ^ S s) = 2 * Z.of_nat (2 ^ s)).
  { rewrite Nat.pow_succ_r'. lia. }
  rewrite Hpow.
  destruct (Z.min_spec (entry n l i j) (entry n l i k + entry n l k j))
    as [[Hlt ->]|[Hge ->]]; intros Hne.
  - specialize (Hshort i j Hi Hj Hne). lia.
  - pose proof (Hshort i k Hi Hk ltac:(lia)).
    pose proof (Hshort k j Hk Hj ltac:(lia)). lia.
Qed.

Lemma after_rounds_inv irank l0 s :
  dist_inv n a 0 l0 -> short 0 l0 ->
  dist_inv n a s (after_rounds irank n s l0) /\
  short s (after_rounds irank n s l0).
Proof.
  intros H0 Hs0. induction s as [|s [IH1 IH2]]; [done|].
  unfold after_rounds in *. simpl. split.
  - by apply round_inv.
  - by apply round_short.
Qed.

Lemma after_rounds_exact irank imin_ jmin_ imax_ jmax_ l0 s i j :
  init_dist imin_ jmin_ imax_ jmax_ n a = Some l0 ->
  0 <= i < n -> 0 <= j < n ->
  (forall d, distance n a i j d -> d <= Z.of_nat (2 ^ s) ->
     entry n (after_rounds irank n s l0) i j = d) /\
  ((forall len, walk n a i j len -> (2 ^ s < len)%nat) ->
     entry n (after_rounds irank n s l0) i j = n + 1).
Proof.
  intros Hinit Hi Hj.
  destruct (init_inv n a Hn Hnn Hadj imin_ jmin_ imax_ jmax_) as (l0' & Hinit' & H0).
  rewrite Hinit in Hinit'. injection Hinit' as <-.
  assert (Hs0 : short 0 l0).
  { intros i' j' Hi' Hj' Hne.
    pose proof (adjacency_spec n a) as [Hspec _].
    destruct (Hspec Hadj) as (Hlen & H01 & _).
    destruct (init_dist_spec n Hn Hnn imin_ jmin_ imax_ jmax_ a Hlen)
      as (l0' & Hinit' & _ & He).
    rewrite Hinit in Hinit'. injection Hinit' as <-.
    rewrite He in * by done. simpl.
    destruct (i' =? j'); [lia|].
    destruct (H01 i' j' Hi' Hj') as [Hz|Hz]; rewrite Hz in *; simpl in *; lia. }
  destruct (after_rounds_inv irank l0 s H0 Hs0)
    as [(Hlen & Hb & Hsound & Hcompl) Hshort].
  set (l := after_rounds irank n s l0) in *.
  split.
  - intros d (len & -> & Hw & Hmin) Hd.
    pose proof (Hcompl i j len Hw ltac:(lia)) as Hle.
    destruct (walk_short n a i j len Hw) as (len' & _ & Hshort' & Hw').
    pose proof (Hmin len' Hw'). pose proof (Hb i j Hi Hj).
    assert (Hne : entry n l i j <> n + 1) by lia.
    pose proof (Hmin _ (Hsound i j Hi Hj Hne)). lia.
  - intros Hlong. destruct (decide (entry n l i j = n + 1)) as [|Hne]; [done|].
    exfalso. pose proof (Hlong _ (Hsound i j Hi Hj Hne)).
    pose proof (Hshort i j Hi Hj Hne). pose proof (Hb i j Hi Hj). lia.
Qed.

End RoundsExact.

(** X3.  The recurrence of the header comment (lines 13-24): after s
    rounds on the distance matrix of an adjacency matrix, entry (i,j) is
    the length of the shortest path from i to j when that is at most 2^s,
    and is n+1 when every path from i to j has more than 2^s edges (or
    there is none). *)
Theorem rounds_recurrence irank imin_ jmin_ imax_ jmax_ n a l0 s i j :
  1 <= n -> n * n <= CInt.int_max -> adjacency n a = true ->
  init_dist imin_ jmin_ imax_ jmax_ n a = Some l0 ->
  0 <= i < n -> 0 <= j < n ->
  (forall d, distance n a i j d -> d <= Z.of_nat (2 ^ s) ->
     entry n (after_rounds irank n s l0) i j = d) /\
  ((forall len, walk n a i j len -> (2 ^ s < len)%nat) ->
     entry n (after_rounds irank n s l0) i j = n + 1).
Proof.
  intros Hn Hnn Hadj. by apply after_rounds_exact.
Qed.

Example chain4_after_1_round :
  after_rounds 1 4 1 [0; 5; 5; 5;  1; 0; 5; 5;  5; 1; 0; 5;  5; 5; 1; 0] =
  [0; 5; 5; 5;  1; 0; 5; 5;  2; 1; 0; 5;  5; 2; 1; 0].
Proof. vm_compute. reflexivity. Qed.

Lemma rounds_recurrence_witness :
  1 <= 4 /\ 4 * 4 <= CInt.int_max /\ adjacency 4 chain4 = true /\
  init_dist 0 0 4 4 4 chain4 =
    Some [0; 5; 5; 5;  1; 0; 5; 5;  5; 1; 0; 5;  5; 5; 1; 0] /\
  0 <= 0 < 4 /\ 0 <= 3 < 4 /\
  ((forall len, walk 4 chain4 0 3 len -> (2 ^ 1 < len)%nat) ->
     entry 4 (after_rounds 1 4 1
       [0; 5; 5; 5;  1; 0; 5; 5;  5; 1; 0; 5;  5; 5; 1; 0]) 0 3 = 4 + 1).
Proof.
  assert (H1 : 1 <= 4) by lia.
  assert (H2 : 4 * 4 <= CInt.int_max) by (vm_compute; discriminate).
  assert (H3 : adjacency 4 chain4 = true) by reflexivity.
  assert (H4 : init_dist 0 0 4 4 4 chain4 =
    Some [0; 5; 5; 5;  1; 0; 5; 5;  5; 1; 0; 5;  5; 5; 1; 0]) by reflexivity.
  assert (H5 : 0 <= 0 < 4) by lia.
  assert (H6 : 0 <= 3 < 4) by lia.
  exact (conj H1 (conj H2 (conj H3 (conj H4 (conj H5 (conj H6
    (proj2 (rounds_recurrence 1 0 0 4 4 4 chain4 _ 1%nat 0 3
              H1 H2 H3 H4 H5 H6)))))))).
Defined.

(** ** [infinitize] and [deinfinitize] back and forth *)

(** X4.  [deinfinitize], whatever tile bounds it is given, turns every
    entry equal to n+1 into 0 and leaves the others; after [infinitize] it
    gives the matrix back exactly when no entry was n+1 (so for every 0/1
    matrix), and [infinitize] after it gives the matrix back exactly when
    no entry was 0. *)
Theorem infinity_round_trip imin_ jmin_ imax_ jmax_ n l :
  1 <= n -> n * n <= CInt.int_max -> len l = n * n ->
  (forall idx, 0 <= idx < n * n ->
     aget (deinfinitize imin_ jmin_ imax_ jmax_ n l) idx =
     if aget l idx =? n + 1 then 0 else aget l idx) /\
  (deinfinitize imin_ jmin_ imax_ jmax_ n
     (infinitize imin_ jmin_ imax_ jmax_ n l) = l <->
   forall idx, 0 <= idx < n * n -> aget l idx <> n + 1) /\
  (infinitize imin_ jmin_ imax_ jmax_ n
     (deinfinitize imin_ jmin_ imax_ jmax_ n l) = l <->
   forall idx, 0 <= idx < n * n -> aget l idx <> 0).
Proof.
  intros Hn Hnn Hlen.
  destruct (infinitize_spec n Hn Hnn imin_ jmin_ imax_ jmax_ l Hlen) as [Hli Hi].
  destruct (deinfinitize_spec n Hn Hnn imin_ jmin_ imax_ jmax_ l Hlen) as [Hld Hd].
  destruct (deinfinitize_spec n Hn Hnn imin_ jmin_ imax_ jmax_ _ Hli) as [Hldi Hdi].
  destruct (infinitize_spec n Hn Hnn imin_ jmin_ imax_ jmax_ _ Hld) as [Hlid Hid].
  split; [done|]. split; split.
  - intros Heq idx Hidx Hv. pose proof (Hdi idx Hidx) as H.
    rewrite Heq, Hi, Hv in H by done.
    destruct (Z.eqb_spec (n + 1) 0); [lia|]. rewrite Z.eqb_refl in H. lia.
  - intros Hno. apply aget_ext; [congruence|]. intros idx Hidx.
    rewrite Hldi in Hidx. rewrite Hdi, Hi by done. specialize (Hno idx Hidx).
    destruct (Z.eqb_spec (aget l idx) 0) as [->|].
    + rewrite Z.eqb_refl. done.
    + destruct (Z.eqb_spec (aget l idx) (n + 1)); [done|done].
  - intros Heq idx Hidx Hv. pose proof (Hid idx Hidx) as H.
    rewrite Heq, Hd, Hv in H by done.
    destruct (Z.eqb_spec 0 (n + 1)); [lia|]. simpl in H. lia.
  - intros Hno. apply aget_ext; [congruence|]. intros idx Hidx.
    rewrite Hlid in Hidx. rewrite Hid, Hd by done. specialize (Hno idx Hidx).
    destruct (Z.eqb_spec (aget l idx) (n + 1)) as [->|].
    + simpl. done.
    + destruct (Z.eqb_spec (aget l idx) 0); [done|done].
Qed.

Lemma infinity_round_trip_witness :
  1 <= 2 /\ 2 * 2 <= CInt.int_max /\ len [0; 1; 0; 0] = 2 * 2 /\
  (deinfinitize 0 0 1 1 2 (infinitize 0 0 1 1 2 [0; 1; 0; 0]) = [0; 1; 0; 0] <->
   forall idx, 0 <= idx < 2 * 2 -> aget [0; 1; 0; 0] idx <> 2 + 1).
Proof.
  assert (H1 : 1 <= 2) by lia.
  assert (H2 : 2 * 2 <= CInt.int_max) by (vm_compute; discriminate).
  assert (H3 : len [0; 1; 0; 0] = 2 * 2) by reflexivity.
  exact (conj H1 (conj H2 (conj H3
    (proj1 (proj2 (infinity_round_trip 0 0 1 1 2 [0; 1; 0; 0] H1 H2 H3)))))).
Defined.

(* The sentinel collides with a genuine entry n+1. *)
Example infinity_collision :
  deinfinitize 0 0 2 2 2 (infinitize 0 0 2 2 2 [0; 3; 1; 0]) = [0; 0; 1; 0].
Proof. reflexivity. Qed.

(** ** Reading the output of [shortest_paths] *)

(** X5.  In the matrix a one-process run of [shortest_paths] returns for
    an adjacency matrix (with any fuel that lets it return): every entry
    is within [0, n-1], so the sentinel n+1 never shows; off the diagonal
    an entry is 0 exactly when there is no path; an entry is 1 exactly
    when there is an edge; and the entries satisfy the triangle inequality
    through every node k that i reaches and that reaches j. *)
Theorem shortest_paths_output n a irank fuel d :
  1 <= n -> n * n <= CInt.int_max -> adjacency n a = true ->
  shortest_paths fuel irank 0 n 0 n n a = Some d ->
  forall i j, 0 <= i < n -> 0 <= j < n ->
    0 <= entry n d i j <= n - 1 /\
    (i <> j -> (entry n d i j = 0 <-> ~ reachable n a i j)) /\
    (entry n d i j = 1 <-> entry n a i j = 1) /\
    (forall k, 0 <= k < n ->
       (i = k \/ entry n d i k <> 0) -> (k = j \/ entry n d k j <> 0) ->
       entry n d i j <= entry n d i k + entry n d k j).
Proof.
  intros Hn Hnn Hadj Hrun.
  destruct (shortest_paths_run n a Hn Hnn Hadj irank
              (Z.to_nat (Z.log2_up n) + 1) ltac:(lia))
    as (d0 & rounds & _ & _ & _ & _ & Hd & Hlt & Hge).
  assert (d = d0) as ->.
  { unfold shortest_paths in Hrun.
    destruct (le_lt_dec rounds fuel) as [Hle|Hgt].
    - rewrite (Hge fuel Hle) in Hrun. simpl in Hrun. congruence.
    - rewrite (Hlt fuel Hgt) in Hrun. done. }
  clear Hrun Hlt Hge.
  apply adjacency_spec in Hadj as (_ & H01 & Hdiag).
  assert (Hwalk0 : forall i j, walk n a i j 0 -> i = j).
  { intros i j Hw. by inversion Hw. }
  assert (Hreach : forall i j, 0 <= i < n -> 0 <= j < n ->
            (i = j \/ entry n d0 i j <> 0) -> ~ ~ reachable n a i j).
  { intros i j Hi Hj [->|Hne] Hnr.
    - apply Hnr. exists 0%nat. by apply walk_nil.
    - destruct (Hd i j Hi Hj) as (_ & _ & H0). by apply Hne, H0. }
  intros i j Hi Hj. destruct (Hd i j Hi Hj) as (Hii & Hr & Hnr).
  split; [|split; [|split]].
  - destruct (Z_le_gt_dec 0 (entry n d0 i j)) as [H0|H0];
      [destruct (Z_le_gt_dec (entry n d0 i j) (n - 1)) as [H1|H1]; [lia|]|];
      exfalso; apply (Hreach i j Hi Hj); try (right; lia); intros Hrj.
    + destruct (Hr Hrj) as (len & Hlen & Hw & Hmin).
      destruct (walk_short n a i j len Hw) as (len' & _ & Hs & Hw').
      specialize (Hmin len' Hw'). lia.
    + destruct (Hr Hrj) as (len & Hlen & _). lia.
  - intros Hne. split; [|done]. intros H0 Hrj.
    destruct (Hr Hrj) as (len & Hlen & Hw & _).
    assert (len = 0%nat) as -> by lia. by apply Hne, Hwalk0.
  - split.
    + intros H1.
      destruct (decide (entry n a i j = 1)) as [|Hna]; [done|]. exfalso.
      apply (Hreach i j Hi Hj); [right; lia|]. intros Hrj.
      destruct (Hr Hrj) as (len & Hlen & Hw & _).
      assert (len = 1%nat) as -> by lia.
      inversion Hw as [|i' k j' len' (_ & _ & He) Hw']; subst.
      apply Hwalk0 in Hw' as ->. done.
    + intros He.
      assert (Hw : walk n a i j 1).
      { eapply walk_cons; [by split|by apply walk_nil]. }
      destruct (Hr (ex_intro _ _ Hw)) as (len & Hlen & Hw0 & Hmin).
      specialize (Hmin _ Hw).
      assert (len <> 0%nat).
      { intros ->. apply Hwalk0 in Hw0 as ->. rewrite Hdiag in He; lia. }
      lia.
  - intros k Hk Hik Hkj.
    destruct (Z_le_gt_dec (entry n d0 i j) (entry n d0 i k + entry n d0 k j))
      as [|Hgt]; [done|]. exfalso.
    apply (Hreach i k Hi Hk Hik). intros Hrik.
    apply (Hreach k j Hk Hj Hkj). intros Hrkj.
    destruct (Hd i k Hi Hk) as (_ & Hr1 & _).
    destruct (Hd k j Hk Hj) as (_ & Hr2 & _).
    destruct (Hr1 Hrik) as (len1 & Hlen1 & Hw1 & _).
    destruct (Hr2 Hrkj) as (len2 & Hlen2 & Hw2 & _).
    pose proof (walk_app n a i k j len1 len2 Hw1 Hw2) as Hw.
    destruct (Hr (ex_intro _ _ Hw)) as (len & Hlen & _ & Hmin).
    specialize (Hmin _ Hw). lia.
Qed.

Lemma shortest_paths_output_witness :
  1 <= 4 /\ 4 * 4 <= CInt.int_max /\ adjacency 4 chain4 = true /\
  shortest_paths 3 1 0 4 0 4 4 chain4 =
    Some [0; 0; 0; 0;  1; 0; 0; 0;  2; 1; 0; 0;  3; 2; 1; 0] /\
  forall i j, 0 <= i < 4 -> 0 <= j < 4 ->
    0 <= entry 4 [0; 0; 0; 0;  1; 0; 0; 0;  2; 1; 0; 0;  3; 2; 1; 0] i j
      <= 4 - 1.
Proof.
  assert (H1 : 1 <= 4) by lia.
  assert (H2 : 4 * 4 <= CInt.int_max) by (vm_compute; discriminate).
  assert (H3 : adjacency 4 chain4 = true) by reflexivity.
  assert (H4 : shortest_paths 3 1 0 4 0 4 4 chain4 =
    Some [0; 0; 0; 0;  1; 0; 0; 0;  2; 1; 0; 0;  3; 2; 1; 0])
    by (vm_compute; reflexivity).
  refine (conj H1 (conj H2 (conj H3 (conj H4 _)))).
  intros i j Hi Hj.
  exact (proj1 (shortest_paths_output 4 chain4 1 3%nat _ H1 H2 H3 H4 i j Hi Hj)).
Defined.

(** ** More processes than rows, and tiles that overlap *)

Lemma for_range_id {St} lo hi (body : Z -> St -> St) (s : St) :
  (forall i s, lo <= i < hi -> body i s = s) ->
  for_range lo hi body s = s.
Proof.
  intros Hid. destruct (Z_le_gt_dec lo hi) as [Hle|Hgt].
  - apply (for_range_inv (fun _ s' => s' = s)); [done|done|].
    intros i s' Hi ->. by apply Hid.
  - apply for_range_empty. lia.
Qed.

(** X6.  With more processes along the x axis than the matrix has rows
    (n < gx), [main] raises no error: the first n processes own one row
    each and every process after them gets the empty range [n, n); on such
    a tile [square] always returns 1 and leaves [lnew] untouched. *)
Theorem main_tile_more_procs n gx gy iproc jproc :
  1 <= n -> n < gx -> gx <= CInt.int_max ->
  1 <= gy -> gy <= CInt.int_max ->
  1 <= iproc <= gx -> 1 <= jproc <= gy ->
  let t := main_tile n gx gy (iproc - 1) (jproc - 1) in
  t_imin t = Z.min (iproc - 1) n /\
  t_imax t = Z.min iproc n /\
  (n < iproc ->
   forall irank l lnew,
     square irank (t_imin t) (t_jmin t) (t_imax t) (t_jmax t) n l lnew =
     (1, lnew)).
Proof.
  intros Hn Hlt Hgx Hgy Hgy' Hi Hj t. subst t.
  rewrite main_tile_eq by (unfold CInt.int_max in *; lia). simpl.
  assert (Hup : forall ip, axis_upto n gx ip = Z.min ip n).
  { intros ip. unfold axis_upto.
    rewrite Z.div_small, Z.mod_small by lia. lia. }
  rewrite !Hup. split; [done|]. split; [done|].
  intros Hip irank l lnew. unfold square.
  apply for_range_id. intros j st _. unfold square_j.
  apply for_range_empty. lia.
Qed.

Lemma main_tile_more_procs_witness :
  1 <= 2 /\ 2 < 3 /\ 3 <= CInt.int_max /\ 1 <= 1 /\ 1 <= CInt.int_max /\
  1 <= 3 <= 3 /\ 1 <= 1 <= 1 /\
  t_imin (main_tile 2 3 1 (3 - 1) (1 - 1)) = Z.min (3 - 1) 2 /\
  t_imax (main_tile 2 3 1 (3 - 1) (1 - 1)) = Z.min 3 2.
Proof.
  assert (H1 : 1 <= 2) by lia.
  assert (H2 : 2 < 3) by lia.
  assert (H3 : 3 <= CInt.int_max) by (vm_compute; discriminate).
  assert (H4 : 1 <= 1) by lia.
  assert (H5 : 1 <= CInt.int_max) by (vm_compute; discriminate).
  assert (H6 : 1 <= 3 <= 3) by lia.
  assert (H7 : 1 <= 1 <= 1) by lia.
  pose proof (main_tile_more_procs 2 3 1 3 1 H1 H2 H3 H4 H5 H6 H7) as H.
  exact (conj H1 (conj H2 (conj H3 (conj H4 (conj H5 (conj H6 (conj H7
    (conj (proj1 H) (proj1 (proj2 H)))))))))).
Defined.

(** X7.  The run of several processes needs no more of the tiles than
    that they are valid and cover the matrix: they may overlap, the matrix
    may hold any ints (n*n of them, the same on every process), and for
    every fuel every process ends with what the one-process run returns
    (or none returns). *)
Theorem mpi_any_cover n procs a fuel :
  1 <= n -> n * n <= CInt.int_max -> len a = n * n ->
  Forall (fun p => valid_tile_of n (p_tile p)) procs ->
  (forall i j, 0 <= i < n -> 0 <= j < n ->
     exists p, p ∈ procs /\ in_tile_of (p_tile p) i j) ->
  shortest_paths_mpi fuel n procs (replicate (length procs) a) =
  replicate (length procs) <$> shortest_paths fuel 1 0 n 0 n n a.
Proof.
  intros Hn Hnn Hlen Hvalid Hcover.
  by apply (mpi_refines_single n Hn Hnn procs Hvalid Hcover).
Qed.

(* Two processes whose tiles overlap in the middle column, on weights. *)
Example overlap_run :
  shortest_paths_mpi 3 3 [Proc 1 (Tile 0 2 0 3); Proc 2 (Tile 1 3 0 3)]
    (replicate 2 [0; 5; 9;  2; 0; 9;  9; 3; 0]) =
  Some (replicate 2 [0; 5; 9;  2; 0; 9;  5; 3; 0]).
Proof. vm_compute. reflexivity. Qed.

Lemma mpi_any_cover_witness :
  1 <= 3 /\ 3 * 3 <= CInt.int_max /\
  len [0; 5; 9;  2; 0; 9;  9; 3; 0] = 3 * 3 /\
  shortest_paths_mpi 3 3 [Proc 1 (Tile 0 2 0 3); Proc 2 (Tile 1 3 0 3)]
    (replicate 2 [0; 5; 9;  2; 0; 9;  9; 3; 0]) =
  replicate 2 <$> shortest_paths 3 1 0 3 0 3 3 [0; 5; 9;  2; 0; 9;  9; 3; 0].
Proof.
  assert (H1 : 1 <= 3) by lia.
  assert (H2 : 3 * 3 <= CInt.int_max) by (vm_compute; discriminate).
  assert (H3 : len [0; 5; 9;  2; 0; 9;  9; 3; 0] = 3 * 3) by reflexivity.
  refine (conj H1 (conj H2 (conj H3 _))).
  apply (mpi_any_cover 3 [Proc 1 (Tile 0 2 0 3); Proc 2 (Tile 1 3 0 3)]
           [0; 5; 9;  2; 0; 9;  9; 3; 0] 3%nat H1 H2 H3).
  - repeat constructor; unfold valid_tile_of, valid_tile; simpl; lia.
  - intros i j Hi Hj. destruct (decide (i < 2)).
    + exists (Proc 1 (Tile 0 2 0 3)). split; [apply elem_of_cons; by left|].
      unfold in_tile_of, in_tile. simpl. lia.
    + exists (Proc 2 (Tile 1 3 0 3)).
      split; [apply elem_of_cons; right; apply elem_of_cons; by left|].
      unfold in_tile_of, in_tile. simpl. lia.
Defined.

(** ** From [gen_graph] to [shortest_paths] *)

(** X8.  Whatever the generator and p, the matrix [gen_graph] returns is
    an adjacency matrix as [shortest_paths] expects it, and [main]'s
    sequence, [gen_graph] then [shortest_paths], returns within
    ceil(log2 n) + 1 rounds with the path lengths of the generated graph. *)
Theorem gen_graph_then_shortest_paths (double mt19937p : Type)
    (dlt : double -> double -> bool) (sgenrand : Z -> mt19937p)
    (genrand : mt19937p -> double * mt19937p) (n : Z) (p : double)
    (irank : Z) (fuel : nat) :
  1 <= n -> n * n <= CInt.int_max ->
  (Z.to_nat (Z.log2_up n) + 1 <= fuel)%nat ->
  let g := gen_graph dlt sgenrand genrand n p in
  adjacency n g = true /\
  exists d rounds,
    shortest_paths_rounds fuel irank 0 n 0 n n g = Some (d, rounds) /\
    Z.of_nat rounds <= Z.log2_up n + 1 /\
    forall i j, 0 <= i < n -> 0 <= j < n ->
      (reachable n g i j -> distance n g i j (entry n d i j)) /\
      (~ reachable n g i j -> entry n d i j = 0).
Proof.
  intros Hn Hnn Hfuel g.
  destruct (gen_graph_spec double dlt mt19937p sgenrand genrand n p
              ltac:(lia) Hnn) as (Hl & H01 & He).
  fold g in Hl, H01, He.
  assert (Hadj : adjacency n g = true).
  { apply adjacency_spec. split; [done|]. split.
    - intros i j Hi Hj. apply H01. unfold CInt.int_max in *. nia.
    - intros i Hi. rewrite He by done. by rewrite Z.eqb_refl. }
  split; [done|].
  destruct (shortest_paths_run n g Hn Hnn Hadj irank fuel Hfuel)
    as (d & rounds & Hrun & _ & Hr & _ & Hd & _).
  exists d, rounds. split; [done|]. split; [done|].
  intros i j Hi Hj. destruct (Hd i j Hi Hj) as (_ & H1 & H2). done.
Qed.

Lemma gen_graph_then_shortest_paths_witness :
  1 <= 3 /\ 3 * 3 <= CInt.int_max /\
  (Z.to_nat (Z.log2_up 3) + 1 <= 3)%nat /\
  adjacency 3 (gen_graph Z.ltb (fun _ => 0) (fun s => (s mod 3, s + 1)) 3 1)
    = true.
Proof.
  assert (H1 : 1 <= 3) by lia.
  assert (H2 : 3 * 3 <= CInt.int_max) by (vm_compute; discriminate).
  assert (H3 : (Z.to_nat (Z.log2_up 3) + 1 <= 3)%nat) by (vm_compute; lia).
  exact (conj H1 (conj H2 (conj H3
    (proj1 (gen_graph_then_shortest_paths Z Z Z.ltb (fun _ => 0)
              (fun s => (s mod 3, s + 1)) 3 1 1 3%nat H1 H2 H3))))).
Defined.

(** ** [fletcher16] *)

Lemma lor_shiftl_8 a b :
  0 <= a -> 0 <= b < 256 -> Z.lor (Z.shiftl a 8) b = a * 256 + b.
Proof.
  intros Ha Hb.
  assert (Hland : Z.land (Z.shiftl a 8) b = 0).
  { apply Z.bits_inj_0. intros i. rewrite Z.land_spec.
    destruct (Z_lt_le_dec i 0) as [Hneg|Hpos].
    - by rewrite !Z.testbit_neg_r.
    - destruct (Z_lt_le_dec i 8) as [Hlow|Hhigh].
      + rewrite Z.shiftl_spec_low by lia. done.
      + assert (Z.testbit b i = false) as ->; [|by rewrite andb_false_r].
        destruct (decide (b = 0)) as [->|Hb0]; [apply Z.bits_0|].
        apply Z.bits_above_log2; [lia|].
        assert (Z.log2 b < 8); [|lia].
        apply Z.log2_lt_pow2; [lia|]. change (2 ^ 8) with 256. lia. }
  rewrite <- Z.lxor_lor by done. rewrite <- Z.add_nocarry_lxor by done.
  rewrite Z.shiftl_mul_pow2 by lia. change (2 ^ 8) with 256. done.
Qed.

Lemma fletcher16_sums data count :
  0 <= count ->
  (forall idx, 0 <= idx < count ->
     0 <= aget data idx <= CInt.int_max - 254) ->
  fletcher16 data count =
    256 * (prefix_sum2 data (Z.to_nat count) mod 255) +
    prefix_sum data (Z.to_nat count) mod 255 /\
  0 <= fletcher16 data count <= 65278.
Proof.
  intros Hcount Hdata. unfold fletcher16.
  assert (Hinv :
    let st := for_range 0 count (fletcher16_step data) (0, 0) in
    st.1 = prefix_sum data (Z.to_nat count) mod 255 /\
    st.2 = prefix_sum2 data (Z.to_nat count) mod 255).
  { apply (for_range_inv (fun k (st : Z * Z) =>
      st.1 = prefix_sum data (Z.to_nat k) mod 255 /\
      st.2 = prefix_sum2 data (Z.to_nat k) mod 255)); [done|done|].
    intros k [s1 s2] Hk [H1 H2]. simpl in H1, H2. unfold fletcher16_step.
    specialize (Hdata k Hk).
    pose proof (Z.mod_pos_bound (prefix_sum data (Z.to_nat k)) 255 ltac:(lia)).
    pose proof (Z.mod_pos_bound (prefix_sum2 data (Z.to_nat k)) 255 ltac:(lia)).
    replace (Z.to_nat (k + 1)) with (S (Z.to_nat k)) by lia.
    assert (Hs1 : CInt.rem (s1 +i aget data k) 255 =
                  prefix_sum data (S (Z.to_nat k)) mod 255).
    { rewrite add_small by int_range. rewrite rem_nonneg by int_range.
      simpl. rewrite Z2Nat.id by lia. rewrite H1.
      by rewrite Z.add_mod_idemp_l. }
    rewrite Hs1.
    assert (Hs2 : prefix_sum2 data (S (Z.to_nat k)) =
                  prefix_sum2 data (Z.to_nat k) + prefix_sum data (S (Z.to_nat k)))
      by reflexivity.
    rewrite Hs2.
    generalize (prefix_sum data (S (Z.to_nat k))). intros ps.
    pose proof (Z.mod_pos_bound ps 255 ltac:(lia)).
    split; [reflexivity|]. cbn [fst snd].
    rewrite add_small by int_range. rewrite rem_nonneg by int_range.
    rewrite H2. by rewrite <- Z.add_mod. }
  destruct (for_range 0 count (fletcher16_step data) (0, 0)) as [s1 s2].
  simpl in Hinv. destruct Hinv as [-> ->].
  pose proof (Z.mod_pos_bound (prefix_sum data (Z.to_nat count)) 255 ltac:(lia)).
  pose proof (Z.mod_pos_bound (prefix_sum2 data (Z.to_nat count)) 255 ltac:(lia)).
  assert (Hsh : Z.shiftl (prefix_sum2 data (Z.to_nat count) mod 255) 8 =
                prefix_sum2 data (Z.to_nat count) mod 255 * 256).
  { rewrite Z.shiftl_mul_pow2 by lia. reflexivity. }
  rewrite wrap_small by (rewrite Hsh; int_range).
  rewrite lor_shiftl_8 by lia. lia.
Qed.

(** X9.  On [count] entries that are nonnegative (and at most
    INT_MAX - 254, so that no sum overflows), [fletcher16] returns
    256 * s2 + s1 where s1 is the sum of the entries modulo 255 and s2 the
    sum of the running sums modulo 255; the result is within [0, 65278],
    neither byte being 255. *)
Theorem fletcher16_closed_form data count :
  0 <= count ->
  (forall idx, 0 <= idx < count ->
     0 <= aget data idx <= CInt.int_max - 254) ->
  fletcher16 data count =
    256 * (prefix_sum2 data (Z.to_nat count) mod 255) +
    prefix_sum data (Z.to_nat count) mod 255 /\
  0 <= fletcher16 data count <= 65278.
Proof. apply fletcher16_sums. Qed.

Lemma fletcher16_closed_form_witness :
  0 <= 4 /\
  (forall idx, 0 <= idx < 4 ->
     0 <= aget [3; 254; 255; 7] idx <= CInt.int_max - 254) /\
  fletcher16 [3; 254; 255; 7] 4 =
    256 * (prefix_sum2 [3; 254; 255; 7] (Z.to_nat 4) mod 255) +
    prefix_sum [3; 254; 255; 7] (Z.to_nat 4) mod 255.
Proof.
  assert (H1 : 0 <= 4) by lia.
  assert (H2 : forall idx, 0 <= idx < 4 ->
            0 <= aget [3; 254; 255; 7] idx <= CInt.int_max - 254).
  { intros idx Hidx.
    assert (idx = 0 \/ idx = 1 \/ idx = 2 \/ idx = 3) as [-> | [-> | [-> | ->]]]
      by lia; vm_compute; split; discriminate. }
  exact (conj H1 (conj H2
    (proj1 (fletcher16_closed_form [3; 254; 255; 7] 4 H1 H2)))).
Defined.

Lemma prefix_sum_congr d1 d2 (k : nat) :
  (forall idx, 0 <= idx < Z.of_nat k ->
     aget d1 idx mod 255 = aget d2 idx mod 255) ->
  prefix_sum d1 k mod 255 = prefix_sum d2 k mod 255.
Proof.
  induction k as [|k IH]; intros H; [done|]. simpl.
  rewrite Z.add_mod by lia. rewrite IH by (intros; apply H; lia).
  rewrite (H (Z.of_nat k)) by lia. by rewrite <- Z.add_mod by lia.
Qed.

Lemma prefix_sum2_congr d1 d2 (k : nat) :
  (forall idx, 0 <= idx < Z.of_nat k ->
     aget d1 idx mod 255 = aget d2 idx mod 255) ->
  prefix_sum2 d1 k mod 255 = prefix_sum2 d2 k mod 255.
Proof.
  induction k as [|k IH]; intros H; [done|].
  change (prefix_sum2 ?d (S k)) with (prefix_sum2 d k + prefix_sum d (S k)).
  rewrite Z.add_mod by lia. rewrite IH by (intros; apply H; lia).
  rewrite (prefix_sum_congr d1 d2 (S k) H). by rewrite <- Z.add_mod by lia.
Qed.

(** X10.  [fletcher16] cannot tell entries apart that are congruent
    modulo 255 (0 and 255, say): two buffers of nonnegative entries that
    agree modulo 255 in each of the [count] positions have the same
    checksum. *)
Theorem fletcher16_mod_255 d1 d2 count :
  0 <= count ->
  (forall idx, 0 <= idx < count -> 0 <= aget d1 idx <= CInt.int_max - 254) ->
  (forall idx, 0 <= idx < count -> 0 <= aget d2 idx <= CInt.int_max - 254) ->
  (forall idx, 0 <= idx < count ->
     aget d1 idx mod 255 = aget d2 idx mod 255) ->
  fletcher16 d1 count = fletcher16 d2 count.
Proof.
  intros Hc H1 H2 Hmod.
  assert (Hmod' : forall idx, 0 <= idx < Z.of_nat (Z.to_nat count) ->
            aget d1 idx mod 255 = aget d2 idx mod 255).
  { intros idx Hidx. apply Hmod. lia. }
  destruct (fletcher16_sums d1 count Hc H1) as [-> _].
  destruct (fletcher16_sums d2 count Hc H2) as [-> _].
  by rewrite (prefix_sum_congr d1 d2 _ Hmod'), (prefix_sum2_congr d1 d2 _ Hmod').
Qed.

Lemma fletcher16_mod_255_witness :
  0 <= 2 /\
  (forall idx, 0 <= idx < 2 -> 0 <= aget [0; 3] idx <= CInt.int_max - 254) /\
  (forall idx, 0 <= idx < 2 -> 0 <= aget [255; 3] idx <= CInt.int_max - 254) /\
  (forall idx, 0 <= idx < 2 -> aget [0; 3] idx mod 255 = aget [255; 3] idx mod 255) /\
  fletcher16 [0; 3] 2 = fletcher16 [255; 3] 2.
Proof.
  assert (Hc : 0 <= 2) by lia.
  assert (Hidx : forall idx, 0 <= idx < 2 -> idx = 0 \/ idx = 1) by lia.
  assert (H1 : forall idx, 0 <= idx < 2 ->
            0 <= aget [0; 3] idx <= CInt.int_max - 254).
  { intros idx H. destruct (Hidx idx H) as [-> | ->];
      vm_compute; split; discriminate. }
  assert (H2 : forall idx, 0 <= idx < 2 ->
            0 <= aget [255; 3] idx <= CInt.int_max - 254).
  { intros idx H. destruct (Hidx idx H) as [-> | ->];
      vm_compute; split; discriminate. }
  assert (H3 : forall idx, 0 <= idx < 2 ->
            aget [0; 3] idx mod 255 = aget [255; 3] idx mod 255).
  { intros idx H. destruct (Hidx idx H) as [-> | ->]; reflexivity. }
  exact (conj Hc (conj H1 (conj H2 (conj H3
    (fletcher16_mod_255 [0; 3] [255; 3] 2 Hc H1 H2 H3))))).
Defined.

(** ** [write_matrix] *)

Section Strings.

Lemma string_app_assoc s1 s2 s3 : (s1 +:+ s2) +:+ s3 = s1 +:+ (s2 +:+ s3).
Proof.
  induction s1 as [|c s1 IH]; [done|].
  change (String c ((s1 +:+ s2) +:+ s3) = String c (s1 +:+ (s2 +:+ s3))).
  by rewrite IH.
Qed.

Lemma pretty_N_go_no_space x : forall s,
  no_space s = true -> no_space (pretty_N_go x s) = true.
Proof.
  induction (N.lt_wf_0 x) as [x _ IH]; intros s Hs.
  destruct (decide (x = 0)%N) as [->|Hx]; [by rewrite pretty_N_go_0|].
  rewrite pretty_N_go_step by lia. apply IH.
  - apply N.div_lt; lia.
  - simpl. rewrite Hs. unfold pretty_N_char. by repeat case_match.
Qed.

Lemma pretty_Z_no_space (z : Z) : no_space (pretty z) = true.
Proof.
  assert (HN : forall p : positive, no_space (pretty p) = true).
  { intros p. unfold pretty, pretty_positive, pretty, pretty_N.
    case_decide; [done|]. by apply pretty_N_go_no_space. }
  destruct z as [|p|p]; [done|apply HN|].
  change (pretty (Z.neg p)) with ("-" +:+ pretty p).
  change (negb (Ascii.is_space "-") && no_space (pretty p) = true).
  by rewrite HN.
Qed.

(* Two texts that start with a number, a blank and more are equal only if
   the numbers and the rests are. *)
Lemma split_at_blank s1 : forall s2 r1 r2,
  no_space s1 = true -> no_space s2 = true ->
  s1 +:+ " " +:+ r1 = s2 +:+ " " +:+ r2 -> s1 = s2 /\ r1 = r2.
Proof.
  induction s1 as [|c s1 IH]; intros [|c' s2] r1 r2 H1 H2 Heq.
  - change (String " " r1 = String " " r2) in Heq. by injection Heq as ->.
  - change (String " " r1 = String c' (s2 +:+ " " +:+ r2)) in Heq.
    injection Heq as <- _. simpl in H2. done.
  - change (String c (s1 +:+ " " +:+ r1) = String " " r2) in Heq.
    injection Heq as -> _. simpl in H1. done.
  - change (String c (s1 +:+ " " +:+ r1) = String c' (s2 +:+ " " +:+ r2))
      in Heq.
    injection Heq as -> Heq. simpl in H1, H2.
    apply andb_true_iff in H1 as [_ H1]. apply andb_true_iff in H2 as [_ H2].
    destruct (IH s2 r1 r2 H1 H2 Heq) as [-> ->]. done.
Qed.

End Strings.

Section WriteMatrix.
Import CInt.

Variable n : Z.
Hypothesis Hn : 1 <= n.
Hypothesis Hnn : n * n <= int_max.

Lemma write_row_text a i (c : nat) : forall j out,
  0 <= i < n -> 0 <= j -> j + Z.of_nat c <= n ->
  for_count c j (write_matrix_j n a i) out = out +:+ row_text n a i c j.
Proof.
  induction c as [|c IH]; intros j out Hi Hj Hc; simpl.
  - induction out as [|ch out IHo]; [done|].
    change (String ch out = String ch (out +:+ "")). by rewrite <- IHo.
  - rewrite IH by lia. unfold write_matrix_j.
    destruct (cell_index n i j Hnn Hi ltac:(lia)) as [-> _].
    rewrite !string_app_assoc. done.
Qed.

Lemma write_rows_text a (c : nat) : forall i out,
  0 <= i -> i + Z.of_nat c <= n ->
  for_count c i (write_matrix_i n a) out = out +:+ rows_text n a c i.
Proof.
  induction c as [|c IH]; intros i out Hi Hc; simpl.
  - induction out as [|ch out IHo]; [done|].
    change (String ch out = String ch (out +:+ "")). by rewrite <- IHo.
  - rewrite IH by lia. unfold write_matrix_i, for_range.
    rewrite Z.sub_0_r. rewrite write_row_text by lia.
    rewrite !string_app_assoc. done.
Qed.

Lemma row_text_inj a b i (c : nat) : forall j r1 r2,
  row_text n a i c j +:+ r1 = row_text n b i c j +:+ r2 ->
  (forall j', j <= j' < j + Z.of_nat c -> entry n a i j' = entry n b i j') /\
  r1 = r2.
Proof.
  induction c as [|c IH]; intros j r1 r2 Heq; simpl in Heq.
  - split; [intros; lia|done].
  - rewrite !string_app_assoc in Heq.
    apply split_at_blank in Heq as [Hv Heq]; [|apply pretty_Z_no_space..].
    apply (inj pretty) in Hv.
    destruct (IH _ _ _ Heq) as [Hrest ->]. split; [|done].
    intros j' Hj'. destruct (decide (j' = j)) as [->|]; [done|].
    apply Hrest. lia.
Qed.

Lemma rows_text_inj a b (c : nat) : forall i,
  rows_text n a c i = rows_text n b c i ->
  forall i' j, i <= i' < i + Z.of_nat c -> 0 <= j < n ->
    entry n a i' j = entry n b i' j.
Proof.
  induction c as [|c IH]; intros i Heq i' j Hi' Hj; [lia|].
  simpl in Heq. apply row_text_inj in Heq as [Hrow Heq].
  injection Heq as Heq.
  destruct (decide (i' = i)) as [->|].
  - apply Hrow. lia.
  - apply (IH (i + 1)); [done|lia|done].
Qed.

Lemma write_matrix_text fname a :
  write_matrix true fname n a = WmWritten (rows_text n a (Z.to_nat n) 0).
Proof.
  unfold write_matrix, for_range. rewrite Z.sub_0_r.
  rewrite write_rows_text by lia. done.
Qed.

End WriteMatrix.

(** X11.  When the file opens, [write_matrix] writes n lines, line i
    holding the entries a[0*n+i], a[1*n+i], ..., a[(n-1)*n+i] in decimal,
    each followed by a blank; the text determines the matrix (two matrices
    of n*n ints with the same text are equal, whatever the file names).
    When the file does not open, nothing is written: the message naming
    the file goes to stderr and the process exits with -1. *)
Theorem write_matrix_lossless fname fname' n a b :
  1 <= n -> n * n <= CInt.int_max -> len a = n * n -> len b = n * n ->
  write_matrix true fname n a = WmWritten (rows_text n a (Z.to_nat n) 0) /\
  (write_matrix true fname n a = write_matrix true fname' n b -> a = b) /\
  write_matrix false fname n a =
    WmExit ("Could not open output file: " +:+ fname +:+ nl) (-1).
Proof.
  intros Hn Hnn Ha Hb. split; [by apply write_matrix_text|]. split; [|done].
  rewrite !write_matrix_text by done. intros [= Heq].
  apply (matrix_ext n Hn); [done..|]. intros i j Hi Hj.
  apply (rows_text_inj n Hn a b _ 0 Heq); lia.
Qed.

Example write_matrix_example :
  write_matrix true "out.txt" 2 [0; 10; -3; 0] =
  WmWritten ("0 -3 " +:+ nl +:+ "10 0 " +:+ nl).
Proof. vm_compute. reflexivity. Qed.

Lemma write_matrix_lossless_witness :
  1 <= 2 /\ 2 * 2 <= CInt.int_max /\
  len [0; 10; -3; 0] = 2 * 2 /\ len [0; 10; -3; 0] = 2 * 2 /\
  write_matrix true "out.txt" 2 [0; 10; -3; 0] =
    WmWritten (rows_text 2 [0; 10; -3; 0] (Z.to_nat 2) 0).
Proof.
  assert (H1 : 1 <= 2) by lia.
  assert (H2 : 2 * 2 <= CInt.int_max) by (vm_compute; discriminate).
  assert (H3 : len [0; 10; -3; 0] = 2 * 2) by reflexivity.
  exact (conj H1 (conj H2 (conj H3 (conj H3
    (proj1 (write_matrix_lossless "out.txt" "out.txt" 2 [0; 10; -3; 0]
              [0; 10; -3; 0] H1 H2 H3 H3)))))).
Defined.

(** ** Option processing *)

Section OptionsFacts.

Variable double : Type.
Variable atoi : string -> Z.
Variable atof : string -> double.

Lemma process_options_usage opts : forall cfg,
  (exists arg, ("h"%char, arg) ∈ opts) ->
  process_options atoi atof opts cfg = OptUsage (-1).
Proof.
  induction opts as [|[c arg] opts IH]; intros cfg [arg' Hin].
  - by apply elem_of_nil in Hin.
  - simpl. apply elem_of_cons in Hin as [[= <- <-]|Hin].
    + by rewrite decide_True.
    + repeat case_decide; try done; apply IH; eauto.
Qed.

Lemma process_options_config opts : forall cfg : config double,
  (forall arg, ("h"%char, arg) ∉ opts) ->
  process_options atoi atof opts cfg =
  OptConfig
    (Config
       (from_option atoi (c_n cfg) (last_arg "n" opts))
       (from_option atof (c_p cfg) (last_arg "p" opts))
       (from_option Some (c_ifname cfg) (last_arg "i" opts))
       (from_option Some (c_ofname cfg) (last_arg "o" opts))
       (from_option (Some ∘ atoi) (c_npx cfg) (last_arg "x" opts))
       (from_option (Some ∘ atoi) (c_npy cfg) (last_arg "y" opts))).
Proof.
  induction opts as [|[c arg] opts IH]; intros cfg Hno.
  - by destruct cfg.
  - assert (Hno' : forall arg, ("h"%char, arg) ∉ opts).
    { intros arg' Hin. apply (Hno arg'). apply elem_of_cons. by right. }
    assert (Hc : c <> "h"%char).
    { intros ->. apply (Hno arg). apply elem_of_cons. by left. }
    simpl. rewrite decide_False by done.
    repeat case_decide; subst; rewrite IH by done; simpl;
      destruct (last_arg "n" opts), (last_arg "p" opts),
        (last_arg "i" opts), (last_arg "o" opts),
        (last_arg "x" opts), (last_arg "y" opts); simpl;
      repeat (rewrite decide_False by done); done.
Qed.

Lemma process_options_unknown c arg opts1 : forall opts2 cfg,
  ~ known_option c ->
  process_options atoi atof (opts1 ++ (c, arg) :: opts2) cfg =
  process_options atoi atof (opts1 ++ opts2) cfg.
Proof.
  induction opts1 as [|[c1 arg1] opts1 IH]; intros opts2 cfg Hc.
  - unfold known_option in Hc. simpl.
    repeat (rewrite decide_False by tauto). done.
  - simpl. repeat case_decide; try done; by apply IH.
Qed.

End OptionsFacts.

(** X12.  The option loop of [main]: a [-h] anywhere makes [main] return
    -1 (after the usage text) whatever else is given; without [-h] each of
    n, p, i, o, x, y takes the argument of its last occurrence, n and p
    default to 200 and 0.05, the file names to none, and npx, npy are left
    without a value when [-x], [-y] are missing; and an option with no
    case in the switch ([-d], which the option string accepts, or an
    unknown one) changes nothing. *)
Theorem main_options_result (double : Type) (atoi : string -> Z)
    (atof : string -> double) (p_default : double)
    (opts : list (ascii * string)) :
  ((exists arg, ("h"%char, arg) ∈ opts) ->
   main_options atoi atof p_default opts = OptUsage (-1)) /\
  ((forall arg, ("h"%char, arg) ∉ opts) ->
   main_options atoi atof p_default opts =
   OptConfig
     (Config
        (from_option atoi 200 (last_arg "n" opts))
        (from_option atof p_default (last_arg "p" opts))
        (last_arg "i" opts)
        (last_arg "o" opts)
        (atoi <$> last_arg "x" opts)
        (atoi <$> last_arg "y" opts))) /\
  (forall c arg opts1 opts2,
     opts = opts1 ++ (c, arg) :: opts2 -> ~ known_option c ->
     main_options atoi atof p_default opts =
     main_options atoi atof p_default (opts1 ++ opts2)).
Proof.
  split; [|split].
  - apply process_options_usage.
  - intros Hno. unfold main_options.
    rewrite process_options_config by done. simpl.
    by destruct (last_arg "i" opts), (last_arg "o" opts),
      (last_arg "x" opts), (last_arg "y" opts).
  - intros c arg opts1 opts2 -> Hc. by apply process_options_unknown.
Qed.

Example main_options_example :
  main_options (fun s => Z.of_nat (String.length s)) (fun s => s) "0.05"
    [("n"%char, "aaa"); ("d"%char, "zz"); ("x"%char, "bb"); ("n"%char, "c")] =
  OptConfig (Config 1 "0.05" None None (Some 2) None).
Proof. reflexivity. Qed.

Lemma main_options_result_witness :
  (exists arg, ("h"%char, arg) ∈ [("n"%char, "5"); ("h"%char, "")]) /\
  main_options (fun _ => 5) (fun s => s) "0.05"
    [("n"%char, "5"); ("h"%char, "")] = OptUsage (-1).
Proof.
  assert (H : exists arg, ("h"%char, arg) ∈ [("n"%char, "5"); ("h"%char, "")]).
  { exists "". apply elem_of_cons. right. apply elem_of_cons. by left. }
  exact (conj H (proj1 (main_options_result string (fun _ => 5) (fun s => s)
                          "0.05" [("n"%char, "5"); ("h"%char, "")]) H)).
Defined.

(** ** Undirected graphs *)

Section Symmetric.

Variable n : Z.
Variable a : list Z.
Hypothesis Hsym : forall i j, 0 <= i < n -> 0 <= j < n ->
  entry n a i j = entry n a j i.

Lemma walk_snoc i k j len :
  walk n a i k len -> edge n a k j -> walk n a i j (S len).
Proof.
  intros Hw He. rewrite <- Nat.add_1_r. apply walk_app with k; [done|].
  eapply walk_cons; [done|]. apply walk_nil. by destruct He as (_ & ? & _).
Qed.

Lemma walk_reverse i j len : walk n a i j len -> walk n a j i len.
Proof.
  induction 1 as [i Hi|i k j len (Hi & Hk & He) _ IH]; [by apply walk_nil|].
  apply walk_snoc with k; [done|]. split; [done|]. split; [done|].
  by rewrite <- Hsym.
Qed.

End Symmetric.

(** X13.  For the adjacency matrix of an undirected graph (a symmetric
    matrix), the matrix [shortest_paths] returns is symmetric. *)
Theorem shortest_paths_symmetric n a irank fuel d :
  1 <= n -> n * n <= CInt.int_max -> adjacency n a = true ->
  (forall i j, 0 <= i < n -> 0 <= j < n -> entry n a i j = entry n a j i) ->
  shortest_paths fuel irank 0 n 0 n n a = Some d ->
  forall i j, 0 <= i < n -> 0 <= j < n -> entry n d i j = entry n d j i.
Proof.
  intros Hn Hnn Hadj Hsym Hrun.
  destruct (shortest_paths_run n a Hn Hnn Hadj irank
              (Z.to_nat (Z.log2_up n) + 1) ltac:(lia))
    as (d0 & rounds & _ & _ & _ & _ & Hd & Hlt & Hge).
  assert (d = d0) as ->.
  { unfold shortest_paths in Hrun.
    destruct (le_lt_dec rounds fuel) as [Hle|Hgt].
    - rewrite (Hge fuel Hle) in Hrun. simpl in Hrun. congruence.
    - rewrite (Hlt fuel Hgt) in Hrun. done. }
  intros i j Hi Hj.
  destruct (decide (entry n d0 i j = entry n d0 j i)) as [|Hne]; [done|].
  exfalso.
  assert (Hrev : forall i j len, walk n a i j len -> walk n a j i len).
  { intros. by apply walk_reverse. }
  destruct (Hd i j Hi Hj) as (_ & Hr1 & Hn1).
  destruct (Hd j i Hj Hi) as (_ & Hr2 & Hn2).
  assert (Hdec : ~ ~ (reachable n a i j \/ ~ reachable n a i j)) by tauto.
  apply Hdec. intros [[len Hw]|Hnr].
  - destruct (Hr1 (ex_intro _ _ Hw)) as (l1 & Hl1 & Hw1 & Hmin1).
    destruct (Hr2 (ex_intro _ _ (Hrev _ _ _ Hw))) as (l2 & Hl2 & Hw2 & Hmin2).
    pose proof (Hmin1 _ (Hrev _ _ _ Hw2)). pose proof (Hmin2 _ (Hrev _ _ _ Hw1)).
    lia.
  - rewrite (Hn1 Hnr) in Hne. rewrite Hn2 in Hne; [done|].
    intros [len Hw]. apply Hnr. exists len. by apply Hrev.
Qed.

Lemma shortest_paths_symmetric_witness :
  1 <= 3 /\ 3 * 3 <= CInt.int_max /\
  adjacency 3 [0; 1; 0;  1; 0; 1;  0; 1; 0] = true /\
  (forall i j, 0 <= i < 3 -> 0 <= j < 3 ->
     entry 3 [0; 1; 0;  1; 0; 1;  0; 1; 0] i j =
     entry 3 [0; 1; 0;  1; 0; 1;  0; 1; 0] j i) /\
  shortest_paths 3 1 0 3 0 3 3 [0; 1; 0;  1; 0; 1;  0; 1; 0] =
    Some [0; 1; 2;  1; 0; 1;  2; 1; 0] /\
  entry 3 [0; 1; 2;  1; 0; 1;  2; 1; 0] 0 2 =
  entry 3 [0; 1; 2;  1; 0; 1;  2; 1; 0] 2 0.
Proof.
  assert (H1 : 1 <= 3) by lia.
  assert (H2 : 3 * 3 <= CInt.int_max) by (vm_compute; discriminate).
  assert (H3 : adjacency 3 [0; 1; 0;  1; 0; 1;  0; 1; 0] = true) by reflexivity.
  assert (H4 : forall i j, 0 <= i < 3 -> 0 <= j < 3 ->
     entry 3 [0; 1; 0;  1; 0; 1;  0; 1; 0] i j =
     entry 3 [0; 1; 0;  1; 0; 1;  0; 1; 0] j i).
  { intros i j Hi Hj.
    assert (i = 0 \/ i = 1 \/ i = 2) as [-> | [-> | ->]] by lia;
    assert (j = 0 \/ j = 1 \/ j = 2) as [-> | [-> | ->]] by lia;
    reflexivity. }
  assert (H5 : shortest_paths 3 1 0 3 0 3 3 [0; 1; 0;  1; 0; 1;  0; 1; 0] =
    Some [0; 1; 2;  1; 0; 1;  2; 1; 0]) by (vm_compute; reflexivity).
  refine (conj H1 (conj H2 (conj H3 (conj H4 (conj H5 _))))).
  apply (shortest_paths_symmetric 3 _ 1 3%nat _ H1 H2 H3 H4 H5); lia.
Defined.
